(** * Chunked audio streaming pipeline: transport, playback and capture

    A shallow embedding of the JavaScript sources
      - [frontend/Jim/services/AudioStreamingService.js]
      - [frontend/Jim/hooks/useAudioPlayback.js]
      - [frontend/Jim/hooks/useAudioRecording.js]
      - [frontend/Jim/utils/audioConfig] (the [AUDIO_CONFIG] table)
      - [frontend/src/config/websocket.ts]
      - [frontend/src/app/page.tsx] (the streamed-audio path)

    Conventions of the embedding.
      - A React state cell ([useState]) and a ref ([useRef]) are both fields
        of the hook's state record, and a setter writes the field. A ref is
        read as it is at the time of the call. A state cell is a constant of
        each render, and a function of the hook is a closure made by one
        render: where a function reads a state cell it reads the value the
        cell had in that render. The functions the component hands to its
        controls are those of the latest render, so a control reads the
        cells as they are when it is used; the handler that the mount effect
        subscribes, and every function it calls, are those of the first
        render for good.
      - An [async] function is cut at its [await]s: the synchronous prefix is
        one function, and each resumption is a step taking the settled value
        of the awaited promise ([Settled]).
      - Calls into the platform (expo-av sounds, the file system, timers) are
        recorded in an effect log; their results are inputs of the model.
      - A callback is identified by a number, as JavaScript compares
        functions by reference; what a callback does when it is called is
        given by a behaviour function: it returns or it throws. A callback
        does not subscribe or unsubscribe while [emit] is running. *)

From Stdlib Require Import ZArith QArith Lia.
From Stdlib Require DecimalString.
From stdpp Require Import base option list gmap strings.

Local Open Scope Z_scope.
Local Open Scope nat_scope.

(** ** Shared data *)

(** [AUDIO_STATES] of audioConfig. *)
Inductive AudioState : Set :=
| IDLE | RECORDING | PLAYING | CONNECTING | CONNECTED | DISCONNECTED | ERROR.

(** The rows of [AUDIO_CONFIG] that the pipeline reads. *)
Module AUDIO_CONFIG.
Module chunking.
Definition chunkDurationMs : Z := 500.
Definition maxChunksInMemory : nat := 20.
Definition overlapMs : Z := 50.
End chunking.
Module playback.
Definition bufferSize : nat := 5.
Definition maxBufferSize : nat := 20.
End playback.
End AUDIO_CONFIG.

(** A JavaScript exception value. *)
Inductive JsError : Set := Err (msg : string).

(** How a synchronous call completes. *)
Inductive Completion : Set :=
| Normal
| Throw (e : JsError).

(** How an awaited promise settles. *)
Inductive Settled (A : Type) : Type :=
| Resolved (v : A)
| Rejected (e : JsError).
Arguments Resolved {A} v.
Arguments Rejected {A} e.

(** The chunk object literal built by the recorder and by the simulator. *)
Record AudioChunk : Set := mkChunk {
  data : string;
  index : Z;
  timestamp : Z;
  duration : Z;
  format : string;
}.

(** ** The transport: AudioStreamingService.js *)

Module AudioStreamingService.

Definition Callback : Set := nat.
Definition TimerId : Set := nat.

Record Service : Type := mkService {
  listeners : gmap string (list Callback);
  connectionState : AudioState;
  chunkBuffer : list AudioChunk;
  simulationInterval : option TimerId;
}.

(** [constructor()] *)
Definition constructor : Service :=
  {| listeners := ∅;
     connectionState := CONNECTED;
     chunkBuffer := [];
     simulationInterval := None |}.

Definition with_listeners (m : gmap string (list Callback)) (this : Service) :=
  {| listeners := m;
     connectionState := connectionState this;
     chunkBuffer := chunkBuffer this;
     simulationInterval := simulationInterval this |}.

Definition with_chunkBuffer (b : list AudioChunk) (this : Service) :=
  {| listeners := listeners this;
     connectionState := connectionState this;
     chunkBuffer := b;
     simulationInterval := simulationInterval this |}.

Definition with_simulationInterval (t : option TimerId) (this : Service) :=
  {| listeners := listeners this;
     connectionState := connectionState this;
     chunkBuffer := chunkBuffer this;
     simulationInterval := t |}.

(** [on(event, callback)]: create the list when the event has none, then
    push at the end. *)
Definition on (event : string) (callback : Callback) (this : Service) : Service :=
  let m := if decide (is_Some (listeners this !! event))
           then listeners this
           else <[event := []]> (listeners this) in
  with_listeners (alter (fun callbacks => callbacks ++ [callback]) event m) this.

(** [Array.prototype.indexOf]: the first position, or -1. *)
Fixpoint indexOf (callbacks : list Callback) (callback : Callback) : Z :=
  match callbacks with
  | [] => (-1)%Z
  | c :: rest =>
      if decide (c = callback) then 0%Z
      else let i := indexOf rest callback in
           if (i <? 0)%Z then (-1)%Z else (i + 1)%Z
  end.

(** [off(event, callback)]: [splice(index, 1)] at the first occurrence. *)
Definition off (event : string) (callback : Callback) (this : Service) : Service :=
  match listeners this !! event with
  | Some callbacks =>
      let index := indexOf callbacks callback in
      if (index >? -1)%Z
      then with_listeners
             (<[event := delete (Z.to_nat index) callbacks]> (listeners this)) this
      else this
  | None => this
  end.

Section Emit.
Context {Payload : Type}.
(** What calling a callback with a payload does: return or throw. *)
Variable behaviour : Callback -> Payload -> Completion.

(** [callbacks.forEach(callback => callback(data))]: the calls made, in
    order, and how the loop completes. A throw leaves [forEach] at once. *)
Fixpoint forEach (callbacks : list Callback) (payload : Payload)
  : list (Callback * Payload) * Completion :=
  match callbacks with
  | [] => ([], Normal)
  | callback :: rest =>
      match behaviour callback payload with
      | Normal =>
          let '(calls, r) := forEach rest payload in
          ((callback, payload) :: calls, r)
      | Throw e => ([(callback, payload)], Throw e)
      end
  end.

(** [emit(event, data)] *)
Definition emit (event : string) (payload : Payload) (this : Service)
  : list (Callback * Payload) * Completion :=
  match listeners this !! event with
  | Some callbacks => forEach callbacks payload
  | None => ([], Normal)
  end.
End Emit.

(** [sendAudioChunk(audioChunk)]: push, then drop the head when the buffer
    is longer than [maxChunksInMemory]. *)
Definition sendAudioChunk (audioChunk : AudioChunk) (this : Service) : Service :=
  let pushed := chunkBuffer this ++ [audioChunk] in
  with_chunkBuffer
    (if decide (AUDIO_CONFIG.chunking.maxChunksInMemory < length pushed)
     then drop 1 pushed
     else pushed)
    this.

(** [getBufferedChunks()] *)
Definition getBufferedChunks (this : Service) : nat := length (chunkBuffer this).

(** [clearBuffer()] *)
Definition clearBuffer (this : Service) : Service := with_chunkBuffer [] this.

(** A run of [sendAudioChunk] calls, first chunk first. *)
Definition sendAll (chunks : list AudioChunk) (this : Service) : Service :=
  foldl (fun s c => sendAudioChunk c s) this chunks.

(** Registering [h1..hn] for one event, in that order. *)
Definition onAll (event : string) (callbacks : list Callback) (this : Service) : Service :=
  foldl (fun s cb => on event cb s) this callbacks.

(** *** Simulation mode

    The JavaScript runtime's table of live intervals. The only
    [setInterval] of the service is the one of
    [simulateIncomingAudioChunks]; the value kept for an interval is its
    period and the state of that callback's closure, the local
    [chunkIndex]. A timer id is a truthy value, as in every JavaScript
    runtime, so [if (this.simulationInterval)] tests for [Some]. *)
Record Interval : Set := mkInterval {
  period : Z;
  chunkIndex : nat;
}.

(** The service together with the intervals it has running and the record of
    what was emitted on 'incoming_audio_chunk' (oldest first) and of the
    callback calls that [emit] made. *)
Record World : Type := mkWorld {
  service : Service;
  intervals : gmap TimerId Interval;
  emitted : list AudioChunk;
  delivered : list (Callback * AudioChunk);
}.

(** [setInterval(callback, period)]: a fresh id for a new interval. *)
Definition setInterval (iv_period : Z) (table : gmap TimerId Interval)
  : TimerId * gmap TimerId Interval :=
  let id := fresh (dom table) in
  (id, <[id := {| period := iv_period; chunkIndex := 0 |}]> table).

(** [clearInterval(id)]; [clearInterval(null)] does nothing. *)
Definition clearInterval (id : option TimerId) (table : gmap TimerId Interval)
  : gmap TimerId Interval :=
  match id with
  | Some t => delete t table
  | None => table
  end.

Definition mockM4AHeader : string :=
  "AAAAGGZ0eXBpc29tAAABzGlzb21pc28yYXZjMW1wNDEAAAAAAAAAAAT4bW9vdgAAAGxtdmhkAAAAAAAAAAAAAAAAAAAAATAAAANQAAEAAAEAAAAAAAAAAAAAAAABAAAAAAAAAAAAAAAAAAAAAAAAAAAAAAAAAAAAAAAAAAAAAgAAAAAAAAAAAAAAAAAAAAAAAAAAAAAAAAAAAAAAAAADAAAB2HRyYWsAAABcdGtoZAAAAAAAAAAAAAAAAAABAAAAAAAAA1AAAAAAAAAAAAAAAAEAAAAAAAAAAAAAAAAAAAAAAAAAAAAAAAAAAAAAAAAABAAAAAAAAAAAAAAAAAAAAAAAAAAAAAAAAAAAAAAAAAABAAABwG1kaWEAAAAgbWRoZAAAAAAAAAAAAAAAAAAoBAAAAKAVeQAAAAAALWhkbHIAAAAAAAAAAHNvdW4AAAAAAAAAAAAAAABTb3VuZEhhbmRsZXIAAAABZ21pbmYAAAAQc21oZAAAAAAAAAAAAAAAJGRpbmYAAAAcZHJlZgAAAAAAAAABAAAADHVybCAAAAABAAABJ3N0YmwAAABnc3RzZAAAAAAAAAABAAAAV21wNGEAAAAAAAAAAQAAAAAAAAAAAAIAEAAAAAooAAAAOGVzZHMAAAAAA4CAgCIAAgAEgICAFEAVAAIAAAGgAAGAjgICpOQwBQYawA==".

(** [generateMockAudioChunk(index)] ignores its argument. *)
Definition generateMockAudioChunk (_ : nat) : string := mockM4AHeader.

(** [simulateIncomingAudioChunks()]: the part that runs at the call. *)
Definition simulateIncomingAudioChunks (w : World) : World :=
  let table := match simulationInterval (service w) with
               | Some t => clearInterval (Some t) (intervals w)
               | None => intervals w
               end in
  let '(id, table') := setInterval AUDIO_CONFIG.chunking.chunkDurationMs table in
  {| service := with_simulationInterval (Some id) (service w);
     intervals := table';
     emitted := emitted w;
     delivered := delivered w |}.

Section Simulation.
Variable behaviour : Callback -> AudioChunk -> Completion.

(** One firing of interval [id], the arrow function passed to [setInterval],
    with the value [Date.now()] has when it runs. A cleared interval does not
    fire. When [emit] throws, the callback is left before the test that
    clears the interval. *)
Definition simulationTick (dateNow : Z) (id : TimerId) (w : World) : World :=
  match intervals w !! id with
  | None => w
  | Some iv =>
      let mockBase64Audio := generateMockAudioChunk (chunkIndex iv) in
      let mockChunk :=
        {| data := mockBase64Audio;
           index := Z.of_nat (chunkIndex iv);
           timestamp := dateNow;
           duration := AUDIO_CONFIG.chunking.chunkDurationMs;
           format := "m4a" |} in
      (* chunkIndex++ has run when the literal is built *)
      let iv' := {| period := period iv; chunkIndex := S (chunkIndex iv) |} in
      let table := <[id := iv']> (intervals w) in
      let '(calls, r) := emit behaviour "incoming_audio_chunk" mockChunk (service w) in
      let w1 := {| service := service w;
                   intervals := table;
                   emitted := emitted w ++ [mockChunk];
                   delivered := delivered w ++ calls |} in
      match r with
      | Throw _ => w1
      | Normal =>
          if decide (10 <= chunkIndex iv')
          then {| service := with_simulationInterval None (service w1);
                  intervals := clearInterval (simulationInterval (service w1)) table;
                  emitted := emitted w1;
                  delivered := delivered w1 |}
          else w1
      end
  end.

(** Successive firings of interval [id], one for each time of [times]. *)
Definition fire (times : list Z) (id : TimerId) (w : World) : World :=
  foldl (fun w t => simulationTick t id w) w times.
End Simulation.

(** [stopSimulation()] *)
Definition stopSimulation (w : World) : World :=
  match simulationInterval (service w) with
  | Some t =>
      {| service := with_simulationInterval None (service w);
         intervals := clearInterval (Some t) (intervals w);
         emitted := emitted w;
         delivered := delivered w |}
  | None => w
  end.

End AudioStreamingService.

(** ** JavaScript numbers, as far as comparison sees them

    Every finite double is a rational, and [<] and [>] compare exactly, so a
    number is a rational, an infinity or NaN. Every comparison with NaN is
    false. *)
Inductive JsNumber : Set :=
| Finite (q : Q)
| Infinity (negative : bool)
| NaN.

Definition js_lt (a b : JsNumber) : bool :=
  match a, b with
  | NaN, _ | _, NaN => false
  | Finite x, Finite y => negb (Qle_bool y x)
  | Finite _, Infinity negative => negb negative
  | Infinity negative, Finite _ => negative
  | Infinity n1, Infinity n2 => n1 && negb n2
  end.

Definition js_gt (a b : JsNumber) : bool := js_lt b a.

(** Membership of the closed interval [[0,1]]. *)
Definition in_unit_interval (v : JsNumber) : Prop :=
  match v with
  | Finite q => (0 <= q)%Q /\ (q <= 1)%Q
  | _ => False
  end.

(** ** Whole numbers as JavaScript numbers

    A chunk's [index] is a JavaScript number, a double; the embedding keeps
    the whole numbers among them as [Z]. [+] gives the exact sum rounded to
    the nearest double, ties to the even one: a whole number that needs more
    than 53 bits loses the low ones. (Sums of 2^1024 - 2^970 or more are
    [Infinity], which [Z] has not: whole numbers of that size are outside
    the embedding.) *)
Definition round_to_double (z : Z) : Z :=
  let a := Z.abs z in
  let dropped := (Z.log2 a - 52)%Z in
  if (dropped <=? 0)%Z then z
  else
    let q := (a / 2 ^ dropped)%Z in
    let r := (a mod 2 ^ dropped)%Z in
    let half := (2 ^ (dropped - 1))%Z in
    let q' := if (half <? r)%Z || ((r =? half)%Z && Z.odd q) then (q + 1)%Z else q in
    (Z.sgn z * (q' * 2 ^ dropped))%Z.

Definition js_add (a b : Z) : Z := round_to_double (a + b).

(** ** The playback side: useAudioPlayback.js *)

Module useAudioPlayback.

Definition SoundId : Set := nat.

(** Calls into the platform, and the entry and return of [playAudioChunk]. *)
Inductive Effect : Set :=
| PlayCalled (c : AudioChunk)
| WriteFile (c : AudioChunk)
| CreateSound (c : AudioChunk) (vol : JsNumber)
| OnStatusUpdate (s : SoundId)
| UnloadSound (s : SoundId)
| DeleteFile (c : AudioChunk)
| PlayReturned (c : AudioChunk)
| StopSound (s : SoundId)
| SetVolume (s : SoundId) (v : JsNumber).

(** The hook's state cells and refs, and the log of effects (oldest first). *)
Record Hook : Set := mkHook {
  isPlaying : bool;
  playbackState : AudioState;
  error : option JsError;
  volume : JsNumber;
  bufferedChunks : nat;
  soundRef : option SoundId;
  audioQueueRef : list AudioChunk;
  isProcessingRef : bool;
  effects : list Effect;
}.

(** The state at mount. *)
Definition initial : Hook :=
  {| isPlaying := false;
     playbackState := IDLE;
     error := None;
     volume := Finite 1;
     bufferedChunks := 0;
     soundRef := None;
     audioQueueRef := [];
     isProcessingRef := false;
     effects := [] |}.

Definition setIsPlaying (b : bool) (h : Hook) : Hook :=
  mkHook b (playbackState h) (error h) (volume h) (bufferedChunks h)
         (soundRef h) (audioQueueRef h) (isProcessingRef h) (effects h).
Definition setPlaybackState (s : AudioState) (h : Hook) : Hook :=
  mkHook (isPlaying h) s (error h) (volume h) (bufferedChunks h)
         (soundRef h) (audioQueueRef h) (isProcessingRef h) (effects h).
Definition setError (e : option JsError) (h : Hook) : Hook :=
  mkHook (isPlaying h) (playbackState h) e (volume h) (bufferedChunks h)
         (soundRef h) (audioQueueRef h) (isProcessingRef h) (effects h).
Definition setVolume (v : JsNumber) (h : Hook) : Hook :=
  mkHook (isPlaying h) (playbackState h) (error h) v (bufferedChunks h)
         (soundRef h) (audioQueueRef h) (isProcessingRef h) (effects h).
Definition setBufferedChunks (n : nat) (h : Hook) : Hook :=
  mkHook (isPlaying h) (playbackState h) (error h) (volume h) n
         (soundRef h) (audioQueueRef h) (isProcessingRef h) (effects h).
Definition setSoundRef (s : option SoundId) (h : Hook) : Hook :=
  mkHook (isPlaying h) (playbackState h) (error h) (volume h) (bufferedChunks h)
         s (audioQueueRef h) (isProcessingRef h) (effects h).
Definition setAudioQueueRef (q : list AudioChunk) (h : Hook) : Hook :=
  mkHook (isPlaying h) (playbackState h) (error h) (volume h) (bufferedChunks h)
         (soundRef h) q (isProcessingRef h) (effects h).
Definition setIsProcessingRef (b : bool) (h : Hook) : Hook :=
  mkHook (isPlaying h) (playbackState h) (error h) (volume h) (bufferedChunks h)
         (soundRef h) (audioQueueRef h) b (effects h).
Definition perform (e : Effect) (h : Hook) : Hook :=
  mkHook (isPlaying h) (playbackState h) (error h) (volume h) (bufferedChunks h)
         (soundRef h) (audioQueueRef h) (isProcessingRef h) (effects h ++ [e]).

(** *** Renders

    What a closure keeps of the render that made it: the values of the two
    state cells that functions of the hook read, [isPlaying] in
    [handleIncomingAudioChunk] and [volume] in [playAudioChunk]. *)
Record Render : Set := mkRender {
  render_isPlaying : bool;
  render_volume : JsNumber;
}.

(** The first render, with the initial values of [useState]. The mount
    effect has an empty dependency list, so the handler it subscribes is the
    [handleIncomingAudioChunk] of this render, which calls the
    [processAudioQueue] and the [playAudioChunk] of this render. *)
Definition mount_render : Render :=
  {| render_isPlaying := false; render_volume := Finite 1 |}.

(** The render of the state as it is: the one whose functions the controls
    call. *)
Definition current_render (h : Hook) : Render :=
  {| render_isPlaying := isPlaying h; render_volume := volume h |}.

(** *** playAudioChunk

    Where the drain loop can be suspended: the five [await]s of
    [playAudioChunk] and the 10 ms delay of [processAudioQueue]. *)
Inductive DrainPoint : Set :=
| AwaitWrite (c : AudioChunk)
| AwaitCreate (c : AudioChunk)
| AwaitFinish (c : AudioChunk) (sound : SoundId)
| AwaitUnload (c : AudioChunk) (sound : SoundId)
| AwaitDelete (c : AudioChunk) (sound : SoundId)
| AwaitDelay.

(** What wakes a suspended loop up: the awaited promise settling. *)
Inductive Resume : Set :=
| WriteSettled (r : Settled unit)
| CreateSettled (r : Settled SoundId)
| DidJustFinish
| UnloadSettled (r : Settled unit)
| DeleteSettled (r : Settled unit)
| DelayElapsed.

(** Where a piece of an async body leaves off. *)
Inductive Control : Set :=
| Suspend (p : DrainPoint)
| Return
| Raise (e : JsError).

(** The [try] block of [playAudioChunk], from a resumption to the next
    [await], the end of the block, or a throw, in the closure of [render]:
    the sound is created with the [volume] of that render. [None]: the
    resumption is not the one this point awaits. *)
Definition playAudioChunk_try (render : Render) (p : DrainPoint) (r : Resume) (h : Hook)
  : option (Hook * Control) :=
  match p, r with
  | AwaitWrite c, WriteSettled (Resolved _) =>
      Some (perform (CreateSound c (render_volume render)) h, Suspend (AwaitCreate c))
  | AwaitWrite c, WriteSettled (Rejected e) => Some (h, Raise e)
  | AwaitCreate c, CreateSettled (Resolved sound) =>
      Some (perform (OnStatusUpdate sound)
              (setIsPlaying true (setSoundRef (Some sound) h)),
            Suspend (AwaitFinish c sound))
  | AwaitCreate c, CreateSettled (Rejected e) => Some (h, Raise e)
  | AwaitFinish c sound, DidJustFinish =>
      Some (perform (UnloadSound sound) h, Suspend (AwaitUnload c sound))
  | AwaitUnload c sound, UnloadSettled (Resolved _) =>
      Some (perform (DeleteFile c) h, Suspend (AwaitDelete c sound))
  | AwaitUnload c sound, UnloadSettled (Rejected e) => Some (h, Raise e)
  | AwaitDelete c sound, DeleteSettled (Resolved _) => Some (h, Return)
  | AwaitDelete c sound, DeleteSettled (Rejected e) => Some (h, Raise e)
  | _, _ => None
  end.

(** The chunk a point inside [playAudioChunk] is playing. *)
Definition chunk_of (p : DrainPoint) : option AudioChunk :=
  match p with
  | AwaitWrite c | AwaitCreate c | AwaitFinish c _
  | AwaitUnload c _ | AwaitDelete c _ => Some c
  | AwaitDelay => None
  end.

Definition returned (p : DrainPoint) (h : Hook) : Hook :=
  match chunk_of p with
  | Some c => perform (PlayReturned c) h
  | None => h
  end.

(** [playAudioChunk] resumed: the [try] block under its [catch], which sets
    the error and lets the function return. *)
Definition playAudioChunk_resume (render : Render) (p : DrainPoint) (r : Resume)
    (h : Hook) : option (Hook * Control) :=
  match playAudioChunk_try render p r h with
  | Some (h', Raise err) => Some (returned p (setError (Some err) h'), Return)
  | Some (h', Return) => Some (returned p h', Return)
  | Some (h', Suspend p') => Some (h', Suspend p')
  | None => None
  end.

(** [playAudioChunk(audioChunk)] up to its first [await]. *)
Definition playAudioChunk (audioChunk : AudioChunk) (h : Hook) : Hook * Control :=
  (perform (WriteFile audioChunk) (perform (PlayCalled audioChunk) h),
   Suspend (AwaitWrite audioChunk)).

(** *** processAudioQueue *)

(** The [finally] block. *)
Definition processAudioQueue_finally (h : Hook) : Hook :=
  setIsPlaying false (setPlaybackState IDLE (setIsProcessingRef false h)).

(** The [catch] block, followed by [finally]. *)
Definition processAudioQueue_catch (err : JsError) (h : Hook) : Hook :=
  processAudioQueue_finally (setPlaybackState ERROR (setError (Some err) h)).

(** What [processAudioQueue] does with the way a piece of
    [playAudioChunk] left off: stay suspended inside it, go on to the delay
    after its return, or take the [catch] if it threw. *)
Definition after_play (hc : Hook * Control) : Hook * option DrainPoint :=
  match hc with
  | (h, Suspend p) => (h, Some p)
  | (h, Return) => (h, Some AwaitDelay)
  | (h, Raise err) => (processAudioQueue_catch err h, None)
  end.

(** The [while] test and the body up to the first [await]: shift the head,
    publish the new length, call [playAudioChunk]. An empty queue leaves
    the loop through [finally]. *)
Definition processAudioQueue_loop (h : Hook) : Hook * option DrainPoint :=
  match audioQueueRef h with
  | [] => (processAudioQueue_finally h, None)
  | audioChunk :: rest =>
      let h1 := setAudioQueueRef rest h in
      let h2 := setBufferedChunks (length (audioQueueRef h1)) h1 in
      after_play (playAudioChunk audioChunk h2)
  end.

(** [processAudioQueue()] up to its first [await]; [None] when it returns
    without suspending. *)
Definition processAudioQueue (h : Hook) : Hook * option DrainPoint :=
  if isProcessingRef h || (length (audioQueueRef h) =? 0)
  then (h, None)
  else processAudioQueue_loop
         (setPlaybackState PLAYING (setIsProcessingRef true h)).

(** A suspended [processAudioQueue] resumed, in the closure of [render]. *)
Definition processAudioQueue_resume (render : Render) (p : DrainPoint) (r : Resume)
    (h : Hook) : option (Hook * option DrainPoint) :=
  match p, r with
  | AwaitDelay, DelayElapsed => Some (processAudioQueue_loop h)
  | AwaitDelay, _ => None
  | _, _ =>
      match playAudioChunk_resume render p r h with
      | Some hc => Some (after_play hc)
      | None => None
      end
  end.

(** *** handleIncomingAudioChunk

    The function in the closure of [render]: the queue and the processing
    flag are refs, [isPlaying] is the constant of the render. *)
Definition handleIncomingAudioChunk (render : Render) (audioChunk : AudioChunk)
    (h : Hook) : Hook * option DrainPoint :=
  let h1 := setAudioQueueRef (audioQueueRef h ++ [audioChunk]) h in
  let h2 := setBufferedChunks (length (audioQueueRef h1)) h1 in
  if negb (isProcessingRef h2)
     && ((AUDIO_CONFIG.playback.bufferSize <=? length (audioQueueRef h2))
         || render_isPlaying render)
  then processAudioQueue h2
  else (h2, None).

(** *** stopPlayback

    The two awaited calls are [stopAsync] and [unloadAsync] on
    [soundRef.current]; how each settles is given. A rejection takes the
    [catch], which only sets the error. *)
Definition stopPlayback_clear (h : Hook) : Hook :=
  setPlaybackState IDLE
    (setIsPlaying false
       (setBufferedChunks 0
          (setIsProcessingRef false
             (setAudioQueueRef [] h)))).

Definition stopPlayback (stopAsync unloadAsync : Settled unit) (h : Hook) : Hook :=
  match soundRef h with
  | Some sound =>
      let h1 := perform (StopSound sound) h in
      match stopAsync with
      | Rejected err => setError (Some err) h1
      | Resolved _ =>
          let h2 := perform (UnloadSound sound) h1 in
          match unloadAsync with
          | Rejected err => setError (Some err) h2
          | Resolved _ => stopPlayback_clear (setSoundRef None h2)
          end
      end
  | None => stopPlayback_clear h
  end.

(** [cleanup], the unmount path: stop and unload are fired without being
    awaited, each with its own [.catch(console.error)], and the refs are
    cleared whatever becomes of them. *)
Definition cleanup (h : Hook) : Hook :=
  let h1 := match soundRef h with
            | Some sound => perform (UnloadSound sound) (perform (StopSound sound) h)
            | None => h
            end in
  setIsProcessingRef false (setAudioQueueRef [] h1).

(** *** adjustVolume *)
Definition adjustVolume (newVolume : JsNumber) (setVolumeAsync : Settled unit) (h : Hook)
  : Hook :=
  if js_lt newVolume (Finite 0) || js_gt newVolume (Finite 1)
  then h
  else
    let h1 := setVolume newVolume h in
    match soundRef h1 with
    | Some sound =>
        let h2 := perform (SetVolume sound newVolume) h1 in
        match setVolumeAsync with
        | Resolved _ => h2
        | Rejected err => setError (Some err) h2
        end
    | None => h1
    end.

(** *** The playback side as a system

    The hook's state and the drain loops that are suspended at an
    [await], each with the render whose closures it runs. A chunk arrives at
    the subscribed handler, which is the one of the first render, or a
    suspended loop is woken up. *)
Record Task : Set := mkTask {
  closure : Render;
  point : DrainPoint;
}.

Record System : Set := mkSystem {
  hook : Hook;
  tasks : list Task;
}.

Inductive Event : Set :=
| Arrive (c : AudioChunk)
| Wake (i : nat) (r : Resume).

Definition boot : System := {| hook := initial; tasks := [] |}.

Definition step (s : System) (ev : Event) : System :=
  match ev with
  | Arrive c =>
      let '(h, started) := handleIncomingAudioChunk mount_render c (hook s) in
      {| hook := h; tasks := tasks s ++ option_list (mkTask mount_render <$> started) |}
  | Wake i r =>
      match tasks s !! i with
      | Some t =>
          match processAudioQueue_resume (closure t) (point t) r (hook s) with
          | Some (h, Some p') =>
              {| hook := h; tasks := <[i := mkTask (closure t) p']> (tasks s) |}
          | Some (h, None) => {| hook := h; tasks := delete i (tasks s) |}
          | None => s
          end
      | None => s
      end
  end.

Definition run (evs : list Event) (s : System) : System := foldl step s evs.

(** The chunks delivered by a run of events, in call order. *)
Definition arrivals (evs : list Event) : list AudioChunk :=
  omap (fun ev => match ev with Arrive c => Some c | Wake _ _ => None end) evs.

(** The calls and returns of [playAudioChunk] in an effect log. *)
Definition is_play (e : Effect) : bool :=
  match e with PlayCalled _ | PlayReturned _ => true | _ => false end.

Definition play_events (l : list Effect) : list Effect := List.filter is_play l.

(** The log of chunks played one after the other, each to its return. *)
Definition one_by_one (cs : list AudioChunk) : list Effect :=
  flat_map (fun c => [PlayCalled c; PlayReturned c]) cs.

(** How the playing of one chunk goes: where it fails, if it does. *)
Inductive PlayScript : Set :=
| FailsAtWrite (e : JsError)
| FailsAtCreate (e : JsError)
| FailsAtUnload (sound : SoundId) (e : JsError)
| FailsAtDelete (sound : SoundId) (e : JsError)
| PlaysThrough (sound : SoundId).

(** The resumptions a script stands for, the delay after the chunk included. *)
Definition resumptions (sc : PlayScript) : list Resume :=
  match sc with
  | FailsAtWrite e => [WriteSettled (Rejected e)]
  | FailsAtCreate e => [WriteSettled (Resolved ()); CreateSettled (Rejected e)]
  | FailsAtUnload sound e =>
      [WriteSettled (Resolved ()); CreateSettled (Resolved sound); DidJustFinish;
       UnloadSettled (Rejected e)]
  | FailsAtDelete sound e =>
      [WriteSettled (Resolved ()); CreateSettled (Resolved sound); DidJustFinish;
       UnloadSettled (Resolved ()); DeleteSettled (Rejected e)]
  | PlaysThrough sound =>
      [WriteSettled (Resolved ()); CreateSettled (Resolved sound); DidJustFinish;
       UnloadSettled (Resolved ()); DeleteSettled (Resolved ())]
  end ++ [DelayElapsed].

Definition failure (sc : PlayScript) : option JsError :=
  match sc with
  | FailsAtWrite e | FailsAtCreate e | FailsAtUnload _ e | FailsAtDelete _ e => Some e
  | PlaysThrough _ => None
  end.

(** The events that carry the only drain loop through the scripts. *)
Definition drain_events (scripts : list PlayScript) : list Event :=
  map (Wake 0) (flat_map resumptions scripts).

End useAudioPlayback.

(** ** The capture side: useAudioRecording.js *)

Module useAudioRecording.

Import AudioStreamingService.

Record Hook : Set := mkHook {
  isRecording : bool;
  recordingState : AudioState;
  error : option JsError;
  duration : Z;
  chunksRecorded : nat;
  startTimeRef : option Z;
  chunkCountRef : nat;
}.

(** [startRecording()], with the way [Audio.setAudioModeAsync] settles and
    the value of [Date.now()]. A session begins with both chunk counters
    at zero. *)
Definition startRecording (setAudioModeAsync : Settled unit) (dateNow : Z) (h : Hook)
  : Hook :=
  if isRecording h then h
  else
    match setAudioModeAsync with
    | Resolved _ =>
        {| isRecording := true;
           recordingState := RECORDING;
           error := None;
           duration := duration h;
           chunksRecorded := 0;
           startTimeRef := Some dateNow;
           chunkCountRef := 0 |}
    | Rejected err =>
        {| isRecording := false;
           recordingState := ERROR;
           error := Some err;
           duration := duration h;
           chunksRecorded := chunksRecorded h;
           startTimeRef := startTimeRef h;
           chunkCountRef := chunkCountRef h |}
    end.

(** What the platform answers while one chunk is finalized. *)
Record ChunkIO : Set := mkChunkIO {
  stopAndUnloadAsync : Settled unit;
  getURI : option string;
  readAsStringAsync : Settled string;
  deleteAsync : Settled unit;
  dateNow : Z;
}.

(** JavaScript truthiness of [string | null]: null and the empty string
    are falsy. *)
Definition truthy (v : option string) : bool :=
  match v with
  | Some s => negb (String.eqb s "")
  | None => false
  end.

(** [processAudioChunk(uri, chunkIndex)]: the service after the call and
    the chunk handed to [sendAudioChunk], if the file could be read. *)
Definition processAudioChunk (io : ChunkIO) (chunkIndex : nat) (svc : Service)
  : Service * option AudioChunk :=
  match readAsStringAsync io with
  | Resolved base64Audio =>
      let audioChunk :=
        mkChunk (* data *) base64Audio
                (* index *) (Z.of_nat chunkIndex)
                (* timestamp *) (dateNow io)
                (* duration *) AUDIO_CONFIG.chunking.chunkDurationMs
                (* format *) "m4a" in
      (sendAudioChunk audioChunk svc, Some audioChunk)
  | Rejected _ => (svc, None)
  end.

(** [stopCurrentChunk(recording)]. The [catch] only logs, so a rejected
    stop leaves the state as it is, and a rejected delete changes nothing
    that was done before it. The function is not handed out by the hook:
    only the chunk timeout that [recordNextChunk] sets calls it. *)
Definition stopCurrentChunk (io : ChunkIO) (w : Hook * Service)
  : Hook * Service * option AudioChunk :=
  let '(h, svc) := w in
  match stopAndUnloadAsync io with
  | Rejected _ => (h, svc, None)
  | Resolved _ =>
      if truthy (getURI io)
      then
        let count := S (chunkCountRef h) in
        let h1 := {| isRecording := isRecording h;
                     recordingState := recordingState h;
                     error := error h;
                     duration := duration h;
                     chunksRecorded := count;
                     startTimeRef := startTimeRef h;
                     chunkCountRef := count |} in
        let '(svc1, sent) := processAudioChunk io (chunkCountRef h1) svc in
        (h1, svc1, sent)
      else (h, svc, None)
  end.

(** A chunk recording is finalized when the recorder stopped and gave a
    file; emitted when that file could also be read. *)
Definition finalized (io : ChunkIO) : bool :=
  match stopAndUnloadAsync io with
  | Resolved _ => truthy (getURI io)
  | Rejected _ => false
  end.

End useAudioRecording.

(** ** The web client's socket address: config/websocket.ts *)

Module websocket.

Local Open Scope string_scope.

(** [process.env.NEXT_PUBLIC_WEBSOCKET_URL]: [None] when the variable is
    not set. *)
Definition Env : Set := option string.

Definition truthy (v : Env) : bool :=
  match v with
  | Some s => negb (String.eqb s "")
  | None => false
  end.

(** [config.websocketUrl]: [env || 'ws://localhost:8000']. *)
Definition websocketUrl (env : Env) : string :=
  match env with
  | Some s => if truthy env then s else "ws://localhost:8000"
  | None => "ws://localhost:8000"
  end.

Definition drop_chars (n : nat) (s : string) : string :=
  String.substring n (String.length s - n) s.

(** [s.replace(/^wss?:\/\//, '')] *)
Definition strip_protocol (s : string) : string :=
  if String.prefix "wss://" s then drop_chars 6 s
  else if String.prefix "ws://" s then drop_chars 5 s
  else s.

(** [getWebSocketUrl(endpoint)] *)
Definition getWebSocketUrl (env : Env) (endpoint : string) : string :=
  let baseUrl := websocketUrl env in
  if truthy env
  then
    let cleanUrl := strip_protocol baseUrl in
    "wss://" ++ cleanUrl ++ endpoint
  else
    let protocol := if String.prefix "wss://" baseUrl then "wss://" else "ws://" in
    let cleanUrl := strip_protocol baseUrl in
    protocol ++ cleanUrl ++ endpoint.

End websocket.

(** ** The rest of the transport *)

Module AudioStreamingService_rest.
Import AudioStreamingService.

(** [getConnectionState()] *)
Definition getConnectionState (this : Service) : AudioState := connectionState this.

(** [isReady()] *)
Definition isReady (this : Service) : bool := true.

(** [echoLastChunk()]: the chunk handed to [setTimeout] for an [emit] on
    'incoming_audio_chunk' one second later, if the buffer holds a chunk;
    [dateNow] is the value of [Date.now()]. The service itself is left as it
    is. [lastChunk.index + 1000] is an addition of numbers. *)
Definition echoLastChunk (dateNow : Z) (this : Service) : option AudioChunk :=
  match last (chunkBuffer this) with
  | Some lastChunk =>
      Some {| data := data lastChunk;
              index := js_add (index lastChunk) 1000;
              timestamp := dateNow;
              duration := duration lastChunk;
              format := format lastChunk |}
  | None => None
  end.

(** The calls a client can make on the service's subscriptions and buffer. *)
Inductive Call : Set :=
| CallOn (event : string) (callback : Callback)
| CallOff (event : string) (callback : Callback)
| CallSend (audioChunk : AudioChunk)
| CallClearBuffer.

Definition call (this : Service) (c : Call) : Service :=
  match c with
  | CallOn event callback => on event callback this
  | CallOff event callback => off event callback this
  | CallSend audioChunk => sendAudioChunk audioChunk this
  | CallClearBuffer => clearBuffer this
  end.

Definition calls (cs : list Call) (this : Service) : Service := foldl call this cs.

End AudioStreamingService_rest.

(** ** The rest of the playback side *)

Module useAudioPlayback_rest.
Import useAudioPlayback.

(** The calls on the held sound that [pausePlayback] and [resumePlayback]
    make. *)
Inductive SoundCall : Set :=
| PauseAsync (sound : SoundId)
| PlayAsync (sound : SoundId).

(** [initializeAudio()], with the way [Audio.setAudioModeAsync] settles. *)
Definition initializeAudio (setAudioModeAsync : Settled unit) (h : Hook) : Hook :=
  match setAudioModeAsync with
  | Resolved _ => h
  | Rejected err => setPlaybackState ERROR (setError (Some err) h)
  end.

(** [pausePlayback()], with the way [pauseAsync] settles if a sound is held:
    the hook afterwards and the call made on the sound. A rejection takes the
    [catch], which only sets the error. The loop that may be suspended is
    not touched. *)
Definition pausePlayback (pauseAsync : Settled unit) (h : Hook)
  : Hook * list SoundCall :=
  let lowered :=
    setPlaybackState IDLE (setIsPlaying false (setIsProcessingRef false h)) in
  match soundRef h with
  | Some sound =>
      match pauseAsync with
      | Resolved _ => (lowered, [PauseAsync sound])
      | Rejected err => (setError (Some err) h, [PauseAsync sound])
      end
  | None => (lowered, [])
  end.

(** [resumePlayback()], with the way [playAsync] settles if a sound is held:
    the hook afterwards, the loop started if one is, and the call made on the
    sound. It reads no state cell; the loop it starts runs the closures of
    the render it was called in. *)
Definition resumePlayback (playAsync : Settled unit) (h : Hook)
  : Hook * option DrainPoint * list SoundCall :=
  match soundRef h with
  | Some sound =>
      match playAsync with
      | Resolved _ =>
          (setPlaybackState PLAYING (setIsPlaying true h), None, [PlayAsync sound])
      | Rejected err => (setError (Some err) h, None, [PlayAsync sound])
      end
  | None =>
      if 0 <? length (audioQueueRef h)
      then (processAudioQueue h, [])
      else (h, None, [])
  end.

(** [startPlayback()]: clear the error and start a simulation on the
    transport. *)
Definition startPlayback (hw : Hook * AudioStreamingService.World)
  : Hook * AudioStreamingService.World :=
  (setError None hw.1, AudioStreamingService.simulateIncomingAudioChunks hw.2).

(** What can happen to the mounted hook: a chunk arrives or a loop is woken
    up (the events of [useAudioPlayback.step]), or one of the controls is
    used. *)
Inductive Action : Set :=
| Deliver (ev : Event)
| Pause (pauseAsync : Settled unit)
| Continue (playAsync : Settled unit)
| Stop (stopAsync unloadAsync : Settled unit)
| Volume (newVolume : JsNumber) (setVolumeAsync : Settled unit).

Definition with_hook (h : Hook) (s : System) : System :=
  {| hook := h; tasks := tasks s |}.

Definition act (s : System) (a : Action) : System :=
  match a with
  | Deliver ev => step s ev
  | Pause r => with_hook (pausePlayback r (hook s)).1 s
  | Continue r =>
      let '(h, started, _) := resumePlayback r (hook s) in
      {| hook := h;
         tasks := tasks s
                  ++ option_list (mkTask (current_render (hook s)) <$> started) |}
  | Stop r1 r2 => with_hook (stopPlayback r1 r2 (hook s)) s
  | Volume v r => with_hook (adjustVolume v r (hook s)) s
  end.

Definition perform_all (actions : list Action) (s : System) : System :=
  foldl act s actions.

(** A run of [adjustVolume] calls whose platform calls resolve. *)
Definition adjustAll (vs : list JsNumber) (h : Hook) : Hook :=
  foldl (fun h v => adjustVolume v (Resolved ()) h) h vs.

End useAudioPlayback_rest.

(** ** The rest of the capture side *)

Module useAudioRecording_rest.
Import useAudioRecording.

Local Open Scope string_scope.

Definition RecordingId : Set := nat.
Definition TimerId : Set := nat.

(** The hook's cells together with the two refs the session controls use:
    the recorder of the chunk being recorded and the interval that updates
    the duration. ([chunkIntervalRef] is never assigned and stays null.) *)
Record Session : Set := mkSession {
  hook : Hook;
  recordingRef : option RecordingId;
  durationIntervalRef : option TimerId;
}.

Definition setIsRecording (b : bool) (s : AudioState) (h : Hook) : Hook :=
  {| isRecording := b;
     recordingState := s;
     error := error h;
     duration := duration h;
     chunksRecorded := chunksRecorded h;
     startTimeRef := startTimeRef h;
     chunkCountRef := chunkCountRef h |}.

Definition setError (e : JsError) (h : Hook) : Hook :=
  {| isRecording := isRecording h;
     recordingState := recordingState h;
     error := Some e;
     duration := duration h;
     chunksRecorded := chunksRecorded h;
     startTimeRef := startTimeRef h;
     chunkCountRef := chunkCountRef h |}.

Definition setClock (start : option Z) (d : Z) (h : Hook) : Hook :=
  {| isRecording := isRecording h;
     recordingState := recordingState h;
     error := error h;
     duration := d;
     chunksRecorded := chunksRecorded h;
     startTimeRef := start;
     chunkCountRef := chunkCountRef h |}.

(** The callback of the duration interval, with the value of [Date.now()]:
    [if (startTimeRef.current) setDuration(floor((now - start) / 1000))].
    A start time of 0 is falsy, like null. *)
Definition durationTick (dateNow : Z) (h : Hook) : Hook :=
  match startTimeRef h with
  | Some start =>
      if (start =? 0)%Z then h
      else setClock (startTimeRef h) ((dateNow - start) / 1000)%Z h
  | None => h
  end.

(** [stopRecording()], with the way [stopAndUnloadAsync] settles on the
    recorder that is held. The inner [try] takes a rejection and only warns. *)
Definition stopRecording (stopAndUnload : Settled unit) (s : Session) : Session :=
  if negb (isRecording (hook s)) then s
  else
    {| hook := setClock None 0 (setIsRecording false IDLE (hook s));
       recordingRef := None;
       durationIntervalRef := None |}.

(** [pauseRecording()]: here the stop of the current chunk is awaited in the
    outer [try], so a rejection skips the rest and sets the error. *)
Definition pauseRecording (stopAndUnload : Settled unit) (s : Session) : Session :=
  if negb (isRecording (hook s)) then s
  else
    let h1 := setIsRecording false IDLE (hook s) in
    match recordingRef s, stopAndUnload with
    | Some _, Rejected err =>
        {| hook := setError err h1;
           recordingRef := recordingRef s;
           durationIntervalRef := durationIntervalRef s |}
    | _, _ =>
        {| hook := h1; recordingRef := None; durationIntervalRef := None |}
    end.

(** [resumeRecording()], with the value of [Date.now()], the id of the
    interval it sets and what its call of [recordNextChunk] stores before
    the first [await]: a recorder, or nothing when that call returns at its
    guard. The start time is moved back by the duration shown. *)
Definition resumeRecording (dateNow : Z) (timer : TimerId)
    (recorder : option RecordingId) (s : Session) : Session :=
  if isRecording (hook s) then s
  else
    let h1 := setIsRecording true RECORDING (hook s) in
    let pausedDuration := duration (hook s) in
    {| hook := setClock (Some (dateNow - pausedDuration * 1000)%Z) (duration h1) h1;
       recordingRef := match recorder with
                       | Some r => Some r
                       | None => recordingRef s
                       end;
       durationIntervalRef := Some timer |}.

(** *** The capture side as a program

    [recordNextChunk] reads the state cell [isRecording], and so the value
    of the render that made the closure it is called in. It is called by
    [startRecording], through [startChunkedRecording], and by
    [resumeRecording], each in the closure of the render in which the
    control was used, and by the chunk timeout that an earlier call of
    itself has set, in the closure of that call. *)

(** The state at mount. *)
Definition initial : Hook :=
  {| isRecording := false;
     recordingState := IDLE;
     error := None;
     duration := 0;
     chunksRecorded := 0;
     startTimeRef := None;
     chunkCountRef := 0 |}.

(** The session, the transport, the chunks handed to [sendAudioChunk] so
    far, and the chunk timeouts that are set and have not fired, each with
    the recorder it is to stop. *)
Record Program : Set := mkProgram {
  capture : Session;
  transport : AudioStreamingService.Service;
  handed : list AudioChunk;
  chunkTimeouts : list RecordingId;
}.

Definition with_capture (s : Session) (p : Program) : Program :=
  {| capture := s;
     transport := transport p;
     handed := handed p;
     chunkTimeouts := chunkTimeouts p |}.

Definition mounted (svc : AudioStreamingService.Service) : Program :=
  {| capture := {| hook := initial; recordingRef := None; durationIntervalRef := None |};
     transport := svc;
     handed := [];
     chunkTimeouts := [] |}.

(** [recordNextChunk()] in a closure in which [isRecording] has the given
    value, with the recorder that [new Audio.Recording()] gives and the way
    [prepareToRecordAsync] and [startAsync] settle (the rejection, if one
    of them rejects). The guard [if (!isRecording) return] comes first;
    past it the recorder is stored, and once it has started the chunk
    timeout is set. *)
Definition recordNextChunk (isRecording : bool) (recording : RecordingId)
    (started : Settled unit) (p : Program) : Program :=
  if negb isRecording then p
  else
    let s := capture p in
    match started with
    | Resolved _ =>
        {| capture := {| hook := hook s;
                         recordingRef := Some recording;
                         durationIntervalRef := durationIntervalRef s |};
           transport := transport p;
           handed := handed p;
           chunkTimeouts := chunkTimeouts p ++ [recording] |}
    | Rejected err =>
        with_capture {| hook := setError err (hook s);
                        recordingRef := Some recording;
                        durationIntervalRef := durationIntervalRef s |} p
    end.

(** What the user and the platform do to the mounted hook: the four
    controls, with what the platform answers during the call; a tick of the
    duration interval; and the firing of a chunk timeout, with what the
    platform answers while the chunk is finalized and the next one is
    begun. *)
Inductive Input : Set :=
| PressStart (setAudioModeAsync : Settled unit) (dateNow : Z) (timer : TimerId)
             (recording : RecordingId) (started : Settled unit)
| PressStop (stopAndUnload : Settled unit)
| PressPause (stopAndUnload : Settled unit)
| PressResume (dateNow : Z) (timer : TimerId)
              (recording : RecordingId) (started : Settled unit)
| DurationTick (dateNow : Z)
| ChunkTimeout (i : nat) (io : ChunkIO) (recording : RecordingId) (started : Settled unit).

(** A control is a function of the latest render, so the [isRecording] it
    reads, and that the [recordNextChunk] it calls reads, is the flag as it
    is when the control is used. The callback of a chunk timeout runs in the
    closure of the [recordNextChunk] that set it, where [isRecording] is
    [true], the guard having been passed: it finalizes the chunk with
    [stopCurrentChunk] and calls [recordNextChunk] of the same closure
    (after the overlap delay, which is left out). *)
Definition react (p : Program) (input : Input) : Program :=
  let s := capture p in
  let isRecording := isRecording (hook s) in
  match input with
  | PressStart setAudioModeAsync dateNow timer recording started =>
      if isRecording then p
      else
        let h := startRecording setAudioModeAsync dateNow (hook s) in
        match setAudioModeAsync with
        | Resolved _ =>
            recordNextChunk isRecording recording started
              (with_capture {| hook := h;
                               recordingRef := recordingRef s;
                               durationIntervalRef := Some timer |} p)
        | Rejected _ =>
            with_capture {| hook := h;
                            recordingRef := recordingRef s;
                            durationIntervalRef := durationIntervalRef s |} p
        end
  | PressStop stopAndUnload => with_capture (stopRecording stopAndUnload s) p
  | PressPause stopAndUnload => with_capture (pauseRecording stopAndUnload s) p
  | PressResume dateNow timer recording started =>
      if isRecording then p
      else
        recordNextChunk isRecording recording started
          (with_capture (resumeRecording dateNow timer None s) p)
  | DurationTick dateNow =>
      with_capture {| hook := durationTick dateNow (hook s);
                      recordingRef := recordingRef s;
                      durationIntervalRef := durationIntervalRef s |} p
  | ChunkTimeout i io recording started =>
      match chunkTimeouts p !! i with
      | Some _ =>
          let '(h, svc, chunk) := stopCurrentChunk io (hook s, transport p) in
          recordNextChunk true recording started
            {| capture := {| hook := h;
                             recordingRef := recordingRef s;
                             durationIntervalRef := durationIntervalRef s |};
               transport := svc;
               handed := handed p ++ option_list chunk;
               chunkTimeouts := delete i (chunkTimeouts p) |}
      | None => p
      end
  end.

Definition run (inputs : list Input) (p : Program) : Program :=
  foldl react p inputs.

(** [Number.prototype.toString()] on an integer. *)
Definition toString (z : Z) : string :=
  if (z <? 0)%Z
  then "-" ++ DecimalString.NilZero.string_of_uint (Nat.to_uint (Z.abs_nat z))
  else DecimalString.NilZero.string_of_uint (Nat.to_uint (Z.to_nat z)).

(** [s.padStart(2, '0')] *)
Definition padStart2 (s : string) : string :=
  match String.length s with
  | 0 => "00"
  | 1 => "0" ++ s
  | _ => s
  end.

(** [formatDuration(seconds)]: [Math.floor(seconds / 60)] and
    [seconds % 60], each padded to two characters. *)
Definition formatDuration (seconds : Z) : string :=
  let mins := (seconds / 60)%Z in
  let secs := Z.rem seconds 60 in
  padStart2 (toString mins) ++ ":" ++ padStart2 (toString secs).

(** Reading a text of the shape MM:SS back as seconds. *)
Definition digit (a : Ascii.ascii) : option Z :=
  let n := Ascii.nat_of_ascii a in
  if ((48 <=? n) && (n <=? 57))%nat then Some (Z.of_nat (n - 48)) else None.

Definition readClock (s : string) : option Z :=
  match s with
  | String m1 (String m2 (String colon (String s1 (String s2 EmptyString)))) =>
      match digit m1, digit m2, digit s1, digit s2 with
      | Some a, Some b, Some c, Some d =>
          if Ascii.eqb colon (Ascii.ascii_of_nat 58)
          then Some ((a * 10 + b) * 60 + c * 10 + d)%Z
          else None
      | _, _, _, _ => None
      end
  | _ => None
  end.

End useAudioRecording_rest.

(** ** The page that opens the socket: streamed audio *)

(** [ws.onmessage] and [playStreamingAudio] of the first [page.tsx]. The
    model keeps the cells that the streamed-audio path reads and writes: the
    two captions, [streamingAudioRef] and the audio elements that are created
    and started, in order. The expression badge and the two playing flags,
    which only the audio element's events reset, are left out. [atob] is the
    platform's decoder: it gives the bytes of a base64 text or throws; the
    loop that copies [charCodeAt(i)] into a [Uint8Array] is the identity on
    those bytes. *)
Module page.

Local Open Scope string_scope.

Definition Uint8Array : Set := list Byte.byte.

(** [target.set(source, offset)]; a RangeError when [source] does not fit. *)
Definition set (target source : Uint8Array) (offset : nat) : option Uint8Array :=
  if (offset + length source <=? length target)%nat
  then Some (take offset target ++ source ++ drop (offset + length source) target)%list
  else None.

(** [chunks.reduce((sum, chunk) => sum + chunk.length, 0)] *)
Definition totalLength (chunks : list Uint8Array) : nat :=
  foldl (fun sum chunk => sum + length chunk)%nat 0%nat chunks.

(** One round of [chunks.forEach(chunk => { combinedArray.set(chunk, offset);
    offset += chunk.length })], on the array and the offset. *)
Definition copy_chunk (acc : option (Uint8Array * nat)) (chunk : Uint8Array)
  : option (Uint8Array * nat) :=
  match acc with
  | Some (combinedArray, offset) =>
      match set combinedArray chunk offset with
      | Some combinedArray' => Some (combinedArray', (offset + length chunk)%nat)
      | None => None
      end
  | None => None
  end.

(** The combining part of [playStreamingAudio]: a zeroed array of the total
    length, then every chunk copied at the running offset. *)
Definition combine (chunks : list Uint8Array) : option Uint8Array :=
  fst <$> foldl copy_chunk (Some (replicate (totalLength chunks) Byte.x00, 0%nat)) chunks.

(** An audio element that was created and started. *)
Inductive Playback : Set :=
| FromChunks (combined : Uint8Array) (audioType : string)
| FromMessage (audioBytes : Uint8Array).

(** The object held by [streamingAudioRef]. *)
Record Streaming : Set := mkStreaming {
  chunks : list Uint8Array;
  sessionId : option string;
  type_ : string;
}.

Record Page : Set := mkPage {
  transcription : string;
  jokeResponse : string;
  streamingAudioRef : option Streaming;
  started : list Playback;
}.

(** The parsed message. A text field that is missing reads as the empty
    string, which [data.x || ''] does not tell from a missing one; the
    base64 fields and the session id are [None] when undefined. *)
Record Message : Set := mkMessage {
  type : string;
  session_id : option string;
  text : string;
  joke : string;
  original_text : string;
  joke_message : string;
  joke_text : string;
  facial_joke : string;
  facial_joke_streaming : bool;
  facial_joke_audio : option string;
  audio_data : option string;
  streaming : bool;
  chunk_data : option string;
}.

Definition setTranscription (t : string) (p : Page) : Page :=
  {| transcription := t;
     jokeResponse := jokeResponse p;
     streamingAudioRef := streamingAudioRef p;
     started := started p |}.

Definition setJokeResponse (j : string) (p : Page) : Page :=
  {| transcription := transcription p;
     jokeResponse := j;
     streamingAudioRef := streamingAudioRef p;
     started := started p |}.

Definition setStreaming (s : option Streaming) (p : Page) : Page :=
  {| transcription := transcription p;
     jokeResponse := jokeResponse p;
     streamingAudioRef := s;
     started := started p |}.

Definition play (a : Playback) (p : Page) : Page :=
  {| transcription := transcription p;
     jokeResponse := jokeResponse p;
     streamingAudioRef := streamingAudioRef p;
     started := (started p ++ [a])%list |}.

(** Truthiness of a string, and of a field that may be undefined. *)
Definition truthy (s : string) : bool := negb (s =? "").

Definition present (field : option string) : bool :=
  match field with
  | Some s => truthy s
  | None => false
  end.

(** The text [atob] is given: [undefined] is converted to a string. *)
Definition toStr (field : option string) : string := default "undefined" field.

(** [a === b] on session ids. *)
Definition same_session (a b : option string) : bool := bool_decide (a = b).

(** [playStreamingAudio(chunks, audioType)]: a RangeError in the combining
    loop would be caught and nothing started. *)
Definition playStreamingAudio (cs : list Uint8Array) (audioType : string) (p : Page)
  : Page :=
  match combine cs with
  | Some combinedArray => play (FromChunks combinedArray audioType) p
  | None => p
  end.

Section OnMessage.
Variable atob : string -> option Uint8Array.

(** The [try] blocks that decode a whole audio and start it. *)
Definition playDecoded (field : option string) (p : Page) : Page :=
  match atob (toStr field) with
  | Some audioBytes => play (FromMessage audioBytes) p
  | None => p
  end.

(** [ws.onmessage], on the outcome of [JSON.parse(event.data)] ([None] when
    it throws); the branches are tested in the order of the source. *)
Definition onmessage (p : Page) (parsed : option Message) : Page :=
  match parsed with
  | None => p
  | Some data =>
      if type data =? "transcription" then
        setTranscription (text data) p
      else if type data =? "joke_response" then
        setTranscription (original_text data) (setJokeResponse (joke data) p)
      else if type data =? "music_response" then
        setTranscription (original_text data) (setJokeResponse (joke_message data) p)
      else if type data =? "joke_tts_failed" then
        setJokeResponse (joke_text data) p
      else if type data =? "expression_result" then
        let p1 :=
          if truthy (facial_joke data) then
            let p' := setJokeResponse (facial_joke data) p in
            if facial_joke_streaming data
            then setStreaming (Some {| chunks := [];
                                       sessionId := session_id data;
                                       type_ := "facial_joke" |}) p'
            else p'
          else p in
        if present (facial_joke_audio data) && negb (facial_joke_streaming data)
        then playDecoded (facial_joke_audio data) p1
        else p1
      else if ((type data =? "joke_audio") || (type data =? "music_audio"))
              && present (audio_data data) then
        playDecoded (audio_data data) p
      else if (type data =? "joke_response") && streaming data then
        setStreaming (Some {| chunks := [];
                              sessionId := session_id data;
                              type_ := "joke" |})
          (setTranscription (original_text data) (setJokeResponse (joke_text data) p))
      else if (type data =? "joke_audio_chunk")
              || (type data =? "facial_joke_audio_chunk") then
        match streamingAudioRef p with
        | Some st =>
            if same_session (sessionId st) (session_id data) then
              match atob (toStr (chunk_data data)) with
              | Some chunkBytes =>
                  setStreaming (Some {| chunks := (chunks st ++ [chunkBytes])%list;
                                        sessionId := sessionId st;
                                        type_ := type_ st |}) p
              | None => p
              end
            else p
        | None =>
            setStreaming (Some {| chunks := [];
                                  sessionId := session_id data;
                                  type_ := "joke" |}) p
        end
      else if (type data =? "joke_audio_end")
              || (type data =? "facial_joke_audio_end") then
        match streamingAudioRef p with
        | Some st =>
            if same_session (sessionId st) (session_id data)
            then setStreaming None (playStreamingAudio (chunks st) (type_ st) p)
            else p
        | None => p
        end
      else p
  end.

(** Messages as they arrive, all of them parsed. *)
Definition receive (p : Page) (messages : list Message) : Page :=
  foldl onmessage p (Some <$> messages).

(** The chunks of a run of messages that [atob] decodes. *)
Definition decoded (messages : list Message) : list Uint8Array :=
  omap (fun data => atob (toStr (chunk_data data))) messages.

End OnMessage.

End page.

(** * Vocabulary of the statements *)

Section TransportVocabulary.
Import AudioStreamingService.

(** The callbacks an event has, none when the event is unknown. *)
Definition registered (event : string) (s : Service) : list Callback :=
  default [] (listeners s !! event).

(** The calls [emit] makes when it reaches every callback of [cbs]. *)
Definition calls_of {Payload : Type} (cbs : list Callback) (payload : Payload)
  : list (Callback * Payload) :=
  map (fun cb => (cb, payload)) cbs.

(** The last [maxChunksInMemory] elements of a list. *)
Definition most_recent (l : list AudioChunk) : list AudioChunk :=
  drop (length l - AUDIO_CONFIG.chunking.maxChunksInMemory) l.

(** The [k]-th chunk (from 0) of a simulation, built at time [t]. *)
Definition simulated_chunk (k : nat) (t : Z) : AudioChunk :=
  {| data := mockM4AHeader;
     index := Z.of_nat k;
     timestamp := t;
     duration := AUDIO_CONFIG.chunking.chunkDurationMs;
     format := "m4a" |}.

(** No subscriber of 'incoming_audio_chunk' throws, whatever the chunk. *)
Definition subscribers_return
  (behaviour : AudioStreamingService.Callback -> AudioChunk -> Completion)
  (s : AudioStreamingService.Service) : Prop :=
  Forall (fun cb => forall c, behaviour cb c = Normal)
         (registered "incoming_audio_chunk" s).

End TransportVocabulary.

Section PlaybackVocabulary.
Import useAudioPlayback.

(** Everything [stopPlayback] is meant to leave behind. *)
Definition stopped (h : Hook) : Prop :=
  audioQueueRef h = [] /\
  soundRef h = None /\
  bufferedChunks h = 0 /\
  isPlaying h = false /\
  isProcessingRef h = false /\
  playbackState h = IDLE.

(** The state while the first chunks are only being collected. *)
Definition collecting (cs : list AudioChunk) : System :=
  {| hook := setBufferedChunks (length cs) (setAudioQueueRef cs initial);
     tasks := [] |}.

(** The state a drain loop is in when it has just begun to play [c0] with
    [rest] behind it, from mount. *)
Definition draining (c0 : AudioChunk) (rest : list AudioChunk) : System :=
  {| hook := perform (WriteFile c0) (perform (PlayCalled c0)
               (setBufferedChunks (length rest)
                  (setAudioQueueRef rest
                     (setPlaybackState PLAYING (setIsProcessingRef true initial)))));
     tasks := [mkTask mount_render (AwaitWrite c0)] |}.

(** The chunk in the hands of a suspended loop, if it is inside
    [playAudioChunk]. *)
Definition in_hand (next : option DrainPoint) : list AudioChunk :=
  match next with
  | Some p => option_list (chunk_of p)
  | None => []
  end.

(** What holds between the chunks that arrived and the state: the chunks
    played to their return ([done]), the one being played, and the queue
    make up the arrivals in their order; the log shows the first played one
    after the other and the entry of the one in hand; and a loop, one that
    the subscribed handler started, is suspended exactly when the processing
    flag is set. *)
Definition in_arrival_order (arrived : list AudioChunk) (s : System) : Prop :=
  exists done next,
    tasks s = option_list (mkTask mount_render <$> next) /\
    isProcessingRef (hook s) = bool_decide (is_Some next) /\
    arrived = done ++ in_hand next ++ audioQueueRef (hook s) /\
    play_events (effects (hook s)) = one_by_one done ++ map PlayCalled (in_hand next).

End PlaybackVocabulary.

Section RecordingVocabulary.
Import useAudioRecording.

(** A chunk recording that is finalized and whose file can be read. *)
Definition emits (io : ChunkIO) : bool :=
  finalized io && match readAsStringAsync io with Resolved _ => true | Rejected _ => false end.

End RecordingVocabulary.

Section TransportInvariants.
Import AudioStreamingService.

(** What every call keeps. *)
Definition steady (s : Service) : Prop :=
  connectionState s = CONNECTED /\
  simulationInterval s = None /\
  length (chunkBuffer s) <= AUDIO_CONFIG.chunking.maxChunksInMemory.

(** Interval [id] is the one the service remembers, or it is gone. *)
Definition tracked (id : TimerId) (w : World) : Prop :=
  simulationInterval (service w) = Some id \/
  (simulationInterval (service w) = None /\ intervals w !! id = None).

End TransportInvariants.

Section PlaybackInvariantsVocabulary.
Import useAudioPlayback.

(** The count shown to the user is the length of the queue. *)
Definition counted (h : Hook) : Prop :=
  bufferedChunks h = length (audioQueueRef h).

(** The state shown is [PLAYING] exactly while a loop runs, and the playing
    flag is only up while one does. *)
Definition flags_agree (h : Hook) : Prop :=
  playbackState h = (if isProcessingRef h then PLAYING else IDLE) /\
  (isPlaying h = true -> isProcessingRef h = true).

(** The volumes [adjustVolume] lets through: the numbers of [[0,1]], and NaN. *)
Definition let_through (v : JsNumber) : bool :=
  negb (js_lt v (Finite 0) || js_gt v (Finite 1)).

End PlaybackInvariantsVocabulary.

Section MountVocabulary.
Import useAudioPlayback useAudioPlayback_rest.

(** The hook after a mount whose [initializeAudio] failed with [e], with the
    chunks [cs] collected since and no loop started. *)
Definition failed_mount (e : JsError) (cs : list AudioChunk) : System :=
  {| hook := setBufferedChunks (length cs)
               (setAudioQueueRef cs (initializeAudio (Rejected e) initial));
     tasks := [] |}.

(** A sound that is created is created with volume [v]. *)
Definition created_with (v : JsNumber) (e : Effect) : Prop :=
  match e with
  | CreateSound _ vol => vol = v
  | _ => True
  end.

(** The resume control. *)
Definition is_resume (a : Action) : bool :=
  match a with
  | Continue _ => true
  | _ => false
  end.

End MountVocabulary.

Section ProgramVocabulary.
Import AudioStreamingService useAudioRecording useAudioRecording_rest.

(** What every input keeps from mount on: no recorder, no chunk timeout,
    nothing handed to the transport, both counters at zero. *)
Definition nothing_recorded (svc : Service) (p : Program) : Prop :=
  chunkTimeouts p = [] /\
  recordingRef (capture p) = None /\
  handed p = [] /\
  transport p = svc /\
  chunkCountRef (hook (capture p)) = 0 /\
  chunksRecorded (hook (capture p)) = 0.

End ProgramVocabulary.

Section ClockVocabulary.
Import useAudioRecording useAudioRecording_rest.

(** For one duration: the text has five characters and reads back as the
    duration. *)
Definition clock_ok (n : nat) : bool :=
  (String.length (formatDuration (Z.of_nat n)) =? 5)
  && match readClock (formatDuration (Z.of_nat n)) with
     | Some z => (z =? Z.of_nat n)%Z
     | None => false
     end.

End ClockVocabulary.

Section StreamingVocabulary.
Import page.
Local Open Scope string_scope.

(** A chunk message of the session [sid]. *)
Definition chunk_message (sid : option string) (data : Message) : Prop :=
  (type data = "joke_audio_chunk" \/ type data = "facial_joke_audio_chunk") /\
  session_id data = sid.

(** An end-of-stream message of the session [sid]. *)
Definition end_message (sid : option string) (data : Message) : Prop :=
  (type data = "joke_audio_end" \/ type data = "facial_joke_audio_end") /\
  session_id data = sid.

(** A chunk or end-of-stream message of another session than [sid]. *)
Definition foreign_message (sid : option string) (data : Message) : Prop :=
  (type data = "joke_audio_chunk" \/ type data = "facial_joke_audio_chunk" \/
   type data = "joke_audio_end" \/ type data = "facial_joke_audio_end") /\
  session_id data <> sid.

End StreamingVocabulary.

(** * Inputs for the witnesses and counterexamples *)

(** Callback 2 throws whatever it is called with; the others return. *)
Definition second_throws (cb : AudioStreamingService.Callback) (payload : nat)
  : Completion :=
  if decide (cb = 2) then Throw (Err "handler failed") else Normal.

(** A subscriber that always returns, and one that throws on the chunk with
    index 9 only. *)
Definition quiet_subscriber (cb : AudioStreamingService.Callback) (c : AudioChunk)
  : Completion := Normal.

Definition throws_on_index_9 (cb : AudioStreamingService.Callback) (c : AudioChunk)
  : Completion :=
  if decide (index c = 9%Z) then Throw (Err "subscriber failed") else Normal.

(** A fresh service with callback 1 subscribed and no interval running. *)
Definition one_subscriber : AudioStreamingService.World :=
  {| AudioStreamingService.service :=
       AudioStreamingService.on "incoming_audio_chunk" 1
         AudioStreamingService.constructor;
     AudioStreamingService.intervals := ∅;
     AudioStreamingService.emitted := [];
     AudioStreamingService.delivered := [] |}.

(** The times of twelve firings, half a second apart. *)
Definition twelve_firings : list Z :=
  [500; 1000; 1500; 2000; 2500; 3000; 3500; 4000; 4500; 5000; 5500; 6000]%Z.

(** Two chunks, for the examples. *)
Definition chunk_a : AudioChunk :=
  {| data := "AAAA"; index := 7; timestamp := 1000; duration := 500; format := "m4a" |}.
Definition chunk_b : AudioChunk :=
  {| data := "BBBB"; index := 3; timestamp := 1500; duration := 500; format := "m4a" |}.

(** A hook in the middle of a drain: sound 4 loaded, two chunks queued. *)
Definition mid_drain : useAudioPlayback.Hook :=
  {| useAudioPlayback.isPlaying := true;
     useAudioPlayback.playbackState := PLAYING;
     useAudioPlayback.error := None;
     useAudioPlayback.volume := Finite 1;
     useAudioPlayback.bufferedChunks := 2;
     useAudioPlayback.soundRef := Some 4;
     useAudioPlayback.audioQueueRef := [chunk_a; chunk_b];
     useAudioPlayback.isProcessingRef := true;
     useAudioPlayback.effects := [] |}.

(** What happens to the mounted hook up to the arrival that shows the stale
    playing flag: five chunks arrive and the loop begins to write the first;
    the pause control is used while that write is pending (no sound is held
    yet, so it only lowers the flags); the first chunk is then written,
    created as sound 1, played, unloaded and deleted, and after the delay
    the loop takes the second chunk. Every platform call resolves. *)
Definition paused_while_writing : list useAudioPlayback_rest.Action :=
  map (fun c => useAudioPlayback_rest.Deliver (useAudioPlayback.Arrive c))
      [chunk_a; chunk_b; chunk_a; chunk_b; chunk_a]
  ++ [useAudioPlayback_rest.Pause (Resolved ())]
  ++ map (fun r => useAudioPlayback_rest.Deliver (useAudioPlayback.Wake 0 r))
         (useAudioPlayback.resumptions (useAudioPlayback.PlaysThrough 1)).

(** A hook before any recording, and a chunk recording that goes well. *)
Definition not_recording : useAudioRecording.Hook :=
  {| useAudioRecording.isRecording := false;
     useAudioRecording.recordingState := IDLE;
     useAudioRecording.error := None;
     useAudioRecording.duration := 0;
     useAudioRecording.chunksRecorded := 0;
     useAudioRecording.startTimeRef := None;
     useAudioRecording.chunkCountRef := 0 |}.

Definition recorded (t : Z) : useAudioRecording.ChunkIO :=
  {| useAudioRecording.stopAndUnloadAsync := Resolved ();
     useAudioRecording.getURI := Some "file:///cache/rec.m4a"%string;
     useAudioRecording.readAsStringAsync := Resolved "AAAA"%string;
     useAudioRecording.deleteAsync := Resolved ();
     useAudioRecording.dateNow := t |}.

(** A decoder for the examples of the streamed-audio path: it takes a text
    for its own bytes and refuses the text of [undefined]. *)
Definition bytes_of_text (s : string) : option page.Uint8Array :=
  if (s =? "undefined")%string then None else Some (String.list_byte_of_string s).

(** A message with a type, a session id and a chunk, every other field
    missing. *)
Definition message (type : string) (sid : string) (chunk : option string)
  : page.Message :=
  {| page.type := type;
     page.session_id := Some sid;
     page.text := "";
     page.joke := "";
     page.original_text := "";
     page.joke_message := "";
     page.joke_text := "";
     page.facial_joke := "";
     page.facial_joke_streaming := false;
     page.facial_joke_audio := None;
     page.audio_data := None;
     page.streaming := true;
     page.chunk_data := chunk |}.

(** The announcement of a streamed facial joke. *)
Definition facial_announcement (sid : string) : page.Message :=
  {| page.type := "expression_result";
     page.session_id := Some sid;
     page.text := "";
     page.joke := "";
     page.original_text := "";
     page.joke_message := "";
     page.joke_text := "";
     page.facial_joke := "Why the long face?";
     page.facial_joke_streaming := true;
     page.facial_joke_audio := None;
     page.audio_data := None;
     page.streaming := false;
     page.chunk_data := None |}.

(** The page before any message. *)
Definition fresh_page : page.Page :=
  {| page.transcription := "";
     page.jokeResponse := "";
     page.streamingAudioRef := None;
     page.started := [] |}.

(** A page that is collecting the chunks of session s1 and holds one. *)
Definition collecting_page : page.Page :=
  {| page.transcription := "";
     page.jokeResponse := "";
     page.streamingAudioRef :=
       Some {| page.chunks := [String.list_byte_of_string "ab"];
               page.sessionId := Some "s1"%string;
               page.type_ := "joke" |};
     page.started := [] |}.

(** * Theorems *)

(** ** Transport: subscription and emit *)

Section TransportFacts.
Import AudioStreamingService.

Lemma registered_on event cb s :
  registered event (on event cb s) = registered event s ++ [cb].
Proof.
  unfold registered, on; simpl.
  destruct (decide (is_Some (listeners s !! event))) as [[l Hl]|Hno].
  - rewrite lookup_alter_eq, Hl. reflexivity.
  - rewrite lookup_alter_eq, lookup_insert_eq.
    destruct (listeners s !! event) eqn:E; [|reflexivity].
    exfalso. apply Hno. eauto.
Qed.

Lemma registered_onAll event cbs s :
  registered event (onAll event cbs s) = registered event s ++ cbs.
Proof.
  revert s. induction cbs as [|cb cbs IH]; intros s.
  - simpl. by rewrite app_nil_r.
  - unfold onAll in *. simpl. rewrite IH, registered_on.
    by rewrite <- app_assoc.
Qed.

Context {Payload : Type}.
Variable behaviour : Callback -> Payload -> Completion.

Lemma forEach_all_return cbs payload :
  Forall (fun cb => behaviour cb payload = Normal) cbs ->
  forEach behaviour cbs payload = (calls_of cbs payload, Normal).
Proof.
  induction 1 as [|cb cbs Hcb _ IH]; simpl; [reflexivity|].
  by rewrite Hcb, IH.
Qed.

Lemma forEach_stops_at_throw pre cb post payload e :
  Forall (fun c => behaviour c payload = Normal) pre ->
  behaviour cb payload = Throw e ->
  forEach behaviour (pre ++ cb :: post) payload
  = (calls_of (pre ++ [cb]) payload, Throw e).
Proof.
  intros Hpre Hcb. induction Hpre as [|c pre Hc _ IH]; simpl.
  - by rewrite Hcb.
  - by rewrite Hc, IH.
Qed.

Lemma emit_forEach event payload s :
  emit behaviour event payload s = forEach behaviour (registered event s) payload.
Proof.
  unfold emit, registered. by destruct (listeners s !! event).
Qed.

End TransportFacts.

(** C1, as amended. Callbacks subscribed with [on] are kept in the order of
    subscription. [emit] calls them in that order with the payload for as long
    as they return: when none throws, all of them are called; when one throws,
    the callbacks before it and the thrower itself are the only ones called,
    and [emit] itself completes with that exception. *)
Theorem emit_calls_in_order_until_a_throw
  {Payload : Type}
  (behaviour : AudioStreamingService.Callback -> Payload -> Completion)
  (event : string) (payload : Payload) (s : AudioStreamingService.Service) :
  (forall cbs,
      registered event (AudioStreamingService.onAll event cbs s)
      = registered event s ++ cbs) /\
  (Forall (fun cb => behaviour cb payload = Normal) (registered event s) ->
   AudioStreamingService.emit behaviour event payload s
   = (calls_of (registered event s) payload, Normal)) /\
  (forall pre cb post e,
      registered event s = pre ++ cb :: post ->
      Forall (fun c => behaviour c payload = Normal) pre ->
      behaviour cb payload = Throw e ->
      AudioStreamingService.emit behaviour event payload s
      = (calls_of (pre ++ [cb]) payload, Throw e)).
Proof.
  split; [|split].
  - intros cbs. apply registered_onAll.
  - intros Hall. rewrite emit_forEach. by apply forEach_all_return.
  - intros pre cb post e Hreg Hpre Hcb.
    rewrite emit_forEach, Hreg. by apply forEach_stops_at_throw.
Qed.

Lemma emit_calls_in_order_until_a_throw_witness :
  let s := AudioStreamingService.onAll "incoming_audio_chunk" [1; 2; 3]
             AudioStreamingService.constructor in
  registered "incoming_audio_chunk" s = [1; 2; 3] /\
  AudioStreamingService.emit second_throws "incoming_audio_chunk" 7 s
  = ([(1, 7); (2, 7)], Throw (Err "handler failed")) /\
  AudioStreamingService.emit second_throws "chunk_played" 7 s = ([], Normal).
Proof.
  intros s.
  destruct (emit_calls_in_order_until_a_throw second_throws
              "incoming_audio_chunk" 7 AudioStreamingService.constructor)
    as (Hreg & _ & _).
  destruct (emit_calls_in_order_until_a_throw second_throws
              "incoming_audio_chunk" 7 s) as (_ & _ & Hthrow).
  destruct (emit_calls_in_order_until_a_throw second_throws
              "chunk_played" 7 s) as (_ & Hall & _).
  assert (Hs : registered "incoming_audio_chunk" s = [1; 2; 3]).
  { unfold s. rewrite (Hreg [1; 2; 3]). reflexivity. }
  split; [exact Hs|]. split.
  - apply (Hthrow [1] 2 [3] (Err "handler failed")).
    + exact Hs.
    + repeat constructor.
    + reflexivity.
  - apply Hall. vm_compute. constructor.
Defined.

(** C1, as stated, fails: with callbacks 1, 2 and 3 subscribed in that order
    and callback 2 throwing, [emit] never calls callback 3. *)
Lemma emit_isolation_counterexample :
  let s := AudioStreamingService.on "incoming_audio_chunk" 3
             (AudioStreamingService.on "incoming_audio_chunk" 2
                (AudioStreamingService.on "incoming_audio_chunk" 1
                   AudioStreamingService.constructor)) in
  registered "incoming_audio_chunk" s = [1; 2; 3] /\
  (AudioStreamingService.emit second_throws "incoming_audio_chunk" 7 s).1
  = [(1, 7); (2, 7)] /\
  (3, 7) ∉ (AudioStreamingService.emit second_throws "incoming_audio_chunk" 7 s).1.
Proof.
  vm_compute. split; [reflexivity|]. split; [reflexivity|].
  intros H. repeat (apply elem_of_cons in H as [H|H]; [discriminate H|]).
  by apply elem_of_nil in H.
Qed.

(** ** Transport: the retained buffer *)

Section RetainedBuffer.
Import AudioStreamingService.

Let cap := AUDIO_CONFIG.chunking.maxChunksInMemory.

Lemma sendAudioChunk_buffer c s :
  length (chunkBuffer s) <= cap ->
  chunkBuffer (sendAudioChunk c s) = most_recent (chunkBuffer s ++ [c]).
Proof.
  intros Hlen. unfold sendAudioChunk, most_recent; simpl.
  rewrite length_app; simpl. fold cap.
  destruct (decide (cap < length (chunkBuffer s) + 1)) as [Hover|Hfits].
  - replace (length (chunkBuffer s) + 1 - cap) with 1 by lia. reflexivity.
  - replace (length (chunkBuffer s) + 1 - cap) with 0 by lia. reflexivity.
Qed.

Lemma most_recent_length l : length (most_recent l) <= cap.
Proof. unfold most_recent. rewrite length_drop. fold cap. lia. Qed.

Lemma most_recent_snoc l c :
  most_recent (most_recent l ++ [c]) = most_recent (l ++ [c]).
Proof.
  unfold most_recent. fold cap.
  rewrite !length_app, length_drop; simpl.
  destruct (decide (length l <= cap)) as [Hle|Hgt].
  - replace (length l - cap) with 0 by lia. rewrite drop_0.
    by replace (length l - 0) with (length l) by lia.
  - rewrite <- (drop_app_le l [c] (length l - cap)) by lia.
    rewrite drop_drop. f_equal. lia.
Qed.

Lemma sendAll_buffer cs s :
  length (chunkBuffer s) <= cap ->
  chunkBuffer (sendAll cs s) = most_recent (chunkBuffer s ++ cs).
Proof.
  revert s. induction cs as [|c cs IH] using rev_ind; intros s Hlen.
  - simpl. rewrite app_nil_r. unfold most_recent. fold cap.
    replace (length (chunkBuffer s) - cap) with 0 by lia. by rewrite drop_0.
  - unfold sendAll in *. rewrite foldl_snoc.
    rewrite sendAudioChunk_buffer.
    + rewrite IH by exact Hlen. rewrite most_recent_snoc. by rewrite app_assoc.
    + rewrite IH by exact Hlen. apply most_recent_length.
Qed.
End RetainedBuffer.

(** C6. After any run of [sendAudioChunk] calls on a fresh service the
    retained buffer holds at most [maxChunksInMemory] = 20 chunks; it is the
    list of the chunks sent with all but the last 20 dropped from the front,
    in the order they were sent; one more send on a full buffer drops its
    oldest chunk; and [getBufferedChunks] reports the smaller of 20 and the
    number of chunks sent. *)
Theorem retained_buffer_keeps_most_recent (sent : list AudioChunk) (next : AudioChunk) :
  let s := AudioStreamingService.sendAll sent AudioStreamingService.constructor in
  AUDIO_CONFIG.chunking.maxChunksInMemory = 20 /\
  length (AudioStreamingService.chunkBuffer s) <= 20 /\
  AudioStreamingService.chunkBuffer s = drop (length sent - 20) sent /\
  AudioStreamingService.getBufferedChunks s = min (length sent) 20 /\
  AudioStreamingService.chunkBuffer (AudioStreamingService.sendAudioChunk next s)
  = (if decide (20 <= length sent)
     then drop 1 (AudioStreamingService.chunkBuffer s)
     else AudioStreamingService.chunkBuffer s) ++ [next].
Proof.
  intros s.
  assert (Hbuf : AudioStreamingService.chunkBuffer s = most_recent sent).
  { unfold s. rewrite sendAll_buffer by (simpl; lia). reflexivity. }
  assert (Hlen : length (AudioStreamingService.chunkBuffer s) = min (length sent) 20).
  { rewrite Hbuf. unfold most_recent. rewrite length_drop.
    change AUDIO_CONFIG.chunking.maxChunksInMemory with 20. lia. }
  split; [reflexivity|]. split; [lia|]. split; [exact Hbuf|]. split; [exact Hlen|].
  unfold AudioStreamingService.sendAudioChunk; simpl.
  rewrite length_app, Hlen; simpl.
  change AUDIO_CONFIG.chunking.maxChunksInMemory with 20.
  destruct (decide (20 <= length sent)) as [Hfull|Hroom].
  - destruct (decide (20 < min (length sent) 20 + 1)) as [_|Hno]; [|lia].
    destruct (AudioStreamingService.chunkBuffer s) as [|c0 b] eqn:E.
    + simpl in Hlen. lia.
    + reflexivity.
  - destruct (decide (20 < min (length sent) 20 + 1)) as [Hyes|_]; [lia|].
    reflexivity.
Qed.

(** ** Transport: simulation mode *)

Section SimulationFacts.
Import AudioStreamingService.
Variable behaviour : Callback -> AudioChunk -> Completion.

Lemma fire_cons t times id w :
  fire behaviour (t :: times) id w
  = fire behaviour times id (simulationTick behaviour t id w).
Proof. reflexivity. Qed.

Lemma fire_cleared times id : forall w,
  intervals w !! id = None -> fire behaviour times id w = w.
Proof.
  induction times as [|t times IH]; intros w Hnone; [reflexivity|].
  rewrite fire_cons. unfold simulationTick. rewrite Hnone. by apply IH.
Qed.

Lemma emit_returns s c :
  subscribers_return behaviour s ->
  emit behaviour "incoming_audio_chunk" c s
  = (calls_of (registered "incoming_audio_chunk" s) c, Normal).
Proof.
  intros Hret. rewrite emit_forEach. apply forEach_all_return.
  eapply Forall_impl; [exact Hret|]. intros cb Hcb. apply Hcb.
Qed.

(** From a state where interval [id] is the service's simulation and has
    counted [k < 10] chunks: the firings emit one chunk each, numbered from
    [k], until the tenth chunk is out, and then the interval is gone. *)
Lemma fire_counts times : forall id w k,
  subscribers_return behaviour (service w) ->
  simulationInterval (service w) = Some id ->
  intervals w !! id
  = Some {| period := AUDIO_CONFIG.chunking.chunkDurationMs; chunkIndex := k |} ->
  k < 10 ->
  let w' := fire behaviour times id w in
  emitted w' = emitted w
               ++ imap (fun j t => simulated_chunk (k + j) t) (take (10 - k) times) /\
  (10 - k <= length times ->
   simulationInterval (service w') = None /\ intervals w' !! id = None).
Proof.
  induction times as [|t times IH]; intros id w k Hret Hsim Hiv Hk.
  - simpl. rewrite take_nil, app_nil_r. split; [reflexivity|]. intros Hn. lia.
  - cbv zeta. rewrite fire_cons. unfold simulationTick. rewrite Hiv.
    rewrite (emit_returns _ _ Hret). cbn [chunkIndex period].
    destruct (decide (10 <= S k)) as [Hlast|Hmore].
    + assert (k = 9) by lia. subst k.
      rewrite fire_cleared.
      2:{ simpl. rewrite Hsim. simpl. apply lookup_delete_eq. }
      simpl. rewrite Hsim. simpl.
      repeat split; try reflexivity. apply lookup_delete_eq.
    + match goal with |- context [fire behaviour times id ?w1] =>
        specialize (IH id w1 (S k)) end.
      simpl in IH. destruct IH as (Hem & Hstop).
      * exact Hret.
      * exact Hsim.
      * by rewrite lookup_insert_eq.
      * lia.
      * split.
        -- rewrite Hem, <- app_assoc. f_equal.
           replace (10 - k) with (S (10 - S k)) by lia.
           rewrite firstn_cons, imap_cons. simpl.
           rewrite Nat.add_0_r. f_equal.
           apply imap_ext. intros j x _. simpl. f_equal. lia.
        -- intros Hn. apply Hstop. simpl in Hn. lia.
Qed.

Lemma simulate_installs w :
  let w0 := simulateIncomingAudioChunks w in
  let id := fresh (dom (clearInterval (simulationInterval (service w)) (intervals w))) in
  simulationInterval (service w0) = Some id /\
  listeners (service w0) = listeners (service w) /\
  emitted w0 = emitted w /\
  intervals w0 !! id
  = Some {| period := AUDIO_CONFIG.chunking.chunkDurationMs; chunkIndex := 0 |}.
Proof.
  unfold simulateIncomingAudioChunks.
  destruct (simulationInterval (service w)) as [old|]; simpl;
    rewrite lookup_insert_eq; repeat split; reflexivity.
Qed.
End SimulationFacts.

(** C8, as amended. When no subscriber of 'incoming_audio_chunk' throws, a
    simulation installs one interval whose period is [chunkDurationMs] =
    500 ms; each firing of it emits one synthetic chunk, the chunks carrying
    index 0, 1, 2, ... in the order of the firings; after the tenth firing
    the interval is cleared, so that however many firings are attempted
    exactly the first ten emit a chunk, with indices 0 to 9. *)
Theorem simulation_emits_ten_chunks
  (behaviour : AudioStreamingService.Callback -> AudioChunk -> Completion)
  (w : AudioStreamingService.World) (times : list Z) :
  subscribers_return behaviour (AudioStreamingService.service w) ->
  let w0 := AudioStreamingService.simulateIncomingAudioChunks w in
  exists id,
    AudioStreamingService.simulationInterval (AudioStreamingService.service w0) = Some id /\
    AudioStreamingService.intervals w0 !! id
    = Some {| AudioStreamingService.period := 500;
              AudioStreamingService.chunkIndex := 0 |} /\
    let w' := AudioStreamingService.fire behaviour times id w0 in
    AudioStreamingService.emitted w'
    = AudioStreamingService.emitted w ++ imap simulated_chunk (take 10 times) /\
    (10 <= length times ->
     AudioStreamingService.simulationInterval (AudioStreamingService.service w') = None /\
     AudioStreamingService.intervals w' !! id = None).
Proof.
  intros Hret w0.
  pose proof (simulate_installs w) as Hinst. cbv zeta in Hinst.
  fold w0 in Hinst. set (id := fresh _) in Hinst.
  destruct Hinst as (Hsim & Hls & Hem & Hiv).
  exists id. split; [exact Hsim|]. split; [exact Hiv|].
  intros w'.
  destruct (fire_counts behaviour times id w0 0) as (Hout & Hstop).
  - unfold subscribers_return, registered in *. rewrite Hls. exact Hret.
  - exact Hsim.
  - exact Hiv.
  - lia.
  - subst w'. split.
    + rewrite Hout, Hem. reflexivity.
    + intros Hn. apply Hstop. lia.
Qed.

Lemma simulation_emits_ten_chunks_witness :
  subscribers_return quiet_subscriber (AudioStreamingService.service one_subscriber) /\
  exists id,
    AudioStreamingService.simulationInterval
      (AudioStreamingService.service
         (AudioStreamingService.simulateIncomingAudioChunks one_subscriber)) = Some id /\
    map index
        (AudioStreamingService.emitted
           (AudioStreamingService.fire quiet_subscriber twelve_firings id
              (AudioStreamingService.simulateIncomingAudioChunks one_subscriber)))
    = [0; 1; 2; 3; 4; 5; 6; 7; 8; 9]%Z.
Proof.
  assert (Hret : subscribers_return quiet_subscriber
                   (AudioStreamingService.service one_subscriber)).
  { vm_compute. constructor; [intros c; reflexivity|constructor]. }
  split; [exact Hret|].
  destruct (simulation_emits_ten_chunks quiet_subscriber one_subscriber
              twelve_firings Hret)
    as (id & Hsim & _ & Hem & _).
  exists id. split; [exact Hsim|]. rewrite Hem. reflexivity.
Defined.

(** C8, as stated, fails: with a subscriber that throws on the chunk of index
    9, the tenth firing leaves the callback before the test that clears the
    interval, and the eleventh firing emits an eleventh chunk, of index 10. *)
Lemma simulation_counterexample :
  let w0 := AudioStreamingService.simulateIncomingAudioChunks one_subscriber in
  exists id,
    AudioStreamingService.simulationInterval (AudioStreamingService.service w0) = Some id /\
    map index
        (AudioStreamingService.emitted
           (AudioStreamingService.fire throws_on_index_9 twelve_firings id w0))
    = [0; 1; 2; 3; 4; 5; 6; 7; 8; 9; 10]%Z /\
    length (AudioStreamingService.emitted
              (AudioStreamingService.fire throws_on_index_9 twelve_firings id w0)) <> 10.
Proof.
  eexists. split; [reflexivity|]. split.
  - vm_compute. reflexivity.
  - vm_compute. discriminate.
Qed.

(** ** Playback: stopPlayback *)

Section StopFacts.
Import useAudioPlayback.

(** When both platform calls resolve, [stopPlayback] leaves the state
    cleared whatever it was, and the sound that was held, if any, has been
    stopped and then unloaded. *)
Lemma stopPlayback_clears_when_calls_resolve h :
  let h' := stopPlayback (Resolved ()) (Resolved ()) h in
  stopped h' /\
  effects h' = effects h ++ match soundRef h with
                            | Some sound => [StopSound sound; UnloadSound sound]
                            | None => []
                            end.
Proof.
  unfold stopPlayback, stopped.
  destruct (soundRef h) as [sound|] eqn:Hs; simpl.
  - rewrite <- app_assoc. repeat split; reflexivity.
  - rewrite Hs, app_nil_r. repeat split; reflexivity.
Qed.

(** The unmount path clears the queue whether or not a sound is held and
    whatever becomes of the calls on it. *)
Lemma cleanup_clears_queue h :
  audioQueueRef (cleanup h) = [] /\ isProcessingRef (cleanup h) = false.
Proof. unfold cleanup. destruct (soundRef h); split; reflexivity. Qed.

(** A rejected [stopAsync] or [unloadAsync] leaves everything but the error
    and the effect log as it was. *)
Lemma stopPlayback_rejected h sound e r1 r2 :
  soundRef h = Some sound ->
  (r1 = Rejected e \/ (r1 = Resolved () /\ r2 = Rejected e)) ->
  let h' := stopPlayback r1 r2 h in
  audioQueueRef h' = audioQueueRef h /\
  soundRef h' = Some sound /\
  bufferedChunks h' = bufferedChunks h /\
  isPlaying h' = isPlaying h /\
  isProcessingRef h' = isProcessingRef h /\
  playbackState h' = playbackState h /\
  error h' = Some e.
Proof.
  intros Hsome [->|[-> ->]]; unfold stopPlayback; rewrite Hsome; simpl;
    repeat split; assumption || reflexivity.
Qed.
End StopFacts.

(** C2, the code at the failing input. When [stopAsync] on the held sound
    rejects, [stopPlayback] returns through its [catch]: the queue still
    holds both chunks, the sound is still referenced and was not unloaded,
    the buffered count still reads 2, the playing flag is still set and the
    state is still [PLAYING]. The unmount path [cleanup] does empty the queue
    from the same state. *)
Theorem stopPlayback_after_rejected_stop :
  let h' := useAudioPlayback.stopPlayback
              (Rejected (Err "sound is not loaded")) (Resolved ()) mid_drain in
  ~ stopped h' /\
  useAudioPlayback.audioQueueRef h' = [chunk_a; chunk_b] /\
  useAudioPlayback.soundRef h' = Some 4 /\
  useAudioPlayback.effects h' = [useAudioPlayback.StopSound 4] /\
  useAudioPlayback.bufferedChunks h' = 2 /\
  useAudioPlayback.isPlaying h' = true /\
  useAudioPlayback.playbackState h' = PLAYING /\
  useAudioPlayback.error h' = Some (Err "sound is not loaded") /\
  useAudioPlayback.audioQueueRef (useAudioPlayback.cleanup mid_drain) = [].
Proof.
  simpl. split.
  - intros (Hq & _). discriminate Hq.
  - repeat split; reflexivity.
Qed.

(** ** Playback: the buffering threshold *)

Section ThresholdFacts.
Import useAudioPlayback.
Local Arguments Nat.leb : simpl never.

Lemma run_snoc evs ev s : run (evs ++ [ev]) s = step (run evs s) ev.
Proof. unfold run. apply foldl_snoc. Qed.

Lemma run_app evs1 evs2 s : run (evs1 ++ evs2) s = run evs2 (run evs1 s).
Proof. unfold run. apply foldl_app. Qed.

Lemma arrivals_below_threshold cs :
  length cs < AUDIO_CONFIG.playback.bufferSize ->
  run (map Arrive cs) boot = collecting cs.
Proof.
  induction cs as [|c cs IH] using rev_ind; intros Hlen; [reflexivity|].
  rewrite length_app in Hlen. simpl in Hlen.
  rewrite map_app. simpl map. rewrite run_snoc, IH by lia.
  unfold step, collecting, handleIncomingAudioChunk. simpl.
  assert (Hno : (AUDIO_CONFIG.playback.bufferSize <=? length (cs ++ [c])) = false).
  { apply Nat.leb_gt. rewrite length_app. simpl. lia. }
  rewrite Hno. simpl. reflexivity.
Qed.

Lemma arrival_at_threshold c0 rest c :
  length (c0 :: rest ++ [c]) = AUDIO_CONFIG.playback.bufferSize ->
  step (collecting (c0 :: rest)) (Arrive c)
  = {| hook := perform (WriteFile c0) (perform (PlayCalled c0)
                 (setBufferedChunks (length (rest ++ [c]))
                    (setAudioQueueRef (rest ++ [c])
                       (setPlaybackState PLAYING (setIsProcessingRef true initial)))));
       tasks := [mkTask mount_render (AwaitWrite c0)] |}.
Proof.
  intros Hlen. unfold step, collecting, handleIncomingAudioChunk. simpl.
  assert (Hyes : (AUDIO_CONFIG.playback.bufferSize <=? S (length (rest ++ [c]))) = true).
  { apply Nat.leb_le. simpl in Hlen. lia. }
  rewrite Hyes. reflexivity.
Qed.

Lemma subscribed_arrival_starts c h p :
  (handleIncomingAudioChunk mount_render c h).2 = Some p ->
  isProcessingRef h = false /\
  AUDIO_CONFIG.playback.bufferSize <= length (audioQueueRef h ++ [c]).
Proof.
  unfold handleIncomingAudioChunk. simpl.
  destruct (isProcessingRef h); simpl; [discriminate|].
  rewrite orb_false_r.
  destruct (AUDIO_CONFIG.playback.bufferSize <=? length (audioQueueRef h ++ [c])) eqn:E;
    [|discriminate].
  intros _. split; [reflexivity|]. by apply Nat.leb_le.
Qed.

Lemma subscribed_arrival_below_threshold c h :
  length (audioQueueRef h ++ [c]) < AUDIO_CONFIG.playback.bufferSize ->
  handleIncomingAudioChunk mount_render c h
  = (setBufferedChunks (length (audioQueueRef h ++ [c]))
       (setAudioQueueRef (audioQueueRef h ++ [c]) h), None).
Proof.
  intros Hlen. unfold handleIncomingAudioChunk. simpl.
  assert (Hno : (AUDIO_CONFIG.playback.bufferSize
                 <=? length (audioQueueRef h ++ [c])) = false)
    by (by apply Nat.leb_gt).
  rewrite Hno. simpl. by rewrite andb_false_r.
Qed.

Lemma arrival_in_playing_render render c h :
  render_isPlaying render = true ->
  isProcessingRef h = false ->
  exists c0 rest,
    audioQueueRef h ++ [c] = c0 :: rest /\
    (handleIncomingAudioChunk render c h).2 = Some (AwaitWrite c0) /\
    audioQueueRef (handleIncomingAudioChunk render c h).1 = rest.
Proof.
  intros Hplaying Hproc. unfold handleIncomingAudioChunk. simpl.
  rewrite Hplaying, Hproc. simpl.
  rewrite orb_true_r. unfold processAudioQueue. simpl. rewrite Hproc. simpl.
  destruct (audioQueueRef h ++ [c]) as [|c0 rest] eqn:Hq.
  - by destruct (audioQueueRef h).
  - simpl. exists c0, rest. repeat split; reflexivity.
Qed.
End ThresholdFacts.


(** ** Playback: adjustVolume *)

Section VolumeFacts.
Import useAudioPlayback.

(** Numbers below 0 or above 1, the infinities included, are turned away. *)
Lemma adjustVolume_out_of_range v r h :
  js_lt v (Finite 0) = true \/ js_gt v (Finite 1) = true ->
  adjustVolume v r h = h.
Proof.
  intros [Hlow|Hhigh]; unfold adjustVolume.
  - by rewrite Hlow.
  - rewrite Hhigh. by rewrite orb_true_r.
Qed.

Lemma below_zero q : (q < 0)%Q -> js_lt (Finite q) (Finite 0) = true.
Proof.
  intros Hq. simpl. apply negb_true_iff.
  destruct (Qle_bool 0 q) eqn:E; [|reflexivity].
  apply Qle_bool_iff in E. exfalso. by apply (Qlt_not_le q 0).
Qed.

Lemma above_one q : (1 < q)%Q -> js_gt (Finite q) (Finite 1) = true.
Proof.
  intros Hq. unfold js_gt. simpl. apply negb_true_iff.
  destruct (Qle_bool q 1) eqn:E; [|reflexivity].
  apply Qle_bool_iff in E. exfalso. by apply (Qlt_not_le 1 q).
Qed.

Lemma within_unit_interval v :
  in_unit_interval v ->
  js_lt v (Finite 0) || js_gt v (Finite 1) = false.
Proof.
  destruct v as [q| |]; simpl; try tauto.
  intros [H0 H1]. unfold js_gt. simpl.
  apply Qle_bool_iff in H0, H1. by rewrite H0, H1.
Qed.

(** A volume of [[0,1]] is stored, and set on the sound that is held. *)
Lemma adjustVolume_in_range v r h :
  in_unit_interval v ->
  let h' := adjustVolume v r h in
  volume h' = v /\
  effects h' = effects h ++ match soundRef h with
                            | Some sound => [SetVolume sound v]
                            | None => []
                            end /\
  audioQueueRef h' = audioQueueRef h /\
  soundRef h' = soundRef h /\
  isPlaying h' = isPlaying h /\
  playbackState h' = playbackState h.
Proof.
  intros Hin. unfold adjustVolume. rewrite (within_unit_interval v Hin). simpl.
  destruct (soundRef h) as [sound|] eqn:Hs; simpl.
  - destruct r; simpl; rewrite ?Hs; repeat split; reflexivity.
  - rewrite Hs, app_nil_r. repeat split; reflexivity.
Qed.

(** On a finite number [adjustVolume] does nothing outside [[0,1]], and
    inside it stores the number and sets it on the sound that is held. *)
Lemma adjustVolume_on_numbers q r h :
  let h' := adjustVolume (Finite q) r h in
  if Qle_bool 0 q && Qle_bool q 1
  then volume h' = Finite q /\
       effects h' = effects h ++ match soundRef h with
                                 | Some sound => [SetVolume sound (Finite q)]
                                 | None => []
                                 end /\
       audioQueueRef h' = audioQueueRef h
  else h' = h.
Proof.
  cbv zeta. destruct (Qle_bool 0 q) eqn:H0; destruct (Qle_bool q 1) eqn:H1; simpl.
  - destruct (adjustVolume_in_range (Finite q) r h) as (Hv & He & Hq & _).
    + simpl. split; by apply Qle_bool_iff.
    + repeat split; assumption.
  - apply adjustVolume_out_of_range. right. unfold js_gt. simpl. by rewrite H1.
  - apply adjustVolume_out_of_range. left. simpl. by rewrite H0.
  - apply adjustVolume_out_of_range. left. simpl. by rewrite H0.
Qed.
End VolumeFacts.

(** C7, the code at the failing input. NaN is not a member of [[0,1]], yet
    [adjustVolume(NaN)] passes the guard, because both comparisons with NaN
    are false: NaN replaces the stored volume and is set on the sound that is
    held. A number below 0 or above 1 is turned away. *)
Theorem adjustVolume_lets_NaN_through :
  let h' := useAudioPlayback.adjustVolume NaN (Resolved ()) mid_drain in
  ~ in_unit_interval NaN /\
  useAudioPlayback.volume mid_drain = Finite 1 /\
  useAudioPlayback.volume h' = NaN /\
  useAudioPlayback.effects h' = [useAudioPlayback.SetVolume 4 NaN] /\
  useAudioPlayback.adjustVolume (Finite (-1 # 10)) (Resolved ()) mid_drain = mid_drain /\
  useAudioPlayback.adjustVolume (Finite (11 # 10)) (Resolved ()) mid_drain = mid_drain.
Proof.
  simpl. split; [tauto|]. repeat split; reflexivity.
Qed.

(** ** Playback: the order of play *)

Section OrderFacts.
Import useAudioPlayback.
Local Arguments Nat.leb : simpl never.

Lemma play_events_app l1 l2 :
  play_events (l1 ++ l2) = play_events l1 ++ play_events l2.
Proof. unfold play_events. apply List.filter_app. Qed.

Lemma one_by_one_snoc cs c :
  one_by_one (cs ++ [c]) = one_by_one cs ++ [PlayCalled c; PlayReturned c].
Proof. unfold one_by_one. rewrite flat_map_app. simpl. reflexivity. Qed.

Lemma loop_in_order h arrived done :
  arrived = done ++ audioQueueRef h ->
  play_events (effects h) = one_by_one done ->
  let r := processAudioQueue_loop h in
  (r.2 = None -> isProcessingRef r.1 = false) /\
  (is_Some r.2 -> isProcessingRef r.1 = isProcessingRef h) /\
  arrived = done ++ in_hand r.2 ++ audioQueueRef r.1 /\
  play_events (effects r.1) = one_by_one done ++ map PlayCalled (in_hand r.2).
Proof.
  intros Harr Hlog. unfold processAudioQueue_loop.
  destruct (audioQueueRef h) as [|c0 rest] eqn:Hq; simpl.
  - rewrite Hq, Hlog, !app_nil_r. rewrite app_nil_r in Harr.
    repeat split; try reflexivity; try assumption.
    intros [? ?]. discriminate.
  - rewrite !play_events_app, Hlog. simpl. rewrite app_nil_r.
    repeat split; try reflexivity; try assumption. discriminate.
Qed.

Lemma resume_in_order render p r h h' next arrived done :
  processAudioQueue_resume render p r h = Some (h', next) ->
  isProcessingRef h = true ->
  arrived = done ++ in_hand (Some p) ++ audioQueueRef h ->
  play_events (effects h) = one_by_one done ++ map PlayCalled (in_hand (Some p)) ->
  exists done',
    isProcessingRef h' = bool_decide (is_Some next) /\
    arrived = done' ++ in_hand next ++ audioQueueRef h' /\
    play_events (effects h') = one_by_one done' ++ map PlayCalled (in_hand next).
Proof.
  intros Hres Hproc Harr Hlog.
  destruct p as [c|c|c sound|c sound|c sound|].
  6:{ (* the delay: the loop test *)
    destruct r; try discriminate Hres. simpl in Hres.
    injection Hres as Hr. simpl in Harr, Hlog. rewrite app_nil_r in Hlog.
    destruct (loop_in_order h arrived done Harr Hlog) as (Hnone & Hsome & Ha & Hl).
    rewrite Hr in Hnone, Hsome, Ha, Hl. simpl in *.
    exists done. split; [|split; assumption].
    destruct next as [p'|].
    - rewrite Hsome by eauto. exact Hproc.
    - by apply Hnone. }
  all: destruct r as [[[]|e]|[s|e]| |[[]|e]|[[]|e]|]; try discriminate Hres;
    simpl in Hres; injection Hres as <- <-; simpl in *;
    rewrite ?play_events_app; simpl; rewrite ?app_nil_r.
  all: first
    [ exists done; split; [assumption|]; split; assumption
    | exists (done ++ [c]); split; [assumption|]; split;
      [ rewrite Harr, <- app_assoc; reflexivity
      | rewrite Hlog, one_by_one_snoc, app_nil_r, <- !app_assoc; reflexivity ] ].
Qed.

Lemma step_in_order arrived s ev :
  in_arrival_order arrived s ->
  in_arrival_order (arrived ++ arrivals [ev]) (step s ev).
Proof.
  intros (done & next & Hts & Hproc & Harr & Hlog).
  destruct ev as [c|i r]; simpl.
  - (* a chunk arrives *)
    unfold handleIncomingAudioChunk. simpl. rewrite Hproc.
    destruct next as [p|]; simpl.
    + exists done, (Some p). simpl. rewrite Hts. simpl.
      repeat split; try assumption.
      rewrite Harr. simpl. by rewrite <- !app_assoc.
    + simpl in Harr, Hlog. rewrite app_nil_r in Hlog. rewrite orb_false_r.
      destruct (AUDIO_CONFIG.playback.bufferSize
                <=? length (audioQueueRef (hook s) ++ [c])) eqn:Hgo.
      * unfold processAudioQueue. simpl. rewrite Hproc. simpl.
        destruct (length (audioQueueRef (hook s) ++ [c]) =? 0) eqn:Hempty.
        { apply Nat.eqb_eq in Hempty. rewrite length_app in Hempty.
          simpl in Hempty. lia. }
        match goal with |- context [processAudioQueue_loop ?h0] =>
          destruct (loop_in_order h0 (arrived ++ [c]) done) as (Hnone & Hsome & Ha & Hl);
          [ simpl; rewrite Harr; by rewrite <- app_assoc
          | simpl; exact Hlog
          | destruct (processAudioQueue_loop h0) as [h1 started] eqn:Hloop ]
        end.
        simpl in *. exists done, started. rewrite Hts. simpl.
        split; [reflexivity|]. split; [|split; assumption].
        destruct started as [p'|]; [by rewrite Hsome by eauto|by apply Hnone].
      * exists done, None. simpl. rewrite Hts, !app_nil_r. simpl.
        repeat split; try assumption. by rewrite Harr, app_assoc.
  - (* a suspended loop is woken up *)
    rewrite app_nil_r.
    destruct next as [p|]; rewrite Hts; simpl.
    + destruct i as [|i]; simpl.
      2:{ exists done, (Some p). rewrite Hts. repeat split; assumption. }
      destruct (processAudioQueue_resume mount_render p r (hook s))
        as [[h' next']|] eqn:Hres.
      2:{ exists done, (Some p). rewrite Hts. repeat split; assumption. }
      destruct (resume_in_order mount_render p r (hook s) h' next' arrived done Hres)
        as (done' & Hproc' & Harr' & Hlog'); try assumption.
      destruct next' as [p'|]; simpl;
        [exists done', (Some p')|exists done', None]; repeat split; assumption.
    + exists done, None. rewrite Hts. repeat split; assumption.
Qed.

Lemma arrivals_app evs1 evs2 :
  arrivals (evs1 ++ evs2) = arrivals evs1 ++ arrivals evs2.
Proof. unfold arrivals. apply omap_app. Qed.

Lemma run_in_order evs :
  in_arrival_order (arrivals evs) (run evs boot).
Proof.
  induction evs as [|ev evs IH] using rev_ind.
  - exists [], None. repeat split; reflexivity.
  - rewrite run_snoc, arrivals_app. by apply step_in_order.
Qed.
End OrderFacts.

(** ** Playback: a drain carried to its end *)

Section DrainFacts.
Import useAudioPlayback.
Local Arguments Nat.leb : simpl never.

(** [playAudioChunk] never lets an exception out: its [catch] takes all. *)
Lemma playAudioChunk_never_raises render p r h h' ctl err :
  playAudioChunk_resume render p r h = Some (h', ctl) -> ctl <> Raise err.
Proof.
  unfold playAudioChunk_resume.
  destruct (playAudioChunk_try render p r h) as [[h1 [p'| |e]]|]; intros Heq;
    inversion Heq; discriminate.
Qed.

Lemma arrivals_beyond_threshold c0 rest more :
  S (length rest) = AUDIO_CONFIG.playback.bufferSize ->
  run (map Arrive (c0 :: rest ++ more)) boot = draining c0 (rest ++ more).
Proof.
  intros Hlen. induction more as [|c more IH] using rev_ind.
  - rewrite app_nil_r.
    destruct (exists_last (l := rest)) as (pre & c & ->).
    { intros ->. discriminate Hlen. }
    rewrite app_comm_cons, map_app. simpl map.
    change (Arrive c0 :: map Arrive pre) with (map Arrive (c0 :: pre)).
    rewrite run_snoc, arrivals_below_threshold.
    + apply arrival_at_threshold. simpl. rewrite length_app in *. simpl in *. lia.
    + simpl. rewrite length_app in Hlen. simpl in Hlen. lia.
  - rewrite app_assoc, app_comm_cons, map_app. simpl map.
    rewrite run_snoc. simpl map in IH. rewrite IH.
    unfold step, draining, handleIncomingAudioChunk. simpl.
    rewrite <- app_assoc. reflexivity.
Qed.

(** One script, from the write of chunk [c] to the loop test after the
    delay: the chunk's play returns, its failure if any is in the error
    cell, and the loop goes on to the next chunk if there is one. *)
Lemma script_plays_one render sc c h :
  let s := run (drain_events [sc])
             {| hook := h; tasks := [mkTask render (AwaitWrite c)] |} in
  tasks s = map (fun c' => mkTask render (AwaitWrite c')) (take 1 (audioQueueRef h)) /\
  audioQueueRef (hook s) = drop 1 (audioQueueRef h) /\
  play_events (effects (hook s))
  = play_events (effects h) ++ PlayReturned c :: map PlayCalled (take 1 (audioQueueRef h)) /\
  error (hook s) = match failure sc with Some e => Some e | None => error h end /\
  match audioQueueRef h with
  | [] => isProcessingRef (hook s) = false /\
          playbackState (hook s) = IDLE /\
          isPlaying (hook s) = false /\
          bufferedChunks (hook s) = bufferedChunks h
  | _ :: rest => isProcessingRef (hook s) = isProcessingRef h /\
                 playbackState (hook s) = playbackState h /\
                 bufferedChunks (hook s) = length rest
  end.
Proof.
  unfold drain_events, run.
  destruct sc; simpl; unfold processAudioQueue_loop; simpl;
    destruct (audioQueueRef h) as [|c' rest] eqn:Hq; simpl;
    rewrite ?Hq; simpl;
    rewrite ?play_events_app; simpl; rewrite ?app_nil_r, <- ?app_assoc;
    repeat split; reflexivity.
Qed.

Lemma drain_events_cons sc scripts :
  drain_events (sc :: scripts) = drain_events [sc] ++ drain_events scripts.
Proof.
  unfold drain_events. simpl. rewrite app_nil_r. by rewrite map_app.
Qed.

(** A script for the chunk in hand and one for every queued chunk carry the
    loop to its end: every chunk was played, one after the other in queue
    order, and the hook is idle with nothing queued. *)
Lemma drain_plays_queue render scripts : forall h c,
  length scripts = S (length (audioQueueRef h)) ->
  let s := run (drain_events scripts)
             {| hook := h; tasks := [mkTask render (AwaitWrite c)] |} in
  tasks s = [] /\
  audioQueueRef (hook s) = [] /\
  play_events (effects (hook s))
  = play_events (effects h) ++ PlayReturned c :: one_by_one (audioQueueRef h) /\
  isProcessingRef (hook s) = false /\
  playbackState (hook s) = IDLE /\
  isPlaying (hook s) = false /\
  (bufferedChunks h = length (audioQueueRef h) -> bufferedChunks (hook s) = 0).
Proof.
  induction scripts as [|sc scripts IH]; intros h c Hlen; [discriminate Hlen|].
  rewrite drain_events_cons. cbv zeta. rewrite run_app.
  pose proof (script_plays_one render sc c h) as Hone. cbv zeta in Hone.
  destruct (run (drain_events [sc])
              {| hook := h; tasks := [mkTask render (AwaitWrite c)] |})
    as [h1 ts1].
  simpl in Hone. destruct Hone as (Hts & Hq & Hlog & _ & Hflags).
  destruct (audioQueueRef h) as [|c' rest] eqn:Hqueue.
  - simpl in *. assert (scripts = []) as -> by (destruct scripts; [done|discriminate]).
    subst ts1. simpl. destruct Hflags as (Hp & Hs & Hi & Hb).
    repeat split; try assumption. intros Hzero. by rewrite Hb.
  - simpl in *. subst ts1. destruct Hflags as (_ & _ & Hb).
    rewrite drop_0 in Hq. fold (run (drain_events scripts)).
    specialize (IH h1 c'). rewrite Hq in IH.
    destruct IH as (Hts' & Hq' & Hlog' & Hp' & Hs' & Hi' & Hb'); [lia|].
    repeat split; try assumption.
    + rewrite Hlog', Hlog. rewrite <- app_assoc. reflexivity.
    + intros _. apply Hb'. exact Hb.
Qed.
End DrainFacts.

(** C4. Whatever way chunk arrivals and the steps of the drain loop are
    interleaved from mount, the chunks that [playAudioChunk] was called on,
    followed by the queue, are the arrivals in their call order, whatever
    their [index] fields; at most one loop is suspended; and in the log each
    call of [playAudioChunk] is followed by its return before the next call.
    When five or more chunks have arrived and each play and delay then
    settles, every one of them has been played, in arrival order, and the
    queue is empty. *)
Theorem playback_follows_arrival_order
  (evs : list useAudioPlayback.Event)
  (cs : list AudioChunk) (scripts : list useAudioPlayback.PlayScript) :
  (let s := useAudioPlayback.run evs useAudioPlayback.boot in
   exists done current,
     useAudioPlayback.arrivals evs
     = done ++ current ++ useAudioPlayback.audioQueueRef (useAudioPlayback.hook s) /\
     length current <= 1 /\
     length (useAudioPlayback.tasks s) <= 1 /\
     useAudioPlayback.play_events (useAudioPlayback.effects (useAudioPlayback.hook s))
     = useAudioPlayback.one_by_one done ++ map useAudioPlayback.PlayCalled current) /\
  (5 <= length cs ->
   length scripts = length cs ->
   let s := useAudioPlayback.run
              (map useAudioPlayback.Arrive cs ++ useAudioPlayback.drain_events scripts)
              useAudioPlayback.boot in
   useAudioPlayback.play_events (useAudioPlayback.effects (useAudioPlayback.hook s))
   = useAudioPlayback.one_by_one cs /\
   useAudioPlayback.audioQueueRef (useAudioPlayback.hook s) = [] /\
   useAudioPlayback.tasks s = [] /\
   useAudioPlayback.bufferedChunks (useAudioPlayback.hook s) = 0 /\
   useAudioPlayback.playbackState (useAudioPlayback.hook s) = IDLE).
Proof.
  split.
  - destruct (run_in_order evs) as (done & next & Hts & _ & Harr & Hlog).
    exists done, (in_hand next). cbv zeta. rewrite Hts.
    repeat split; try assumption; destruct next as [[]|]; simpl; lia.
  - intros Hfive Hlen. cbv zeta. rewrite run_app.
    destruct cs as [|c0 cs]; [simpl in Hfive; lia|].
    rewrite <- (take_drop 4 cs).
    rewrite arrivals_beyond_threshold.
    2:{ rewrite length_take. simpl in Hfive.
        unfold AUDIO_CONFIG.playback.bufferSize. lia. }
    rewrite take_drop.
    destruct (drain_plays_queue useAudioPlayback.mount_render scripts
                (useAudioPlayback.hook (draining c0 cs)) c0)
      as (Hts & Hq & Hlog & _ & Hs & _ & Hb).
    { simpl in *. lia. }
    unfold draining in *. simpl in *.
    repeat split; try assumption. by apply Hb.
Qed.

Lemma playback_follows_arrival_order_witness :
  let cs := [chunk_a; chunk_b; chunk_a; chunk_b; chunk_b; chunk_a] in
  let scripts :=
    [useAudioPlayback.PlaysThrough 1; useAudioPlayback.FailsAtCreate (Err "decode");
     useAudioPlayback.PlaysThrough 2; useAudioPlayback.PlaysThrough 3;
     useAudioPlayback.FailsAtWrite (Err "disk"); useAudioPlayback.PlaysThrough 4] in
  map index cs = [7; 3; 7; 3; 3; 7]%Z /\
  useAudioPlayback.play_events
    (useAudioPlayback.effects
       (useAudioPlayback.hook
          (useAudioPlayback.run
             (map useAudioPlayback.Arrive cs ++ useAudioPlayback.drain_events scripts)
             useAudioPlayback.boot)))
  = useAudioPlayback.one_by_one cs.
Proof.
  intros cs scripts. split; [reflexivity|].
  destruct (playback_follows_arrival_order [] cs scripts) as (_ & Hall).
  destruct Hall as (Hlog & _).
  - simpl. lia.
  - reflexivity.
  - exact Hlog.
Defined.

(** C5. A failure inside [playAudioChunk] never leaves it as an exception:
    at whichever [await] the chunk fails, the error is stored in the hook's
    error cell, the play of the chunk returns, and after the delay the loop
    takes the next chunk of the queue. Carried on with any script for each
    queued chunk, the loop plays all of them in queue order and ends idle
    with the queue empty. *)
Theorem drain_continues_after_failed_chunk
  (render : useAudioPlayback.Render)
  (h : useAudioPlayback.Hook) (c : AudioChunk)
  (sc : useAudioPlayback.PlayScript) (e : JsError)
  (scripts : list useAudioPlayback.PlayScript) :
  useAudioPlayback.failure sc = Some e ->
  length scripts = length (useAudioPlayback.audioQueueRef h) ->
  let loop_at c' := useAudioPlayback.mkTask render (useAudioPlayback.AwaitWrite c') in
  let s0 := {| useAudioPlayback.hook := h;
               useAudioPlayback.tasks := [loop_at c] |} in
  let s1 := useAudioPlayback.run (useAudioPlayback.drain_events [sc]) s0 in
  let s2 := useAudioPlayback.run (useAudioPlayback.drain_events scripts) s1 in
  (forall render0 p r h0 h1 ctl err,
      useAudioPlayback.playAudioChunk_resume render0 p r h0 = Some (h1, ctl) ->
      ctl <> useAudioPlayback.Raise err) /\
  useAudioPlayback.error (useAudioPlayback.hook s1) = Some e /\
  useAudioPlayback.tasks s1
  = map loop_at (take 1 (useAudioPlayback.audioQueueRef h)) /\
  useAudioPlayback.audioQueueRef (useAudioPlayback.hook s1)
  = drop 1 (useAudioPlayback.audioQueueRef h) /\
  useAudioPlayback.play_events (useAudioPlayback.effects (useAudioPlayback.hook s2))
  = useAudioPlayback.play_events (useAudioPlayback.effects h)
    ++ useAudioPlayback.PlayReturned c
       :: useAudioPlayback.one_by_one (useAudioPlayback.audioQueueRef h) /\
  useAudioPlayback.tasks s2 = [] /\
  useAudioPlayback.audioQueueRef (useAudioPlayback.hook s2) = [] /\
  useAudioPlayback.isProcessingRef (useAudioPlayback.hook s2) = false /\
  useAudioPlayback.playbackState (useAudioPlayback.hook s2) = IDLE.
Proof.
  intros Hfail Hlen loop_at s0 s1 s2.
  split; [intros render0 p r h0 h1 ctl err; apply playAudioChunk_never_raises|].
  pose proof (script_plays_one render sc c h) as Hone. cbv zeta in Hone.
  fold (loop_at c) in Hone. fold loop_at s0 s1 in Hone.
  destruct Hone as (Hts & Hq & _ & Herr & _). rewrite Hfail in Herr.
  split; [exact Herr|]. split; [exact Hts|]. split; [exact Hq|].
  assert (Hs2 : s2 = useAudioPlayback.run
                       (useAudioPlayback.drain_events (sc :: scripts)) s0).
  { unfold s2, s1. by rewrite (drain_events_cons sc scripts), run_app. }
  rewrite Hs2.
  destruct (drain_plays_queue render (sc :: scripts) h c)
    as (H1 & H2 & H3 & H4 & H5 & _).
  { simpl. lia. }
  fold (loop_at c) in H1, H2, H3, H4, H5.
  fold s0 in H1, H2, H3, H4, H5. repeat split; assumption.
Qed.

Lemma drain_continues_after_failed_chunk_witness :
  let s1 := useAudioPlayback.run
              (useAudioPlayback.drain_events
                 [useAudioPlayback.FailsAtCreate (Err "decode")])
              {| useAudioPlayback.hook := mid_drain;
                 useAudioPlayback.tasks :=
                   [useAudioPlayback.mkTask useAudioPlayback.mount_render
                      (useAudioPlayback.AwaitWrite chunk_b)] |} in
  useAudioPlayback.error (useAudioPlayback.hook s1) = Some (Err "decode") /\
  useAudioPlayback.tasks s1
  = [useAudioPlayback.mkTask useAudioPlayback.mount_render
       (useAudioPlayback.AwaitWrite chunk_a)] /\
  useAudioPlayback.audioQueueRef (useAudioPlayback.hook s1) = [chunk_b].
Proof.
  destruct (drain_continues_after_failed_chunk useAudioPlayback.mount_render
              mid_drain chunk_b
              (useAudioPlayback.FailsAtCreate (Err "decode")) (Err "decode")
              [useAudioPlayback.PlaysThrough 5; useAudioPlayback.PlaysThrough 6]
              eq_refl eq_refl)
    as (_ & Herr & Hts & Hq & _).
  repeat split; assumption.
Defined.

(** ** Capture: the numbering of chunks *)

Section RecordingFacts.
Import AudioStreamingService useAudioRecording.
Local Arguments stopCurrentChunk : simpl never.

Lemma stopCurrentChunk_finalized io h svc :
  finalized io = true ->
  let out := stopCurrentChunk io (h, svc) in
  chunkCountRef out.1.1 = S (chunkCountRef h) /\
  chunksRecorded out.1.1 = S (chunkCountRef h) /\
  match readAsStringAsync io with
  | Resolved base64Audio =>
      out.2 = Some (mkChunk base64Audio (Z.of_nat (S (chunkCountRef h))) (dateNow io)
                      AUDIO_CONFIG.chunking.chunkDurationMs "m4a") /\
      last (chunkBuffer out.1.2) = out.2
  | Rejected _ => out.2 = None /\ out.1.2 = svc
  end.
Proof.
  unfold finalized, stopCurrentChunk, processAudioChunk.
  destruct (stopAndUnloadAsync io) as [[]|e]; [|discriminate].
  intros ->. destruct (readAsStringAsync io) as [base64Audio|e]; simpl.
  - repeat split; try reflexivity.
    unfold sendAudioChunk. simpl.
    destruct (decide _) as [Hover|Hfits]; [|by rewrite last_snoc].
    destruct (chunkBuffer svc) as [|c b].
    { exfalso. simpl in Hover.
      unfold AUDIO_CONFIG.chunking.maxChunksInMemory in Hover. lia. }
    simpl. rewrite drop_0. by rewrite last_snoc.
  - repeat split; reflexivity.
Qed.
End RecordingFacts.

Section ProgramFacts.
Import AudioStreamingService useAudioRecording useAudioRecording_rest.

Lemma react_nothing_recorded svc p input :
  nothing_recorded svc p -> nothing_recorded svc (react p input).
Proof.
  intros (Hto & Href & Hh & Ht & Hc & Hr).
  destruct input as [mode now timer rec st|r|r|now timer rec st|now|i io rec st];
    unfold react.
  - destruct (isRecording (hook (capture p))) eqn:Hrec;
      [by repeat split|].
    unfold startRecording. rewrite Hrec.
    destruct mode as [[]|e]; simpl; by repeat split.
  - unfold stopRecording.
    destruct (isRecording (hook (capture p))); simpl; by repeat split.
  - unfold pauseRecording.
    destruct (isRecording (hook (capture p))); simpl; [|by repeat split].
    rewrite Href. simpl. by repeat split.
  - destruct (isRecording (hook (capture p))) eqn:Hrec;
      [by repeat split|].
    unfold resumeRecording. rewrite Hrec. simpl. by repeat split.
  - unfold durationTick.
    destruct (startTimeRef (hook (capture p))) as [start|]; simpl;
      [destruct (start =? 0)%Z|]; simpl; by repeat split.
  - rewrite Hto. simpl. by repeat split.
Qed.

Lemma run_nothing_recorded svc inputs :
  nothing_recorded svc (run inputs (mounted svc)).
Proof.
  induction inputs as [|input inputs IH] using rev_ind.
  - by repeat split.
  - unfold run in *. rewrite foldl_snoc. by apply react_nothing_recorded.
Qed.
End ProgramFacts.


(** ** The web client's socket address *)

Section UrlFacts.
Import websocket.
Local Open Scope string_scope.

Lemma substring_all s : String.substring 0 (String.length s) s = s.
Proof. induction s as [|a s IH]; simpl; [reflexivity|]. by rewrite IH. Qed.

Lemma prefix_app p s : String.prefix p (p ++ s) = true.
Proof.
  induction p as [|a p IH]; simpl; [by destruct s|].
  destruct (Ascii.ascii_dec a a) as [_|Hne]; [exact IH|by destruct Hne].
Qed.

Lemma drop_chars_app p s : drop_chars (String.length p) (p ++ s) = s.
Proof.
  unfold drop_chars. induction p as [|a p IH].
  - change ("" ++ s) with s. simpl. rewrite Nat.sub_0_r. apply substring_all.
  - exact IH.
Qed.

Lemma strip_ws host : strip_protocol ("ws://" ++ host) = host.
Proof.
  unfold strip_protocol.
  change (String.prefix "wss://" ("ws://" ++ host)) with false.
  rewrite (prefix_app "ws://" host).
  apply (drop_chars_app "ws://" host).
Qed.

Lemma strip_wss host : strip_protocol ("wss://" ++ host) = host.
Proof.
  unfold strip_protocol.
  rewrite (prefix_app "wss://" host).
  apply (drop_chars_app "wss://" host).
Qed.

Lemma truthy_nonempty url : url <> "" -> truthy (Some url) = true.
Proof. intros Hne. simpl. apply negb_true_iff. by apply String.eqb_neq. Qed.
End UrlFacts.

(** C10, as amended. When NEXT_PUBLIC_WEBSOCKET_URL is set to a non-empty
    string, the URL returned is "wss://", then the configured URL without
    its leading "ws://" or "wss://" if it has one, then the endpoint; so a
    configured "ws://host" and a configured "wss://host" both give
    "wss://host" followed by the endpoint. When the variable is not set, the
    URL returned is "ws://localhost:8000" followed by the endpoint. *)
Theorem getWebSocketUrl_protocol (url host endpoint : string) :
  url <> ""%string ->
  websocket.getWebSocketUrl (Some url) endpoint
  = ("wss://" ++ websocket.strip_protocol url ++ endpoint)%string /\
  String.prefix "wss://" (websocket.getWebSocketUrl (Some url) endpoint) = true /\
  websocket.getWebSocketUrl (Some ("ws://" ++ host)%string) endpoint
  = ("wss://" ++ host ++ endpoint)%string /\
  websocket.getWebSocketUrl (Some ("wss://" ++ host)%string) endpoint
  = ("wss://" ++ host ++ endpoint)%string /\
  websocket.getWebSocketUrl None endpoint
  = ("ws://localhost:8000" ++ endpoint)%string /\
  String.prefix "ws://" (websocket.getWebSocketUrl None endpoint) = true.
Proof.
  intros Hne.
  assert (Hset : forall u, u <> ""%string ->
            websocket.getWebSocketUrl (Some u) endpoint
            = ("wss://" ++ websocket.strip_protocol u ++ endpoint)%string).
  { intros u Hu. unfold websocket.getWebSocketUrl, websocket.websocketUrl.
    by rewrite (truthy_nonempty u Hu). }
  split; [by apply Hset|].
  split; [rewrite Hset by exact Hne; apply prefix_app|].
  split; [rewrite Hset by discriminate; by rewrite strip_ws|].
  split; [rewrite Hset by discriminate; by rewrite strip_wss|].
  split; [reflexivity|].
  apply (prefix_app "ws://" ("localhost:8000" ++ endpoint)).
Qed.

Lemma getWebSocketUrl_protocol_witness :
  websocket.getWebSocketUrl (Some "ws://api.example.com"%string) "/ws/audio"
  = "wss://api.example.com/ws/audio"%string /\
  websocket.getWebSocketUrl (Some "api.example.com"%string) "/ws/audio"
  = "wss://api.example.com/ws/audio"%string.
Proof.
  destruct (getWebSocketUrl_protocol "api.example.com" "api.example.com" "/ws/audio")
    as (Hbare & _ & Hws & _).
  - discriminate.
  - split; [exact Hws|]. rewrite Hbare. reflexivity.
Defined.

(** C10, as stated, fails: with the variable set to the empty string, which
    JavaScript takes for false, the localhost fallback is used and the URL
    begins with "ws://", not "wss://". *)
Lemma getWebSocketUrl_counterexample :
  websocket.getWebSocketUrl (Some ""%string) "/ws/audio"
  = "ws://localhost:8000/ws/audio"%string /\
  String.prefix "wss://" (websocket.getWebSocketUrl (Some ""%string) "/ws/audio") = false.
Proof. split; reflexivity. Qed.


(** * Further properties of the code *)

(** ** Transport: unsubscribing *)

Section OffFacts.
Import AudioStreamingService.

Lemma indexOf_absent callbacks cb :
  cb ∉ callbacks -> indexOf callbacks cb = (-1)%Z.
Proof.
  induction callbacks as [|c rest IH]; intros Hnot; simpl; [reflexivity|].
  apply not_elem_of_cons in Hnot as [Hne Hrest].
  destruct (decide (c = cb)) as [->|_]; [done|].
  rewrite IH by exact Hrest. reflexivity.
Qed.

Lemma indexOf_first pre cb post :
  cb ∉ pre -> indexOf (pre ++ cb :: post) cb = Z.of_nat (length pre).
Proof.
  induction pre as [|c pre IH]; intros Hnot; simpl.
  - destruct (decide (cb = cb)); [reflexivity|done].
  - apply not_elem_of_cons in Hnot as [Hne Hrest].
    destruct (decide (c = cb)) as [->|_]; [done|].
    rewrite IH by exact Hrest.
    destruct (Z.of_nat (length pre) <? 0)%Z eqn:E; [|lia].
    apply Z.ltb_lt in E. lia.
Qed.

Lemma registered_on_other event e' cb s :
  event <> e' -> registered e' (on event cb s) = registered e' s.
Proof.
  intros Hne. unfold registered, on; simpl.
  rewrite lookup_alter_ne by exact Hne.
  destruct (decide (is_Some (listeners s !! event))); [reflexivity|].
  by rewrite lookup_insert_ne.
Qed.

Lemma off_absent event cb s :
  cb ∉ registered event s -> off event cb s = s.
Proof.
  unfold registered, off. intros Hnot.
  destruct (listeners s !! event) as [callbacks|]; [|reflexivity].
  simpl in Hnot. by rewrite (indexOf_absent _ _ Hnot).
Qed.

Lemma off_first event cb s pre post :
  registered event s = pre ++ cb :: post ->
  cb ∉ pre ->
  registered event (off event cb s) = pre ++ post /\
  (forall e', event <> e' -> registered e' (off event cb s) = registered e' s) /\
  chunkBuffer (off event cb s) = chunkBuffer s.
Proof.
  unfold registered, off. intros Hreg Hnot.
  destruct (listeners s !! event) as [callbacks|] eqn:Hl.
  - simpl in Hreg. subst callbacks.
    rewrite (indexOf_first _ _ _ Hnot).
    assert (E : (Z.of_nat (length pre) >? -1)%Z = true) by (apply Z.gtb_lt; lia).
    rewrite E. simpl. rewrite lookup_insert_eq. simpl. rewrite Nat2Z.id.
    split; [apply delete_middle|]. split; [|reflexivity].
    intros e' Hne. by rewrite lookup_insert_ne.
  - simpl in Hreg. by destruct pre.
Qed.
End OffFacts.

(** X3. Unsubscribing a callback that the event does not have, an unknown
    event included, returns the service as it was. *)
Theorem off_unregistered_changes_nothing
  (event : string) (cb : AudioStreamingService.Callback)
  (s : AudioStreamingService.Service) :
  cb ∉ registered event s ->
  AudioStreamingService.off event cb s = s.
Proof. apply off_absent. Qed.

Lemma off_unregistered_changes_nothing_witness :
  let s := AudioStreamingService.onAll "incoming_audio_chunk" [1; 2]
             AudioStreamingService.constructor in
  AudioStreamingService.off "incoming_audio_chunk" 5 s = s /\
  AudioStreamingService.off "error" 1 s = s.
Proof.
  intros s. split.
  - apply (off_unregistered_changes_nothing "incoming_audio_chunk" 5 s).
    vm_compute. intros H.
    repeat (apply elem_of_cons in H as [H|H]; [discriminate H|]).
    by apply elem_of_nil in H.
  - apply (off_unregistered_changes_nothing "error" 1 s).
    vm_compute. apply not_elem_of_nil.
Defined.

(** X4. Unsubscribing removes the first subscription of the callback and no
    other: the callbacks before it and after it keep their order, a second
    subscription of the same callback stays, and the other events and the
    retained buffer are untouched. *)
Theorem off_removes_first_subscription
  (event : string) (cb : AudioStreamingService.Callback)
  (s : AudioStreamingService.Service)
  (pre post : list AudioStreamingService.Callback) :
  registered event s = pre ++ cb :: post ->
  cb ∉ pre ->
  registered event (AudioStreamingService.off event cb s) = pre ++ post /\
  (forall e', event <> e' ->
     registered e' (AudioStreamingService.off event cb s) = registered e' s) /\
  AudioStreamingService.chunkBuffer (AudioStreamingService.off event cb s)
  = AudioStreamingService.chunkBuffer s.
Proof. apply off_first. Qed.

Lemma off_removes_first_subscription_witness :
  let s := AudioStreamingService.onAll "incoming_audio_chunk" [1; 2; 1; 3]
             AudioStreamingService.constructor in
  registered "incoming_audio_chunk"
    (AudioStreamingService.off "incoming_audio_chunk" 1 s) = [2; 1; 3] /\
  registered "incoming_audio_chunk"
    (AudioStreamingService.off "incoming_audio_chunk" 3 s) = [1; 2; 1].
Proof.
  intros s. split.
  - destruct (off_removes_first_subscription "incoming_audio_chunk" 1 s [] [2; 1; 3])
      as (H & _); [reflexivity|apply not_elem_of_nil|exact H].
  - destruct (off_removes_first_subscription "incoming_audio_chunk" 3 s [1; 2; 1] [])
      as (H & _); [reflexivity| |exact H].
    intros H. repeat (apply elem_of_cons in H as [H|H]; [discriminate H|]).
    by apply elem_of_nil in H.
Defined.

(** X5. Subscribing a callback that the event does not have yet and then
    unsubscribing it gives back a service on which [emit] does, for every
    event, payload and behaviour of the callbacks, what it did before. *)
Theorem subscribe_then_unsubscribe
  {Payload : Type}
  (behaviour : AudioStreamingService.Callback -> Payload -> Completion)
  (event e' : string) (cb : AudioStreamingService.Callback) (payload : Payload)
  (s : AudioStreamingService.Service) :
  cb ∉ registered event s ->
  AudioStreamingService.emit behaviour e' payload
    (AudioStreamingService.off event cb (AudioStreamingService.on event cb s))
  = AudioStreamingService.emit behaviour e' payload s.
Proof.
  intros Hnot. rewrite !emit_forEach. f_equal.
  destruct (off_first event cb (AudioStreamingService.on event cb s)
              (registered event s) []) as (Hsame & Hother & _).
  - apply registered_on.
  - exact Hnot.
  - destruct (decide (event = e')) as [<-|Hne].
    + rewrite Hsame. apply app_nil_r.
    + rewrite (Hother e' Hne). by apply registered_on_other.
Qed.

Lemma subscribe_then_unsubscribe_witness :
  let s := AudioStreamingService.onAll "incoming_audio_chunk" [1; 2]
             AudioStreamingService.constructor in
  AudioStreamingService.emit second_throws "incoming_audio_chunk" 7
    (AudioStreamingService.off "incoming_audio_chunk" 9
       (AudioStreamingService.on "incoming_audio_chunk" 9 s))
  = ([(1, 7); (2, 7)], Throw (Err "handler failed")).
Proof.
  intros s.
  rewrite (subscribe_then_unsubscribe second_throws
             "incoming_audio_chunk" "incoming_audio_chunk" 9 7 s).
  - reflexivity.
  - vm_compute. intros H.
    repeat (apply elem_of_cons in H as [H|H]; [discriminate H|]).
    by apply elem_of_nil in H.
Defined.

(** ** Transport: the buffer, the echo and the service's fixed state *)

Section BufferFacts.
Import AudioStreamingService AudioStreamingService_rest.

Lemma last_after_send c s : last (chunkBuffer (sendAudioChunk c s)) = Some c.
Proof.
  unfold sendAudioChunk. simpl.
  destruct (decide _) as [Hover|Hfits]; [|by rewrite last_snoc].
  destruct (chunkBuffer s) as [|c0 b].
  { exfalso. simpl in Hover.
    unfold AUDIO_CONFIG.chunking.maxChunksInMemory in Hover. lia. }
  simpl. rewrite drop_0. by rewrite last_snoc.
Qed.

Lemma call_steady s c : steady s -> steady (call s c).
Proof.
  intros (Hc & Hi & Hb). destruct c as [event cb|event cb|chunk|]; simpl.
  - repeat split; assumption.
  - unfold off. destruct (listeners s !! event) as [callbacks|];
      [destruct (_ >? _)%Z|]; repeat split; assumption.
  - repeat split; try assumption.
    rewrite sendAudioChunk_buffer by exact Hb. apply most_recent_length.
  - repeat split; try assumption. simpl. lia.
Qed.

Lemma calls_steady cs : steady (calls cs constructor).
Proof.
  induction cs as [|c cs IH] using rev_ind.
  - repeat split; simpl; lia.
  - unfold calls in *. rewrite foldl_snoc. by apply call_steady.
Qed.
End BufferFacts.

Lemma round_to_double_safe z :
  (Z.abs z <= 2 ^ 53)%Z -> round_to_double z = z.
Proof.
  intros Hsafe. unfold round_to_double.
  destruct (Z.eq_dec (Z.abs z) (2 ^ 53)%Z) as [Hmax|Hless].
  - destruct (Z.abs_eq_or_opp z) as [Heq|Heq]; rewrite Heq in Hmax.
    + subst z. reflexivity.
    + assert (z = (- 2 ^ 53)%Z) as -> by lia. reflexivity.
  - assert (Hlog : (Z.log2 (Z.abs z) - 52 <= 0)%Z).
    { destruct (Z.eq_dec (Z.abs z) 0%Z) as [->|Hpos]; [simpl; lia|].
      assert (Z.log2 (Z.abs z) < 53)%Z; [|lia].
      apply Z.log2_lt_pow2; lia. }
    apply Z.leb_le in Hlog. by rewrite Hlog.
Qed.



(** X7. Whatever subscriptions, unsubscriptions, sends and buffer clearings
    are made on a fresh service, in any order, the service reports itself
    connected and ready, no simulation interval is recorded, and the retained
    buffer holds at most 20 chunks. *)
Theorem service_stays_connected_and_bounded
  (cs : list AudioStreamingService_rest.Call) :
  let s := AudioStreamingService_rest.calls cs AudioStreamingService.constructor in
  AudioStreamingService_rest.getConnectionState s = CONNECTED /\
  AudioStreamingService_rest.isReady s = true /\
  AudioStreamingService.simulationInterval s = None /\
  AudioStreamingService.getBufferedChunks s <= 20.
Proof.
  destruct (calls_steady cs) as (Hc & Hi & Hb).
  repeat split; assumption.
Qed.

(** X8. On a service reached by such calls, a run of sends leaves in the
    buffer the last 20 chunks of what it held followed by what was sent;
    after [clearBuffer] the buffer holds the last 20 of the chunks sent since,
    and none from before. *)
Theorem buffer_after_more_sends
  (cs : list AudioStreamingService_rest.Call) (sent : list AudioChunk) :
  let s := AudioStreamingService_rest.calls cs AudioStreamingService.constructor in
  AudioStreamingService.chunkBuffer (AudioStreamingService.sendAll sent s)
  = most_recent (AudioStreamingService.chunkBuffer s ++ sent) /\
  AudioStreamingService.chunkBuffer
    (AudioStreamingService.sendAll sent (AudioStreamingService.clearBuffer s))
  = most_recent sent.
Proof.
  destruct (calls_steady cs) as (_ & _ & Hb). split.
  - by apply sendAll_buffer.
  - rewrite sendAll_buffer; [reflexivity|simpl; lia].
Qed.

(** ** Transport: stopping and restarting a simulation *)

Section SimulationControl.
Import AudioStreamingService.
Variable behaviour : Callback -> AudioChunk -> Completion.

Lemma tick_listeners t id w :
  listeners (service (simulationTick behaviour t id w)) = listeners (service w).
Proof.
  unfold simulationTick. destruct (intervals w !! id) as [iv|]; [|reflexivity].
  destruct (emit behaviour _ _ _) as [calls [|e]]; [|reflexivity].
  destruct (decide _); reflexivity.
Qed.

Lemma fire_listeners times id : forall w,
  listeners (service (fire behaviour times id w)) = listeners (service w).
Proof.
  induction times as [|t times IH]; intros w; [reflexivity|].
  rewrite fire_cons, IH. apply tick_listeners.
Qed.

Lemma tick_tracked t id w : tracked id w -> tracked id (simulationTick behaviour t id w).
Proof.
  intros Htr. unfold simulationTick.
  destruct (intervals w !! id) as [iv|] eqn:Hiv; [|exact Htr].
  destruct Htr as [Hsim|[_ Hnone]]; [|congruence].
  destruct (emit behaviour _ _ _) as [calls [|e]]; [|by left].
  destruct (decide _); [|by left].
  right. simpl. rewrite Hsim. simpl. split; [reflexivity|apply lookup_delete_eq].
Qed.

Lemma fire_tracked times id : forall w,
  tracked id w -> tracked id (fire behaviour times id w).
Proof.
  induction times as [|t times IH]; intros w Htr; [exact Htr|].
  rewrite fire_cons. apply IH. by apply tick_tracked.
Qed.

Lemma stopSimulation_clears id w :
  tracked id w ->
  simulationInterval (service (stopSimulation w)) = None /\
  intervals (stopSimulation w) !! id = None /\
  emitted (stopSimulation w) = emitted w /\
  listeners (service (stopSimulation w)) = listeners (service w).
Proof.
  unfold stopSimulation. intros [Hsim|[Hsim Hnone]]; rewrite Hsim; simpl.
  - repeat split; try reflexivity. apply lookup_delete_eq.
  - repeat split; try reflexivity; assumption.
Qed.
End SimulationControl.

(** X9. [stopSimulation] ends a simulation wherever it stands, whatever the
    subscribers do: after it no interval is recorded and further firings of
    the simulation's interval emit nothing. With subscribers that return,
    the chunks emitted in all are those of the firings before the stop, the
    first ten at most. *)
Theorem stopSimulation_halts_emission
  (behaviour : AudioStreamingService.Callback -> AudioChunk -> Completion)
  (w : AudioStreamingService.World) (before after : list Z) :
  let w0 := AudioStreamingService.simulateIncomingAudioChunks w in
  exists id,
    AudioStreamingService.simulationInterval (AudioStreamingService.service w0) = Some id /\
    let w1 := AudioStreamingService.fire behaviour before id w0 in
    let w2 := AudioStreamingService.stopSimulation w1 in
    AudioStreamingService.simulationInterval (AudioStreamingService.service w2) = None /\
    AudioStreamingService.fire behaviour after id w2 = w2 /\
    AudioStreamingService.emitted w2 = AudioStreamingService.emitted w1 /\
    (subscribers_return behaviour (AudioStreamingService.service w) ->
     AudioStreamingService.emitted w2
     = AudioStreamingService.emitted w ++ imap simulated_chunk (take 10 before)).
Proof.
  intros w0.
  pose proof (simulate_installs w) as Hinst. cbv zeta in Hinst.
  fold w0 in Hinst. set (id := fresh _) in Hinst.
  destruct Hinst as (Hsim & Hls & Hem & Hiv).
  exists id. split; [exact Hsim|]. intros w1 w2.
  assert (Htr : tracked id w1).
  { apply fire_tracked. by left. }
  destruct (stopSimulation_clears id w1 Htr) as (Hnone & Hgone & Hsame & _).
  fold w2 in Hnone, Hgone, Hsame.
  split; [exact Hnone|]. split; [by apply fire_cleared|]. split; [exact Hsame|].
  intros Hret. rewrite Hsame.
  destruct (fire_counts behaviour before id w0 0) as (Hout & _).
  - unfold subscribers_return, registered in *. rewrite Hls. exact Hret.
  - exact Hsim.
  - exact Hiv.
  - lia.
  - fold w1 in Hout. rewrite Hout, Hem. reflexivity.
Qed.



(** ** Playback: what the hook keeps true *)

Section PlaybackInvariants.
Import useAudioPlayback useAudioPlayback_rest.
Local Arguments Nat.leb : simpl never.
Local Arguments Nat.ltb : simpl never.

Lemma try_keeps_queue render p r h h' ctl :
  playAudioChunk_try render p r h = Some (h', ctl) ->
  audioQueueRef h' = audioQueueRef h /\ bufferedChunks h' = bufferedChunks h.
Proof.
  destruct p, r as [[[]|e]|[s|e]| |[[]|e]|[[]|e]|]; simpl; intros Heq;
    inversion Heq; subst; split; reflexivity.
Qed.

Lemma play_resume_keeps_queue render p r h h' ctl :
  playAudioChunk_resume render p r h = Some (h', ctl) ->
  audioQueueRef h' = audioQueueRef h /\ bufferedChunks h' = bufferedChunks h.
Proof.
  unfold playAudioChunk_resume.
  destruct (playAudioChunk_try render p r h) as [[h1 ctl1]|] eqn:Htry; [|discriminate].
  destruct (try_keeps_queue _ _ _ _ _ _ Htry) as (Hq & Hb).
  unfold returned.
  destruct ctl1; intros Heq; inversion Heq; subst;
    destruct (chunk_of p); simpl; split; assumption.
Qed.

Lemma loop_counted h : counted h -> counted (processAudioQueue_loop h).1.
Proof.
  unfold counted, processAudioQueue_loop.
  destruct (audioQueueRef h) as [|c rest] eqn:Hq; simpl; intros Hc.
  - by rewrite Hq.
  - reflexivity.
Qed.

Lemma processAudioQueue_counted h : counted h -> counted (processAudioQueue h).1.
Proof.
  intros Hc. unfold processAudioQueue.
  destruct (isProcessingRef h || (length (audioQueueRef h) =? 0)); [exact Hc|].
  apply loop_counted. exact Hc.
Qed.

Lemma resume_counted render p r h h' next :
  processAudioQueue_resume render p r h = Some (h', next) -> counted h -> counted h'.
Proof.
  intros Hres Hc.
  destruct p as [c|c|c s|c s|c s|].
  6:{ destruct r; try discriminate Hres. simpl in Hres.
      injection Hres as Hr.
      pose proof (loop_counted h Hc) as H. rewrite Hr in H. exact H. }
  all: simpl in Hres;
    destruct (playAudioChunk_resume _ _ r h) as [[h1 ctl]|] eqn:Hplay;
    [|discriminate Hres];
    destruct (play_resume_keeps_queue _ _ _ _ _ _ Hplay) as (Hq & Hb);
    destruct ctl; simpl in Hres; injection Hres as <- _;
    unfold counted in *; simpl; congruence.
Qed.

Lemma act_counted s a : counted (hook s) -> counted (hook (act s a)).
Proof.
  intros Hc. destruct a as [[c|i r]|r|r|r1 r2|v r]; simpl.
  - unfold handleIncomingAudioChunk. simpl.
    match goal with |- context [if ?b then _ else _] => destruct b end.
    + match goal with |- context [processAudioQueue ?h0] =>
        pose proof (processAudioQueue_counted h0) as H;
        destruct (processAudioQueue h0) as [h1 st] end.
      simpl in *. apply H. reflexivity.
    + reflexivity.
  - destruct (tasks s !! i) as [t|]; [|exact Hc].
    destruct (processAudioQueue_resume (closure t) (point t) r (hook s))
      as [[h' [p'|]]|] eqn:Hres;
      simpl; try exact Hc; eapply resume_counted; eauto.
  - unfold pausePlayback.
    destruct (soundRef (hook s)); [destruct r|]; exact Hc.
  - unfold resumePlayback.
    destruct (soundRef (hook s)); [destruct r; exact Hc|].
    destruct (0 <? length (audioQueueRef (hook s))); [|exact Hc].
    pose proof (processAudioQueue_counted (hook s) Hc) as H.
    destruct (processAudioQueue (hook s)) as [h1 st]. exact H.
  - unfold stopPlayback.
    destruct (soundRef (hook s)); [destruct r1; [destruct r2|]|];
      first [exact Hc | reflexivity].
  - unfold adjustVolume.
    destruct (_ || _); [exact Hc|]. simpl.
    destruct (soundRef (hook s)); [destruct r|]; exact Hc.
Qed.
End PlaybackInvariants.

(** X11. Whatever arrives and whatever controls are used after mount, in any
    order and however the platform calls settle (chunk arrivals, loop
    resumptions, pause, resume, stop, volume), the buffered count shown is
    the length of the playback queue. *)
Theorem buffered_count_is_queue_length
  (actions : list useAudioPlayback_rest.Action) :
  let s := useAudioPlayback_rest.perform_all actions useAudioPlayback.boot in
  useAudioPlayback.bufferedChunks (useAudioPlayback.hook s)
  = length (useAudioPlayback.audioQueueRef (useAudioPlayback.hook s)).
Proof.
  induction actions as [|a actions IH] using rev_ind; [reflexivity|].
  unfold useAudioPlayback_rest.perform_all in *. cbv zeta in *.
  rewrite foldl_snoc. by apply act_counted.
Qed.

Section PlaybackFlags.
Import useAudioPlayback useAudioPlayback_rest.
Local Arguments Nat.leb : simpl never.

Lemma try_flags render p r h h' ctl :
  playAudioChunk_try render p r h = Some (h', ctl) ->
  isProcessingRef h' = isProcessingRef h /\
  playbackState h' = playbackState h /\
  (isPlaying h' = isPlaying h \/ isPlaying h' = true).
Proof.
  destruct p, r as [[[]|e]|[s|e]| |[[]|e]|[[]|e]|]; simpl; intros Heq;
    inversion Heq; subst; simpl; repeat split; auto.
Qed.

Lemma play_resume_flags render p r h h' ctl :
  playAudioChunk_resume render p r h = Some (h', ctl) ->
  isProcessingRef h' = isProcessingRef h /\
  playbackState h' = playbackState h /\
  (isPlaying h' = isPlaying h \/ isPlaying h' = true) /\
  ctl <> Raise (Err "").
Proof.
  intros Hplay.
  pose proof (playAudioChunk_never_raises _ _ _ _ _ _ (Err "") Hplay) as Hno.
  revert Hplay. unfold playAudioChunk_resume.
  destruct (playAudioChunk_try render p r h) as [[h1 ctl1]|] eqn:Htry; [|discriminate].
  destruct (try_flags _ _ _ _ _ _ Htry) as (Hp & Hs & Hi).
  unfold returned.
  destruct ctl1; intros Heq; inversion Heq; subst;
    destruct (chunk_of p); simpl; repeat split; assumption.
Qed.

Lemma loop_flags h :
  isProcessingRef h = true -> playbackState h = PLAYING ->
  flags_agree (processAudioQueue_loop h).1 /\
  (is_Some (processAudioQueue_loop h).2 <->
   isProcessingRef (processAudioQueue_loop h).1 = true).
Proof.
  intros Hp Hs. unfold processAudioQueue_loop, flags_agree.
  destruct (audioQueueRef h) as [|c rest]; simpl.
  - repeat split; try discriminate. intros [? ?]. discriminate.
  - rewrite Hp, Hs. repeat split; eauto.
Qed.

Lemma step_flags arrived s ev :
  in_arrival_order arrived s ->
  flags_agree (hook s) -> flags_agree (hook (step s ev)).
Proof.
  intros (done & next & Hts & Hproc & _ & _) (Hstate & Hplaying).
  destruct ev as [c|i r]; simpl.
  - unfold handleIncomingAudioChunk. simpl.
    match goal with |- context [if ?b then _ else _] => destruct b eqn:Hgo end.
    2:{ split; assumption. }
    apply andb_true_iff in Hgo as (Hidle & _). apply negb_true_iff in Hidle.
    unfold processAudioQueue. simpl. rewrite Hidle. simpl.
    destruct (length (audioQueueRef (hook s) ++ [c]) =? 0) eqn:Hempty.
    { apply Nat.eqb_eq in Hempty. rewrite length_app in Hempty. simpl in Hempty. lia. }
    match goal with |- context [processAudioQueue_loop ?h0] =>
      destruct (loop_flags h0 eq_refl eq_refl) as (Hflags & _);
      destruct (processAudioQueue_loop h0) as [h1 st] end.
    exact Hflags.
  - rewrite Hts. destruct next as [p|]; simpl; [|split; assumption].
    destruct i as [|i]; simpl; [|split; assumption].
    simpl in Hproc.
    destruct (processAudioQueue_resume mount_render p r (hook s))
      as [[h' next']|] eqn:Hres.
    2:{ split; assumption. }
    assert (Hgoal : flags_agree h').
    { rewrite Hproc in Hstate.
      destruct p as [c|c|c sd|c sd|c sd|].
      6:{ destruct r; try discriminate Hres. simpl in Hres. injection Hres as Hr.
          destruct (loop_flags (hook s) Hproc Hstate) as (Hflags & _).
          by rewrite Hr in Hflags. }
      all: simpl in Hres;
        destruct (playAudioChunk_resume _ _ r (hook s)) as [[h1 ctl]|] eqn:Hplay;
        [|discriminate Hres];
        destruct (play_resume_flags _ _ _ _ _ _ Hplay) as (Hp & Hs & Hi & _);
        pose proof (playAudioChunk_never_raises _ _ _ _ _ _ (Err "") Hplay) as Hno;
        destruct ctl as [p'| |e]; simpl in Hres;
        try (injection Hres as <- _; split;
             [rewrite Hs, Hp, Hproc; exact Hstate|intros _; by rewrite Hp]).
      all: exfalso;
        exact (playAudioChunk_never_raises _ _ _ _ _ _ e Hplay eq_refl). }
    destruct next'; exact Hgoal.
Qed.

Lemma run_flags evs : flags_agree (hook (run evs boot)).
Proof.
  induction evs as [|ev evs IH] using rev_ind.
  - split; [reflexivity|discriminate].
  - rewrite run_snoc. eapply step_flags; [apply run_in_order|exact IH].
Qed.
End PlaybackFlags.

(** X12. However chunk arrivals and the steps of the drain loop are
    interleaved from the hook's initial state (the audio mode set without
    failure), and whichever chunks fail to play, the playback state is
    'playing' exactly while the loop is running and 'idle' otherwise, it is
    never 'error', and the playing flag is only set while the loop is
    running. *)
Theorem playback_state_follows_the_loop (evs : list useAudioPlayback.Event) :
  let h := useAudioPlayback.hook (useAudioPlayback.run evs useAudioPlayback.boot) in
  useAudioPlayback.playbackState h
  = (if useAudioPlayback.isProcessingRef h then PLAYING else IDLE) /\
  useAudioPlayback.playbackState h <> ERROR /\
  useAudioPlayback.isPlaying h && negb (useAudioPlayback.isProcessingRef h) = false.
Proof.
  destruct (run_flags evs) as (Hstate & Hplaying). cbv zeta.
  split; [exact Hstate|]. split.
  - rewrite Hstate. destruct (useAudioPlayback.isProcessingRef _); discriminate.
  - destruct (useAudioPlayback.isPlaying _); [|reflexivity].
    by rewrite Hplaying.
Qed.

(** ** Playback: pause and resume *)

Section PauseFacts.
Import useAudioPlayback useAudioPlayback_rest.
Local Arguments Nat.leb : simpl never.
Local Arguments Nat.ltb : simpl never.

(** Where a woken loop goes next depends on the queue alone. *)
Lemma resume_reads_queue_only render p r h1 h2 :
  audioQueueRef h1 = audioQueueRef h2 ->
  snd <$> processAudioQueue_resume render p r h1
  = snd <$> processAudioQueue_resume render p r h2.
Proof.
  intros Hq.
  destruct p as [c|c|c s|c s|c s|].
  6:{ destruct r; try reflexivity. simpl. unfold processAudioQueue_loop.
      rewrite Hq. by destruct (audioQueueRef h2). }
  all: destruct r as [[[]|e]|[s'|e]| |[[]|e]|[[]|e]|]; reflexivity.
Qed.

Lemma pause_keeps_queue r h :
  audioQueueRef (pausePlayback r h).1 = audioQueueRef h /\
  bufferedChunks (pausePlayback r h).1 = bufferedChunks h /\
  soundRef (pausePlayback r h).1 = soundRef h /\
  effects (pausePlayback r h).1 = effects h.
Proof.
  unfold pausePlayback. destruct (soundRef h) eqn:Hs; [destruct r|];
    simpl; rewrite ?Hs; repeat split; reflexivity.
Qed.

(** X13. [pausePlayback] keeps the queue, the buffered count and the held
    sound, however [pauseAsync] settles, and it does not stop a suspended
    drain loop: the loop stays suspended where it was, and when it is woken
    up it goes on to the same point, and on to the next queued chunk, as if
    there had been no pause. *)
Theorem pause_does_not_stop_the_loop
  (r : Settled unit) (s : useAudioPlayback.System)
  (render : useAudioPlayback.Render)
  (p : useAudioPlayback.DrainPoint) (w : useAudioPlayback.Resume) :
  let s' := useAudioPlayback_rest.act s (useAudioPlayback_rest.Pause r) in
  useAudioPlayback.tasks s' = useAudioPlayback.tasks s /\
  useAudioPlayback.audioQueueRef (useAudioPlayback.hook s')
  = useAudioPlayback.audioQueueRef (useAudioPlayback.hook s) /\
  useAudioPlayback.bufferedChunks (useAudioPlayback.hook s')
  = useAudioPlayback.bufferedChunks (useAudioPlayback.hook s) /\
  useAudioPlayback.soundRef (useAudioPlayback.hook s')
  = useAudioPlayback.soundRef (useAudioPlayback.hook s) /\
  snd <$> useAudioPlayback.processAudioQueue_resume render p w
            (useAudioPlayback.hook s')
  = snd <$> useAudioPlayback.processAudioQueue_resume render p w
              (useAudioPlayback.hook s).
Proof.
  cbv zeta. simpl.
  destruct (pause_keeps_queue r (useAudioPlayback.hook s)) as (Hq & Hb & Hs & _).
  split; [reflexivity|]. split; [exact Hq|]. split; [exact Hb|]. split; [exact Hs|].
  by apply resume_reads_queue_only.
Qed.

(** X14. After a pause that lowered the processing flag (no sound held, or
    [pauseAsync] resolved) while a loop was suspended, an arrival that brings
    the queue to the buffer size starts a second loop on the head of the
    queue beside the first one: two loops are then suspended at once. *)
Theorem pause_then_arrival_starts_second_loop
  (s : useAudioPlayback.System) (p : useAudioPlayback.Task) (c : AudioChunk) :
  useAudioPlayback.tasks s = [p] ->
  4 <= length (useAudioPlayback.audioQueueRef (useAudioPlayback.hook s)) ->
  let s' := useAudioPlayback_rest.perform_all
              [useAudioPlayback_rest.Pause (Resolved ());
               useAudioPlayback_rest.Deliver (useAudioPlayback.Arrive c)] s in
  exists c0 rest,
    useAudioPlayback.audioQueueRef (useAudioPlayback.hook s) ++ [c] = c0 :: rest /\
    useAudioPlayback.tasks s'
    = [p; useAudioPlayback.mkTask useAudioPlayback.mount_render
            (useAudioPlayback.AwaitWrite c0)] /\
    useAudioPlayback.audioQueueRef (useAudioPlayback.hook s') = rest.
Proof.
  intros Hts Hlen. cbv zeta. unfold useAudioPlayback_rest.perform_all. simpl.
  unfold useAudioPlayback_rest.pausePlayback.
  destruct (useAudioPlayback.audioQueueRef (useAudioPlayback.hook s) ++ [c])
    as [|c0 rest] eqn:Hq.
  { by destruct (useAudioPlayback.audioQueueRef (useAudioPlayback.hook s)). }
  assert (Hfive : (AUDIO_CONFIG.playback.bufferSize <=? length (c0 :: rest)) = true).
  { apply Nat.leb_le. rewrite <- Hq, length_app. simpl.
    unfold AUDIO_CONFIG.playback.bufferSize. lia. }
  exists c0, rest. split; [reflexivity|].
  destruct (useAudioPlayback.soundRef (useAudioPlayback.hook s)); simpl;
    unfold useAudioPlayback.handleIncomingAudioChunk; simpl;
    rewrite ?Hq, Hfive; simpl;
    unfold useAudioPlayback.processAudioQueue_loop; simpl; rewrite ?Hq; simpl;
    rewrite Hts; split; reflexivity.
Qed.

Lemma pause_then_arrival_starts_second_loop_witness :
  useAudioPlayback.tasks
    (useAudioPlayback_rest.perform_all
       [useAudioPlayback_rest.Pause (Resolved ());
        useAudioPlayback_rest.Deliver (useAudioPlayback.Arrive chunk_b)]
       (draining chunk_a [chunk_b; chunk_a; chunk_b; chunk_a]))
  = [useAudioPlayback.mkTask useAudioPlayback.mount_render
       (useAudioPlayback.AwaitWrite chunk_a);
     useAudioPlayback.mkTask useAudioPlayback.mount_render
       (useAudioPlayback.AwaitWrite chunk_b)].
Proof.
  destruct (pause_then_arrival_starts_second_loop
              (draining chunk_a [chunk_b; chunk_a; chunk_b; chunk_a])
              (useAudioPlayback.mkTask useAudioPlayback.mount_render
                 (useAudioPlayback.AwaitWrite chunk_a)) chunk_b)
    as (c0 & rest & Hq & Hts & _).
  - reflexivity.
  - simpl. lia.
  - injection Hq as <- _. exact Hts.
Defined.

(** X15. [resumePlayback] with a sound held never touches the queue and
    never starts a loop, however [playAsync] settles; with no sound held
    and a queue that is not empty (and no loop flagged as running) it
    starts a loop on the head of the queue whatever the queue's length, so
    also below the buffer size; with no sound and an empty queue it changes
    nothing. *)
Theorem resume_restarts_only_without_sound
  (r : Settled unit) (h : useAudioPlayback.Hook) :
  let out := useAudioPlayback_rest.resumePlayback r h in
  match useAudioPlayback.soundRef h, useAudioPlayback.audioQueueRef h with
  | Some sound, _ =>
      out.1.2 = None /\
      useAudioPlayback.audioQueueRef out.1.1 = useAudioPlayback.audioQueueRef h /\
      useAudioPlayback.effects out.1.1 = useAudioPlayback.effects h /\
      out.2 = [useAudioPlayback_rest.PlayAsync sound]
  | None, [] => out = (h, None, [])
  | None, c0 :: rest =>
      if useAudioPlayback.isProcessingRef h
      then out = (h, None, [])
      else out.1.2 = Some (useAudioPlayback.AwaitWrite c0) /\
           useAudioPlayback.audioQueueRef out.1.1 = rest /\
           useAudioPlayback.isProcessingRef out.1.1 = true /\
           useAudioPlayback.playbackState out.1.1 = PLAYING
  end.
Proof.
  cbv zeta. unfold useAudioPlayback_rest.resumePlayback.
  destruct (useAudioPlayback.soundRef h) as [sound|] eqn:Hs.
  - destruct r; simpl; repeat split; reflexivity.
  - destruct (useAudioPlayback.audioQueueRef h) as [|c0 rest] eqn:Hq; simpl.
    + reflexivity.
    + unfold useAudioPlayback.processAudioQueue. rewrite Hq. simpl.
      destruct (useAudioPlayback.isProcessingRef h); simpl; [reflexivity|].
      unfold useAudioPlayback.processAudioQueue_loop. simpl. rewrite Hq. simpl.
      repeat split; reflexivity.
Qed.
End PauseFacts.

(** ** Playback: what is never cleared, and the volume of the next sound *)

Section StickyFacts.
Import useAudioPlayback useAudioPlayback_rest.
Local Arguments Nat.leb : simpl never.
Local Arguments Nat.ltb : simpl never.

Lemma try_sticky render p r h h' ctl :
  playAudioChunk_try render p r h = Some (h', ctl) ->
  error h' = error h /\
  (is_Some (soundRef h) -> is_Some (soundRef h')).
Proof.
  destruct p, r as [[[]|e]|[s|e]| |[[]|e]|[[]|e]|]; simpl; intros Heq;
    inversion Heq; subst; simpl; split; eauto.
Qed.

Lemma play_resume_sticky render p r h h' ctl :
  playAudioChunk_resume render p r h = Some (h', ctl) ->
  (is_Some (error h) -> is_Some (error h')) /\
  (is_Some (soundRef h) -> is_Some (soundRef h')).
Proof.
  unfold playAudioChunk_resume.
  destruct (playAudioChunk_try render p r h) as [[h1 ctl1]|] eqn:Htry; [|discriminate].
  destruct (try_sticky _ _ _ _ _ _ Htry) as (He & Hs).
  unfold returned.
  destruct ctl1; intros Heq; inversion Heq; subst;
    destruct (chunk_of p); simpl; rewrite ?He; split; eauto.
Qed.

Lemma loop_sticky h :
  error (processAudioQueue_loop h).1 = error h /\
  soundRef (processAudioQueue_loop h).1 = soundRef h.
Proof.
  unfold processAudioQueue_loop. destruct (audioQueueRef h); split; reflexivity.
Qed.

Lemma processAudioQueue_sticky h :
  error (processAudioQueue h).1 = error h /\
  soundRef (processAudioQueue h).1 = soundRef h.
Proof.
  unfold processAudioQueue.
  destruct (isProcessingRef h || (length (audioQueueRef h) =? 0));
    [split; reflexivity|].
  match goal with |- context [processAudioQueue_loop ?h0] =>
    destruct (loop_sticky h0) as (He & Hs) end.
  rewrite He, Hs. split; reflexivity.
Qed.

Lemma resume_sticky render p r h h' next :
  processAudioQueue_resume render p r h = Some (h', next) ->
  (is_Some (error h) -> is_Some (error h')) /\
  (is_Some (soundRef h) -> is_Some (soundRef h')).
Proof.
  intros Hres.
  destruct p as [c|c|c s|c s|c s|].
  6:{ destruct r; try discriminate Hres. simpl in Hres. injection Hres as Hr.
      destruct (loop_sticky h) as (He & Hs). rewrite Hr in He, Hs. simpl in *.
      rewrite He, Hs. split; auto. }
  all: simpl in Hres;
    destruct (playAudioChunk_resume _ _ r h) as [[h1 ctl]|] eqn:Hplay;
    [|discriminate Hres];
    destruct (play_resume_sticky _ _ _ _ _ _ Hplay) as (He & Hs);
    destruct ctl; simpl in Hres; injection Hres as <- _; simpl; split; eauto.
Qed.

(** X16. Nothing that arrives and no control of the hook clears a reported
    error: once the error cell is set it stays set through later chunks that
    play well, pause, resume, stop and volume changes (only [startPlayback]
    resets it). The reference to the sound is kept as well, by everything
    but [stopPlayback]: [playAudioChunk] does not clear it when it unloads
    the sound. *)
Theorem error_and_sound_are_never_cleared
  (s : System) (a : Action) (w : AudioStreamingService.World) :
  (is_Some (error (hook s)) -> is_Some (error (hook (act s a)))) /\
  (is_Some (soundRef (hook s)) ->
   (forall r1 r2, a <> Stop r1 r2) ->
   is_Some (soundRef (hook (act s a)))) /\
  error (startPlayback (hook s, w)).1 = None.
Proof.
  split; [|split; [|reflexivity]].
  - destruct a as [[c|i r]|r|r|r1 r2|v r]; simpl.
    + unfold handleIncomingAudioChunk. simpl.
      match goal with |- context [if ?b then _ else _] => destruct b end; [|auto].
      match goal with |- context [processAudioQueue ?h0] =>
        destruct (processAudioQueue_sticky h0) as (He & _);
        destruct (processAudioQueue h0) as [h1 st] end.
      simpl in *. by rewrite He.
    + destruct (tasks s !! i) as [t|]; [|auto].
      destruct (processAudioQueue_resume (closure t) (point t) r (hook s))
        as [[h' next]|] eqn:Hres; [|auto].
      destruct (resume_sticky _ _ _ _ _ _ Hres) as (He & _).
      destruct next; simpl; auto.
    + unfold pausePlayback.
      destruct (soundRef (hook s)); [destruct r|]; simpl; eauto.
    + unfold resumePlayback.
      destruct (soundRef (hook s)).
      * destruct r; simpl; eauto.
      * destruct (0 <? length (audioQueueRef (hook s))); [|simpl; auto].
        destruct (processAudioQueue_sticky (hook s)) as (He & _).
        destruct (processAudioQueue (hook s)) as [h1 st]. simpl in *.
        by rewrite He.
    + unfold stopPlayback.
      destruct (soundRef (hook s)); [destruct r1; [destruct r2|]|]; simpl; eauto.
    + unfold adjustVolume.
      destruct (_ || _); [auto|]. simpl.
      destruct (soundRef (hook s)); [destruct r|]; simpl; eauto.
  - intros Hsome Hnot.
    destruct a as [[c|i r]|r|r|r1 r2|v r]; simpl.
    + unfold handleIncomingAudioChunk. simpl.
      match goal with |- context [if ?b then _ else _] => destruct b end; [|auto].
      match goal with |- context [processAudioQueue ?h0] =>
        destruct (processAudioQueue_sticky h0) as (_ & Hs);
        destruct (processAudioQueue h0) as [h1 st] end.
      simpl in *. by rewrite Hs.
    + destruct (tasks s !! i) as [t|]; [|auto].
      destruct (processAudioQueue_resume (closure t) (point t) r (hook s))
        as [[h' next]|] eqn:Hres; [|auto].
      destruct (resume_sticky _ _ _ _ _ _ Hres) as (_ & Hs).
      destruct next; simpl; auto.
    + unfold pausePlayback.
      destruct (soundRef (hook s)) eqn:E; [destruct r|]; simpl;
        rewrite ?E; eauto.
    + unfold resumePlayback.
      destruct (soundRef (hook s)) eqn:E.
      * destruct r; simpl; rewrite ?E; eauto.
      * by destruct Hsome.
    + by destruct (Hnot r1 r2).
    + unfold adjustVolume.
      destruct (_ || _); [auto|]. simpl.
      destruct (soundRef (hook s)) eqn:E; [destruct r|]; simpl;
        rewrite ?E; eauto.
Qed.

Lemma error_and_sound_are_never_cleared_witness :
  let failed := {| hook := setError (Some (Err "decode")) mid_drain;
                   tasks := [mkTask mount_render (AwaitFinish chunk_a 4)] |} in
  is_Some (error (hook (act failed (Deliver (Wake 0 DidJustFinish))))) /\
  is_Some (soundRef (hook (act failed (Deliver (Wake 0 DidJustFinish))))).
Proof.
  intros failed.
  destruct (error_and_sound_are_never_cleared failed
              (Deliver (Wake 0 DidJustFinish)) one_subscriber) as (He & Hs & _).
  split.
  - apply He. simpl. eauto.
  - apply Hs; [simpl; eauto|discriminate].
Defined.

Lemma adjustAll_volume vs : forall h,
  volume (adjustAll vs h) = default (volume h) (last (List.filter let_through vs)).
Proof.
  induction vs as [|v vs IH] using rev_ind; intros h; [reflexivity|].
  unfold adjustAll in *. rewrite foldl_snoc, List.filter_app. simpl.
  unfold adjustVolume at 1. unfold let_through at 2.
  destruct (js_lt v (Finite 0) || js_gt v (Finite 1)); simpl.
  - rewrite app_nil_r. apply IH.
  - rewrite last_snoc. simpl.
    match goal with |- context [soundRef ?h0] => destruct (soundRef h0) end;
      reflexivity.
Qed.

Lemma adjustAll_without_sound vs : forall h,
  soundRef h = None ->
  adjustAll vs h = setVolume (volume (adjustAll vs h)) h.
Proof.
  intros h Hs.
  assert (Hex : exists v', adjustAll vs h = setVolume v' h).
  { induction vs as [|v vs IH] using rev_ind.
    - exists (volume h). by destruct h.
    - destruct IH as (v' & IH). unfold adjustAll in *. rewrite foldl_snoc, IH.
      unfold adjustVolume.
      destruct (js_lt v (Finite 0) || js_gt v (Finite 1)); [by exists v'|].
      simpl. rewrite Hs. by exists v. }
  destruct Hex as (v' & ->). reflexivity.
Qed.

Lemma try_created render p r h h' ctl :
  playAudioChunk_try render p r h = Some (h', ctl) ->
  Forall (created_with (render_volume render)) (effects h) ->
  Forall (created_with (render_volume render)) (effects h').
Proof.
  destruct p, r as [[[]|e]|[s|e]| |[[]|e]|[[]|e]|]; simpl; intros Heq;
    inversion Heq; subst; simpl; rewrite ?Forall_app; intros Hall;
    repeat split; try assumption; by repeat constructor.
Qed.

Lemma resume_created render p r h h' next :
  processAudioQueue_resume render p r h = Some (h', next) ->
  Forall (created_with (render_volume render)) (effects h) ->
  Forall (created_with (render_volume render)) (effects h').
Proof.
  intros Hres Hall.
  destruct p as [c|c|c s|c s|c s|].
  6:{ destruct r; try discriminate Hres. simpl in Hres. injection Hres as Hr.
      apply (f_equal fst) in Hr. simpl in Hr. subst h'.
      unfold processAudioQueue_loop. destruct (audioQueueRef h); simpl;
        rewrite ?Forall_app; repeat split; try assumption; by repeat constructor. }
  all: simpl in Hres; unfold playAudioChunk_resume in Hres;
    destruct (playAudioChunk_try render _ r h) as [[h1 ctl]|] eqn:Htry;
    [|discriminate Hres];
    pose proof (try_created _ _ _ _ _ _ Htry Hall) as H1;
    destruct ctl; simpl in Hres; injection Hres as <- _; simpl;
    rewrite ?Forall_app; repeat split; try assumption; by repeat constructor.
Qed.

Lemma processAudioQueue_created v h :
  Forall (created_with v) (effects h) ->
  Forall (created_with v) (effects (processAudioQueue h).1).
Proof.
  intros Hall. unfold processAudioQueue.
  destruct (isProcessingRef h || (length (audioQueueRef h) =? 0)); [exact Hall|].
  unfold processAudioQueue_loop. simpl. destruct (audioQueueRef h); simpl;
    rewrite ?Forall_app; repeat split; try assumption; by repeat constructor.
Qed.

(** What a run without the resume control keeps: every suspended loop is
    one of the first render, and every sound was created at full volume. *)
Lemma act_handler_loops s a :
  is_resume a = false ->
  Forall (fun t => closure t = mount_render) (tasks s) ->
  Forall (created_with (Finite 1)) (effects (hook s)) ->
  Forall (fun t => closure t = mount_render) (tasks (act s a)) /\
  Forall (created_with (Finite 1)) (effects (hook (act s a))).
Proof.
  intros Hnot Hts Hall. destruct a as [[c|i r]|r|r|r1 r2|v r]; simpl.
  - unfold handleIncomingAudioChunk. simpl.
    match goal with |- context [if ?b then _ else _] => destruct b end.
    + match goal with |- context [processAudioQueue ?h0] =>
        pose proof (processAudioQueue_created (Finite 1) h0 Hall) as H;
        destruct (processAudioQueue h0) as [h1 st] end.
      simpl in *. split; [|exact H].
      apply Forall_app. split; [exact Hts|]. destruct st; by repeat constructor.
    + simpl. rewrite app_nil_r. by split.
  - destruct (tasks s !! i) as [t|] eqn:Ht; [|by split].
    assert (Hc : closure t = mount_render).
    { by apply (Forall_lookup_1 _ _ _ _ Hts Ht). }
    destruct (processAudioQueue_resume (closure t) (point t) r (hook s))
      as [[h' [p'|]]|] eqn:Hres; simpl; [| |by split].
    + rewrite Hc in Hres. split; [|by eapply (resume_created mount_render)].
      by apply Forall_insert.
    + rewrite Hc in Hres. split; [|by eapply (resume_created mount_render)].
      by apply Forall_delete.
  - split; [exact Hts|]. by destruct (pause_keeps_queue r (hook s)) as (_ & _ & _ & ->).
  - discriminate Hnot.
  - split; [exact Hts|]. unfold stopPlayback.
    destruct (soundRef (hook s)); [destruct r1; [destruct r2|]|]; simpl;
      rewrite ?Forall_app; repeat split; try assumption; by repeat constructor.
  - split; [exact Hts|]. unfold adjustVolume.
    destruct (_ || _); [exact Hall|]. simpl.
    destruct (soundRef (hook s)); [destruct r|]; simpl;
      rewrite ?Forall_app; repeat split; try assumption; by repeat constructor.
Qed.

Lemma perform_all_handler_loops actions :
  forallb (fun a => negb (is_resume a)) actions = true ->
  Forall (fun t => closure t = mount_render) (tasks (perform_all actions boot)) /\
  Forall (created_with (Finite 1)) (effects (hook (perform_all actions boot))).
Proof.
  induction actions as [|a actions IH] using rev_ind; intros Hnone.
  - split; constructor.
  - rewrite forallb_app in Hnone. apply andb_true_iff in Hnone as (Hpre & Hlast).
    simpl in Hlast. rewrite andb_true_r in Hlast. apply negb_true_iff in Hlast.
    destruct (IH Hpre) as (Hts & Hall).
    unfold perform_all in *. rewrite foldl_snoc. by apply act_handler_loops.
Qed.

(** X17. After any run of [adjustVolume] calls the stored volume is the last
    value that passed the guard, or the volume from before if none did. The
    loops that the subscribed handler starts do not see it: from mount, in
    any run of arrivals, loop steps, pauses, stops and volume changes in
    which the resume control is not used, every sound is created with the
    volume 1 of the first render. A loop that the resume control starts
    belongs to the render of that moment: its first sound is created with
    the volume stored then. *)
Theorem volume_changes_reach_only_resumed_loops
  (vs : list JsNumber) (h : Hook) (actions : list Action)
  (c : AudioChunk) (rest : list AudioChunk) (r : Settled unit) :
  let v := default (volume h) (last (List.filter let_through vs)) in
  volume (adjustAll vs h) = v /\
  (forallb (fun a => negb (is_resume a)) actions = true ->
   Forall (created_with (Finite 1))
          (effects (hook (perform_all actions boot)))) /\
  (soundRef h = None -> isProcessingRef h = false -> audioQueueRef h = c :: rest ->
   let s := perform_all [Continue r; Deliver (Wake 0 (WriteSettled (Resolved ())))]
              {| hook := adjustAll vs h; tasks := [] |} in
   tasks s = [mkTask {| render_isPlaying := isPlaying h; render_volume := v |}
                (AwaitCreate c)] /\
   effects (hook s) = effects h ++ [PlayCalled c; WriteFile c; CreateSound c v]).
Proof.
  cbv zeta. split; [apply adjustAll_volume|]. split.
  - intros Hnone. by destruct (perform_all_handler_loops actions Hnone).
  - intros Hs Hp Hq. rewrite (adjustAll_without_sound vs h Hs), adjustAll_volume.
    unfold perform_all. simpl. unfold resumePlayback. simpl. rewrite Hs, Hq. simpl.
    unfold processAudioQueue. simpl. rewrite Hp, Hq. simpl.
    unfold processAudioQueue_loop. simpl. rewrite Hq. simpl.
    split; [reflexivity|]. by rewrite <- !app_assoc.
Qed.

Lemma volume_changes_reach_only_resumed_loops_witness :
  Forall (created_with (Finite 1))
    (effects (hook (perform_all
       (map (fun c => Deliver (Arrive c)) [chunk_a; chunk_b; chunk_a; chunk_b; chunk_a]
        ++ [Volume (Finite (1 # 2)) (Resolved ());
            Deliver (Wake 0 (WriteSettled (Resolved ())))]) boot))) /\
  effects (hook (perform_all
     [Continue (Resolved ()); Deliver (Wake 0 (WriteSettled (Resolved ())))]
     {| hook := adjustAll [Finite (1 # 2)]
                  (setAudioQueueRef [chunk_a] initial);
        tasks := [] |}))
  = [PlayCalled chunk_a; WriteFile chunk_a; CreateSound chunk_a (Finite (1 # 2))].
Proof.
  destruct (volume_changes_reach_only_resumed_loops [Finite (1 # 2)]
              (setAudioQueueRef [chunk_a] initial)
              (map (fun c => Deliver (Arrive c))
                   [chunk_a; chunk_b; chunk_a; chunk_b; chunk_a]
               ++ [Volume (Finite (1 # 2)) (Resolved ());
                   Deliver (Wake 0 (WriteSettled (Resolved ())))])
              chunk_a [] (Resolved ()))
    as (_ & Hhandler & Hresumed).
  split; [by apply Hhandler|].
  by destruct (Hresumed eq_refl eq_refl eq_refl) as (_ & Hlog).
Defined.
End StickyFacts.

(** ** From the simulation to the loudspeaker *)

Section EndToEnd.
Import AudioStreamingService useAudioPlayback useAudioPlayback_rest.
Variable behaviour : Callback -> AudioChunk -> Completion.

(** As [fire_counts], for the record of the callback calls. *)
Lemma fire_delivers times : forall id w k,
  subscribers_return behaviour (service w) ->
  simulationInterval (service w) = Some id ->
  intervals w !! id
  = Some {| period := AUDIO_CONFIG.chunking.chunkDurationMs; chunkIndex := k |} ->
  k < 10 ->
  delivered (fire behaviour times id w)
  = delivered w
    ++ flat_map (calls_of (registered "incoming_audio_chunk" (service w)))
         (imap (fun j t => simulated_chunk (k + j) t) (take (10 - k) times)).
Proof.
  induction times as [|t times IH]; intros id w k Hret Hsim Hiv Hk.
  - simpl. by rewrite take_nil, app_nil_r.
  - rewrite fire_cons. unfold simulationTick. rewrite Hiv.
    rewrite (emit_returns _ _ _ Hret). cbn [chunkIndex period].
    destruct (decide (10 <= S k)) as [Hlast|Hmore].
    + assert (k = 9) by lia. subst k.
      rewrite fire_cleared.
      2:{ simpl. rewrite Hsim. simpl. apply lookup_delete_eq. }
      simpl. by rewrite app_nil_r.
    + match goal with |- context [fire behaviour times id ?w1] =>
        specialize (IH id w1 (S k)) end.
      simpl in IH. rewrite IH; [|exact Hret|exact Hsim|by rewrite lookup_insert_eq|lia].
      rewrite <- app_assoc. f_equal.
      replace (10 - k) with (S (10 - S k)) by lia.
      rewrite firstn_cons, imap_cons. simpl.
      rewrite Nat.add_0_r. f_equal. f_equal.
      apply imap_ext. intros j x _. simpl. f_equal. lia.
Qed.

Lemma arrivals_then_drain cs scripts :
  5 <= length cs ->
  length scripts = length cs ->
  let s := run (map Arrive cs ++ drain_events scripts) boot in
  play_events (effects (hook s)) = one_by_one cs /\
  audioQueueRef (hook s) = [] /\
  tasks s = [] /\
  bufferedChunks (hook s) = 0 /\
  playbackState (hook s) = IDLE /\
  isProcessingRef (hook s) = false.
Proof.
  intros Hfive Hlen. cbv zeta. rewrite run_app.
  destruct cs as [|c0 cs]; [simpl in Hfive; lia|].
  rewrite <- (take_drop 4 cs).
  rewrite arrivals_beyond_threshold.
  2:{ rewrite length_take. simpl in Hfive.
      unfold AUDIO_CONFIG.playback.bufferSize. lia. }
  rewrite take_drop.
  destruct (drain_plays_queue mount_render scripts (hook (draining c0 cs)) c0)
    as (Hts & Hq & Hlog & Hp & Hs & _ & Hb).
  { simpl in *. lia. }
  unfold draining in *. simpl in *.
  repeat split; try assumption. by apply Hb.
Qed.

(** Chunks that arrive when no loop is running and that leave the queue
    below the buffer size are only appended. *)
Lemma late_arrivals cs : forall s,
  tasks s = [] ->
  isProcessingRef (hook s) = false ->
  length (audioQueueRef (hook s) ++ cs) < AUDIO_CONFIG.playback.bufferSize ->
  let s' := run (map Arrive cs) s in
  tasks s' = [] /\
  isProcessingRef (hook s') = false /\
  audioQueueRef (hook s') = audioQueueRef (hook s) ++ cs /\
  effects (hook s') = effects (hook s) /\
  playbackState (hook s') = playbackState (hook s) /\
  (bufferedChunks (hook s) = length (audioQueueRef (hook s)) ->
   bufferedChunks (hook s') = length (audioQueueRef (hook s) ++ cs)).
Proof.
  induction cs as [|c cs IH] using rev_ind; intros s Hts Hp Hlen; cbv zeta.
  - simpl. rewrite app_nil_r. repeat split; auto.
  - rewrite map_app. simpl map. rewrite run_snoc.
    rewrite app_assoc, length_app in Hlen. simpl in Hlen.
    destruct (IH s Hts Hp) as (Hts' & Hp' & Hq' & He' & Hs' & Hb'); [lia|].
    unfold step.
    rewrite subscribed_arrival_below_threshold
      by (rewrite Hq', length_app; simpl; lia).
    simpl. rewrite Hts', Hq', app_assoc. repeat split; auto.
Qed.

Lemma index_of_simulated l :
  map index (imap simulated_chunk l) = map Z.of_nat (seq 0 (length l)).
Proof.
  assert (H : forall k, map index (imap (fun j t => simulated_chunk (k + j) t) l)
                        = map Z.of_nat (seq k (length l))).
  { induction l as [|t l IH]; intros k; [reflexivity|].
    rewrite imap_cons. simpl. rewrite Nat.add_0_r. f_equal.
    rewrite <- (IH (S k)). f_equal. apply imap_ext. intros j x _. simpl.
    f_equal. lia. }
  apply (H 0).
Qed.
End EndToEnd.

(** X18. The hook mounted on a fresh service and started with
    [startPlayback]: when the subscribed handler returns on every chunk and
    the interval fires at least ten times, the handler is called exactly ten
    times, with the chunks of index 0 to 9 in that order. However these
    arrivals are interleaved with the steps of the drain loop,
    [playAudioChunk] is called on them one after the other in that order,
    and the chunks played, the one in hand and the queue make up the ten.
    Not all of them need be played: when the first [k] of them, 6 or more,
    have arrived and every play and delay has settled before the others
    arrive, the loop has ended, and the others, being fewer than the buffer
    size, stay in the queue with the state idle and no loop suspended; all
    ten are played to the end when all ten have arrived before the loop
    runs dry. *)
Theorem simulated_chunks_are_played_in_order
  (behaviour : AudioStreamingService.Callback -> AudioChunk -> Completion)
  (handler : AudioStreamingService.Callback) (times : list Z)
  (evs : list useAudioPlayback.Event)
  (k : nat) (scripts : list useAudioPlayback.PlayScript) :
  (forall c, behaviour handler c = Normal) ->
  10 <= length times ->
  let mounted :=
    {| AudioStreamingService.service :=
         AudioStreamingService.on "incoming_audio_chunk" handler
           AudioStreamingService.constructor;
       AudioStreamingService.intervals := ∅;
       AudioStreamingService.emitted := [];
       AudioStreamingService.delivered := [] |} in
  let started := useAudioPlayback_rest.startPlayback
                   (useAudioPlayback.initial, mounted) in
  let from_start := {| useAudioPlayback.hook := started.1;
                       useAudioPlayback.tasks := [] |} in
  exists id,
    AudioStreamingService.simulationInterval
      (AudioStreamingService.service started.2) = Some id /\
    let w' := AudioStreamingService.fire behaviour times id started.2 in
    let received := map snd (AudioStreamingService.delivered w') in
    map fst (AudioStreamingService.delivered w') = replicate 10 handler /\
    map index received = [0; 1; 2; 3; 4; 5; 6; 7; 8; 9]%Z /\
    (useAudioPlayback.arrivals evs = received ->
     let s := useAudioPlayback.run evs from_start in
     exists done current,
       received
       = done ++ current ++ useAudioPlayback.audioQueueRef (useAudioPlayback.hook s) /\
       length current <= 1 /\
       length (useAudioPlayback.tasks s) <= 1 /\
       useAudioPlayback.play_events
         (useAudioPlayback.effects (useAudioPlayback.hook s))
       = useAudioPlayback.one_by_one done
         ++ map useAudioPlayback.PlayCalled current) /\
    (6 <= k <= 10 ->
     length scripts = k ->
     let s := useAudioPlayback.run
                (map useAudioPlayback.Arrive (take k received)
                 ++ useAudioPlayback.drain_events scripts
                 ++ map useAudioPlayback.Arrive (drop k received))
                from_start in
     useAudioPlayback.play_events
       (useAudioPlayback.effects (useAudioPlayback.hook s))
     = useAudioPlayback.one_by_one (take k received) /\
     useAudioPlayback.audioQueueRef (useAudioPlayback.hook s) = drop k received /\
     useAudioPlayback.tasks s = [] /\
     useAudioPlayback.bufferedChunks (useAudioPlayback.hook s) = 10 - k /\
     useAudioPlayback.playbackState (useAudioPlayback.hook s) = IDLE /\
     useAudioPlayback.isProcessingRef (useAudioPlayback.hook s) = false).
Proof.
  intros Hnormal Htimes mounted started from_start.
  pose proof (simulate_installs mounted) as Hinst. cbv zeta in Hinst.
  set (w0 := AudioStreamingService.simulateIncomingAudioChunks mounted) in *.
  set (id := fresh _) in Hinst.
  destruct Hinst as (Hsim & Hls & Hem & Hiv).
  assert (Hreg : registered "incoming_audio_chunk"
                   (AudioStreamingService.service w0) = [handler]).
  { unfold registered. rewrite Hls. unfold mounted. simpl.
    change (registered "incoming_audio_chunk"
              (AudioStreamingService.on "incoming_audio_chunk" handler
                 AudioStreamingService.constructor) = [handler]).
    rewrite registered_on. reflexivity. }
  assert (Hret : subscribers_return behaviour (AudioStreamingService.service w0)).
  { unfold subscribers_return. rewrite Hreg. by repeat constructor. }
  exists id. split; [exact Hsim|]. cbv zeta.
  change started.2 with w0. change from_start with useAudioPlayback.boot.
  rewrite (fire_delivers behaviour times id w0 0 Hret Hsim Hiv) by lia.
  rewrite Hreg. simpl AudioStreamingService.delivered.
  change (10 - 0) with 10.
  set (chunks := imap (fun j t => simulated_chunk (0 + j) t) (take 10 times)).
  assert (Hflat : flat_map (calls_of [handler]) chunks
                  = map (fun c => (handler, c)) chunks).
  { clear. induction chunks as [|c l IH]; [reflexivity|]. simpl. by rewrite IH. }
  rewrite app_nil_l, Hflat.
  assert (Hlen : length chunks = 10).
  { unfold chunks. rewrite length_imap, length_take. lia. }
  assert (Hsnd : map snd (map (fun c => (handler, c)) chunks) = chunks).
  { clear. induction chunks as [|c l IH]; [reflexivity|]. simpl. by rewrite IH. }
  assert (Hfst : map fst (map (fun c => (handler, c)) chunks)
                 = replicate (length chunks) handler).
  { clear. induction chunks as [|c l IH]; [reflexivity|]. simpl. by rewrite IH. }
  rewrite Hsnd, Hfst, Hlen. split; [reflexivity|]. split; [|split].
  - transitivity (map index (imap simulated_chunk (take 10 times)));
      [reflexivity|].
    rewrite (index_of_simulated (take 10 times)).
    rewrite length_take. replace (10 `min` length times) with 10 by lia.
    reflexivity.
  - intros Harrived.
    destruct (run_in_order evs) as (done & next & Hts & _ & Harr & Hlog).
    exists done, (in_hand next). rewrite Hts, <- Harrived.
    repeat split; try assumption; destruct next as [[]|]; simpl; lia.
  - intros Hk Hscripts. rewrite app_assoc, run_app.
    destruct (arrivals_then_drain (take k chunks) scripts)
      as (Hlog & Hq & Hts & Hb & Hs & Hp).
    { rewrite length_take. lia. }
    { rewrite length_take. lia. }
    destruct (late_arrivals (drop k chunks) _ Hts Hp)
      as (Hts' & Hp' & Hq' & He' & Hs' & Hb').
    { rewrite Hq. simpl. rewrite length_drop.
      unfold AUDIO_CONFIG.playback.bufferSize. lia. }
    rewrite Hq in Hq', Hb'. simpl in Hq', Hb'.
    rewrite He', Hq', Hs', Hb' by exact Hb.
    rewrite length_drop, Hlen. repeat split; assumption.
Qed.

Lemma simulated_chunks_are_played_in_order_witness :
  exists id,
    let received :=
      map snd
        (AudioStreamingService.delivered
           (AudioStreamingService.fire quiet_subscriber twelve_firings id
              (AudioStreamingService.simulateIncomingAudioChunks one_subscriber))) in
    map index received = [0; 1; 2; 3; 4; 5; 6; 7; 8; 9]%Z /\
    map index
      (useAudioPlayback.audioQueueRef
         (useAudioPlayback.hook
            (useAudioPlayback.run
               (map useAudioPlayback.Arrive (take 7 received)
                ++ useAudioPlayback.drain_events
                     (replicate 7 (useAudioPlayback.PlaysThrough 1))
                ++ map useAudioPlayback.Arrive (drop 7 received))
               useAudioPlayback.boot)))
    = [7; 8; 9]%Z.
Proof.
  destruct (simulated_chunks_are_played_in_order quiet_subscriber 1 twelve_firings
              [] 7 (replicate 7 (useAudioPlayback.PlaysThrough 1)))
    as (id & _ & _ & Hindex & _ & Hpartial).
  - reflexivity.
  - simpl. lia.
  - exists id. cbv zeta in *. split; [exact Hindex|].
    destruct Hpartial as (_ & Hq & _); [lia|reflexivity|].
    etransitivity; [exact (f_equal (map index) Hq)|].
    rewrite <- skipn_map, Hindex. reflexivity.
Defined.

(** ** Playback: a failed initialisation *)

Section MountFacts.
Import useAudioPlayback useAudioPlayback_rest.
Local Arguments Nat.leb : simpl never.

Lemma step_keeps_error s ev :
  is_Some (error (hook s)) -> is_Some (error (hook (step s ev))).
Proof.
  destruct ev as [c|i r]; simpl.
  - unfold handleIncomingAudioChunk. simpl.
    match goal with |- context [if ?b then _ else _] => destruct b end; [|auto].
    match goal with |- context [processAudioQueue ?h0] =>
      destruct (processAudioQueue_sticky h0) as (He & _);
      destruct (processAudioQueue h0) as [h1 st] end.
    simpl in *. by rewrite He.
  - destruct (tasks s !! i) as [t|]; [|auto].
    destruct (processAudioQueue_resume (closure t) (point t) r (hook s))
      as [[h' next]|] eqn:Hres; [|auto].
    destruct (resume_sticky _ _ _ _ _ _ Hres) as (He & _).
    destruct next; simpl; auto.
Qed.

Lemma failed_mount_in_order e cs : in_arrival_order cs (failed_mount e cs).
Proof. exists [], None. repeat split; reflexivity. Qed.

Lemma failed_mount_arrival e cs c :
  let s := step (failed_mount e cs) (Arrive c) in
  if length (cs ++ [c]) <? AUDIO_CONFIG.playback.bufferSize
  then s = failed_mount e (cs ++ [c])
  else flags_agree (hook s).
Proof.
  cbv zeta. unfold step, failed_mount, handleIncomingAudioChunk. simpl.
  destruct (length (cs ++ [c]) <? AUDIO_CONFIG.playback.bufferSize) eqn:Hlt.
  - apply Nat.ltb_lt in Hlt.
    assert (Hno : (AUDIO_CONFIG.playback.bufferSize <=? length (cs ++ [c])) = false)
      by (apply Nat.leb_gt; exact Hlt).
    rewrite Hno. reflexivity.
  - apply Nat.ltb_ge in Hlt.
    assert (Hyes : (AUDIO_CONFIG.playback.bufferSize <=? length (cs ++ [c])) = true)
      by (apply Nat.leb_le; exact Hlt).
    rewrite Hyes. simpl. unfold processAudioQueue. simpl.
    destruct (length (cs ++ [c]) =? 0) eqn:Hempty.
    { apply Nat.eqb_eq in Hempty. rewrite length_app in Hempty. simpl in Hempty. lia. }
    match goal with |- context [processAudioQueue_loop ?h0] =>
      destruct (loop_flags h0 eq_refl eq_refl) as (Hflags & _);
      destruct (processAudioQueue_loop h0) as [h1 st] end.
    exact Hflags.
Qed.

Lemma run_failed_mount e evs :
  let s := run evs (failed_mount e []) in
  (length (arrivals evs) < AUDIO_CONFIG.playback.bufferSize /\
   s = failed_mount e (arrivals evs)) \/
  (AUDIO_CONFIG.playback.bufferSize <= length (arrivals evs) /\
   flags_agree (hook s) /\
   in_arrival_order (arrivals evs) s /\
   is_Some (error (hook s))).
Proof.
  cbv zeta. induction evs as [|ev evs IH] using rev_ind.
  - left. split; [unfold AUDIO_CONFIG.playback.bufferSize; simpl; lia|reflexivity].
  - rewrite run_snoc, arrivals_app.
    destruct IH as [(Hlen & Hs) | (Hlen & Hflags & Horder & Herr)].
    + rewrite Hs. destruct ev as [c|i r].
      * pose proof (failed_mount_arrival e (arrivals evs) c) as Hstep.
        cbv zeta in Hstep. change (arrivals [Arrive c]) with [c].
        destruct (length (arrivals evs ++ [c]) <? AUDIO_CONFIG.playback.bufferSize)
          eqn:Hlt.
        -- left. split; [by apply Nat.ltb_lt|exact Hstep].
        -- right. apply Nat.ltb_ge in Hlt. split; [exact Hlt|].
           split; [exact Hstep|]. split.
           ++ apply (step_in_order _ _ (Arrive c)), failed_mount_in_order.
           ++ apply step_keeps_error. simpl. eauto.
      * left. change (arrivals [Wake i r]) with (@nil AudioChunk).
        rewrite app_nil_r. split; [exact Hlen|reflexivity].
    + right. split.
      { rewrite length_app. lia. }
      split; [by eapply step_flags|].
      split; [by apply step_in_order|by apply step_keeps_error].
Qed.
End MountFacts.

(** X27. When setting the audio mode has failed at mount, before any chunk
    arrived, the state reads 'error' exactly until the chunk arrives that
    fills the buffer of
    [AUDIO_CONFIG.playback.bufferSize] chunks: playback is not held back by
    the failure, and from that arrival on the state follows the drain loop,
    'playing' while it runs and 'idle' otherwise, however arrivals and the
    steps of the loop are interleaved. Only the error cell keeps a trace: it
    stays set. *)
Theorem failed_initialisation_shows_until_first_drain
  (e : JsError) (evs : list useAudioPlayback.Event) :
  let h := useAudioPlayback.hook (useAudioPlayback.run evs (failed_mount e [])) in
  (useAudioPlayback.playbackState h = ERROR <->
   length (useAudioPlayback.arrivals evs) < AUDIO_CONFIG.playback.bufferSize) /\
  (AUDIO_CONFIG.playback.bufferSize <= length (useAudioPlayback.arrivals evs) ->
   useAudioPlayback.playbackState h
   = if useAudioPlayback.isProcessingRef h then PLAYING else IDLE) /\
  is_Some (useAudioPlayback.error h).
Proof.
  cbv zeta.
  destruct (run_failed_mount e evs) as [(Hlen & Hs) | (Hlen & Hflags & _ & Herr)].
  - rewrite Hs. simpl. split; [split; [intros _; exact Hlen|reflexivity]|].
    split; [intros Hge; lia|eauto].
  - destruct Hflags as (Hstate & _). split; [|split; [intros _; exact Hstate|exact Herr]].
    split.
    + rewrite Hstate. by destruct (useAudioPlayback.isProcessingRef _).
    + intros Hlt. lia.
Qed.

(** ** Capture: the clock, the session controls and the duration text *)

Section RecordingControls.
Import useAudioRecording useAudioRecording_rest.

Lemma clock_ok_below_100_minutes :
  forallb clock_ok (seq 0 (Z.to_nat 6000)) = true.
Proof. vm_compute. reflexivity. Qed.

Lemma clock_ok_at seconds :
  (0 <= seconds < 6000)%Z ->
  String.length (formatDuration seconds) = 5 /\
  readClock (formatDuration seconds) = Some seconds.
Proof.
  intros Hrange.
  pose proof clock_ok_below_100_minutes as Hall.
  rewrite forallb_forall in Hall.
  assert (Hin : In (Z.to_nat seconds) (seq 0 (Z.to_nat 6000)))
    by (apply in_seq; lia).
  apply Hall in Hin. unfold clock_ok in Hin. rewrite Z2Nat.id in Hin by lia.
  apply andb_true_iff in Hin as [Hlen Hread].
  split; [by apply Nat.eqb_eq|].
  destruct (readClock (formatDuration seconds)) as [z|]; [|discriminate].
  apply Z.eqb_eq in Hread. by subst.
Qed.

Lemma emits_sends io h svc :
  emits io = true ->
  index <$> (stopCurrentChunk io (h, svc)).2 = Some (Z.of_nat (S (chunkCountRef h))).
Proof.
  unfold emits, finalized, stopCurrentChunk, processAudioChunk.
  destruct (stopAndUnloadAsync io) as [[]|e]; [|discriminate].
  destruct (truthy (getURI io)); [|discriminate].
  destruct (readAsStringAsync io); [reflexivity|discriminate].
Qed.
End RecordingControls.

(** X19. For every duration below 100 minutes [formatDuration] gives a text
    of exactly five characters, two digits of minutes, a colon and two digits
    of seconds, which reads back as the duration; so two different durations
    below 100 minutes never show the same text. *)
Theorem formatDuration_reads_back (seconds other : Z) :
  (0 <= seconds < 6000)%Z ->
  (0 <= other < 6000)%Z ->
  String.length (useAudioRecording_rest.formatDuration seconds) = 5 /\
  useAudioRecording_rest.readClock (useAudioRecording_rest.formatDuration seconds)
  = Some seconds /\
  (useAudioRecording_rest.formatDuration seconds
   = useAudioRecording_rest.formatDuration other -> seconds = other).
Proof.
  intros Hs Ho.
  destruct (clock_ok_at seconds Hs) as (Hlen & Hread).
  destruct (clock_ok_at other Ho) as (_ & Hread').
  split; [exact Hlen|]. split; [exact Hread|].
  intros Heq. rewrite Heq in Hread. congruence.
Qed.

Lemma formatDuration_reads_back_witness :
  useAudioRecording_rest.formatDuration 754 = "12:34"%string /\
  useAudioRecording_rest.readClock (useAudioRecording_rest.formatDuration 59)
  = Some 59%Z.
Proof.
  destruct (formatDuration_reads_back 59 754) as (_ & Hread & _); [lia|lia|].
  split; [reflexivity|exact Hread].
Defined.

(** X20. The duration shown is counted from the start of the session and a
    pause does not count: a tick [elapsed] milliseconds after
    [startRecording] shows the whole seconds of [elapsed], and a tick
    [elapsed] milliseconds after [resumeRecording] shows the duration that
    was shown at the pause plus the whole seconds of [elapsed]. (A start time
    that is 0 is taken for no start time, so it is excluded.) *)
Theorem duration_resumes_where_it_paused
  (h : useAudioRecording.Hook) (s : useAudioRecording_rest.Session)
  (now elapsed : Z) (timer : nat) (recorder : option nat) :
  useAudioRecording.isRecording h = false ->
  useAudioRecording.isRecording (useAudioRecording_rest.hook s) = false ->
  now <> 0%Z ->
  (now - useAudioRecording.duration (useAudioRecording_rest.hook s) * 1000 <> 0)%Z ->
  useAudioRecording.duration
    (useAudioRecording_rest.durationTick (now + elapsed)
       (useAudioRecording.startRecording (Resolved ()) now h))
  = (elapsed / 1000)%Z /\
  useAudioRecording.duration
    (useAudioRecording_rest.durationTick (now + elapsed)
       (useAudioRecording_rest.hook
          (useAudioRecording_rest.resumeRecording now timer recorder s)))
  = (useAudioRecording.duration (useAudioRecording_rest.hook s) + elapsed / 1000)%Z.
Proof.
  intros Hh Hs Hnow Hstart. split.
  - unfold useAudioRecording.startRecording. rewrite Hh.
    unfold useAudioRecording_rest.durationTick. simpl.
    destruct (now =? 0)%Z eqn:E; [apply Z.eqb_eq in E; contradiction|].
    simpl. f_equal. lia.
  - unfold useAudioRecording_rest.resumeRecording. rewrite Hs.
    unfold useAudioRecording_rest.durationTick. simpl.
    destruct (_ =? 0)%Z eqn:E; [apply Z.eqb_eq in E; contradiction|].
    simpl.
    replace (now + elapsed
             - (now - useAudioRecording.duration (useAudioRecording_rest.hook s) * 1000))%Z
      with (elapsed + useAudioRecording.duration (useAudioRecording_rest.hook s) * 1000)%Z
      by lia.
    rewrite Z.div_add by lia. lia.
Qed.

Lemma duration_resumes_where_it_paused_witness :
  let paused := {| useAudioRecording_rest.hook :=
                     useAudioRecording_rest.setClock (Some 1000%Z) 7 not_recording;
                   useAudioRecording_rest.recordingRef := None;
                   useAudioRecording_rest.durationIntervalRef := None |} in
  useAudioRecording.duration
    (useAudioRecording_rest.durationTick (50000 + 2500)
       (useAudioRecording_rest.hook
          (useAudioRecording_rest.resumeRecording 50000 1 (Some 2) paused)))
  = 9%Z.
Proof.
  intros paused.
  exact (proj2 (duration_resumes_where_it_paused not_recording paused 50000 2500 1
                  (Some 2) eq_refl eq_refl ltac:(discriminate) ltac:(discriminate))).
Defined.

(** X21. [stopRecording] on a running session always ends it, whatever
    recorder reference it finds and however the recorder's stop settles:
    recording flag down, state idle, duration 0, no start time, no recorder,
    no duration interval, and no further tick moves the duration; it leaves
    the chunk counters and the error cell as they were, and used again it
    changes nothing. [pauseRecording] on a running session that holds no
    recorder, as every session of the hook does, lowers the flag and clears
    the duration interval, and keeps the duration, the start time, the
    counters and the error cell. *)
Theorem stop_always_tears_down
  (r r' : Settled unit) (s : useAudioRecording_rest.Session) (later : Z) :
  useAudioRecording.isRecording (useAudioRecording_rest.hook s) = true ->
  let stopped := useAudioRecording_rest.stopRecording r s in
  let paused := useAudioRecording_rest.pauseRecording r' s in
  stopped
  = {| useAudioRecording_rest.hook :=
         {| useAudioRecording.isRecording := false;
            useAudioRecording.recordingState := IDLE;
            useAudioRecording.error :=
              useAudioRecording.error (useAudioRecording_rest.hook s);
            useAudioRecording.duration := 0;
            useAudioRecording.chunksRecorded :=
              useAudioRecording.chunksRecorded (useAudioRecording_rest.hook s);
            useAudioRecording.startTimeRef := None;
            useAudioRecording.chunkCountRef :=
              useAudioRecording.chunkCountRef (useAudioRecording_rest.hook s) |};
       useAudioRecording_rest.recordingRef := None;
       useAudioRecording_rest.durationIntervalRef := None |} /\
  useAudioRecording_rest.durationTick later (useAudioRecording_rest.hook stopped)
  = useAudioRecording_rest.hook stopped /\
  useAudioRecording_rest.stopRecording r stopped = stopped /\
  (useAudioRecording_rest.recordingRef s = None ->
   paused
   = {| useAudioRecording_rest.hook :=
          {| useAudioRecording.isRecording := false;
             useAudioRecording.recordingState := IDLE;
             useAudioRecording.error :=
               useAudioRecording.error (useAudioRecording_rest.hook s);
             useAudioRecording.duration :=
               useAudioRecording.duration (useAudioRecording_rest.hook s);
             useAudioRecording.chunksRecorded :=
               useAudioRecording.chunksRecorded (useAudioRecording_rest.hook s);
             useAudioRecording.startTimeRef :=
               useAudioRecording.startTimeRef (useAudioRecording_rest.hook s);
             useAudioRecording.chunkCountRef :=
               useAudioRecording.chunkCountRef (useAudioRecording_rest.hook s) |};
        useAudioRecording_rest.recordingRef := None;
        useAudioRecording_rest.durationIntervalRef := None |}).
Proof.
  intros Hrec. cbv zeta.
  unfold useAudioRecording_rest.stopRecording, useAudioRecording_rest.pauseRecording.
  rewrite Hrec. simpl. repeat split; try reflexivity.
  intros ->. reflexivity.
Qed.

Lemma stop_always_tears_down_witness :
  let running :=
    useAudioRecording_rest.capture
      (useAudioRecording_rest.run
         [useAudioRecording_rest.PressStart (Resolved ()) 1000 1 3 (Resolved ());
          useAudioRecording_rest.DurationTick 4500]
         (useAudioRecording_rest.mounted AudioStreamingService.constructor)) in
  useAudioRecording.duration (useAudioRecording_rest.hook running) = 3%Z /\
  useAudioRecording_rest.durationIntervalRef running = Some 1 /\
  useAudioRecording_rest.stopRecording (Rejected (Err "recorder")) running
  = {| useAudioRecording_rest.hook := not_recording;
       useAudioRecording_rest.recordingRef := None;
       useAudioRecording_rest.durationIntervalRef := None |}.
Proof.
  intros running.
  destruct (stop_always_tears_down (Rejected (Err "recorder")) (Resolved ())
              running 0 eq_refl) as (Hstop & _).
  split; [reflexivity|]. split; [reflexivity|]. by rewrite Hstop.
Defined.



(** ** The page: streamed audio *)

Section StreamingFacts.
Import page.
Local Open Scope string_scope.
Variable atob : string -> option Uint8Array.

Lemma totalLength_from (n : nat) (cs : list Uint8Array) :
  foldl (fun sum chunk => sum + length chunk)%nat n cs = (n + totalLength cs)%nat.
Proof.
  unfold totalLength. revert n.
  induction cs as [|c cs IH]; intros n; simpl; [lia|].
  rewrite IH, (IH (length c)). lia.
Qed.

Lemma totalLength_cons (c : Uint8Array) (cs : list Uint8Array) :
  totalLength (c :: cs) = (length c + totalLength cs)%nat.
Proof. unfold totalLength at 1. simpl. apply totalLength_from. Qed.

Lemma set_fits (done filler c : Uint8Array) :
  (length c <= length filler)%nat ->
  page.set (done ++ filler)%list c (length done)
  = Some ((done ++ c) ++ drop (length c) filler)%list.
Proof.
  intros Hfit. unfold page.set.
  rewrite length_app.
  destruct (length done + length c <=? length done + length filler)%nat eqn:E;
    [|apply Nat.leb_gt in E; lia].
  rewrite take_app_length, drop_app_add'; [|reflexivity].
  by rewrite <- app_assoc.
Qed.

Lemma copy_all (cs : list Uint8Array) :
  forall done filler : Uint8Array,
  length filler = totalLength cs ->
  foldl copy_chunk (Some ((done ++ filler)%list, length done)) cs
  = Some ((done ++ concat cs)%list, (length done + totalLength cs)%nat).
Proof.
  induction cs as [|c cs IH]; intros done filler Hlen.
  - simpl. destruct filler; [|discriminate].
    unfold totalLength. simpl. by rewrite Nat.add_0_r.
  - rewrite totalLength_cons in Hlen |- *. simpl.
    rewrite set_fits by lia.
    replace (length done + length c)%nat with (length (done ++ c)%list)
      by (rewrite length_app; reflexivity).
    rewrite IH by (rewrite length_drop; lia).
    rewrite length_app, <- app_assoc. do 2 f_equal. lia.
Qed.

Lemma combine_concat (cs : list Uint8Array) : page.combine cs = Some (concat cs).
Proof.
  unfold page.combine.
  pose proof (copy_all cs [] (replicate (totalLength cs) Byte.x00)) as H.
  simpl in H. rewrite H by apply length_replicate. reflexivity.
Qed.

Lemma onmessage_chunk (p : Page) (st : Streaming) (data : Message) :
  streamingAudioRef p = Some st ->
  chunk_message (sessionId st) data ->
  onmessage atob p (Some data)
  = match atob (toStr (chunk_data data)) with
    | Some chunkBytes =>
        setStreaming (Some {| chunks := (chunks st ++ [chunkBytes])%list;
                              sessionId := sessionId st;
                              type_ := type_ st |}) p
    | None => p
    end.
Proof.
  intros Href [Htype Hsid]. unfold onmessage, same_session.
  rewrite Href, Hsid, bool_decide_eq_true_2 by reflexivity.
  destruct Htype as [-> | ->]; reflexivity.
Qed.

Lemma onmessage_end (p : Page) (st : Streaming) (data : Message) :
  streamingAudioRef p = Some st ->
  end_message (sessionId st) data ->
  onmessage atob p (Some data)
  = setStreaming None (play (FromChunks (concat (chunks st)) (type_ st)) p).
Proof.
  intros Href [Htype Hsid]. unfold onmessage, same_session, playStreamingAudio.
  rewrite Href, Hsid, bool_decide_eq_true_2, combine_concat by reflexivity.
  destruct Htype as [-> | ->]; reflexivity.
Qed.

Lemma onmessage_foreign (p : Page) (st : Streaming) (data : Message) :
  streamingAudioRef p = Some st ->
  foreign_message (sessionId st) data ->
  onmessage atob p (Some data) = p.
Proof.
  intros Href [Htype Hsid]. unfold onmessage, same_session.
  rewrite Href, bool_decide_eq_false_2 by congruence.
  destruct Htype as [-> | [-> | [-> | ->]]]; reflexivity.
Qed.

Lemma receive_cons (p : Page) (data : Message) (messages : list Message) :
  receive atob p (data :: messages)
  = receive atob (onmessage atob p (Some data)) messages.
Proof. reflexivity. Qed.

Lemma receive_app (p : Page) (first rest : list Message) :
  receive atob p (first ++ rest) = receive atob (receive atob p first) rest.
Proof. unfold receive. by rewrite fmap_app, foldl_app. Qed.

Lemma collect (messages : list Message) :
  forall (p : Page) (st : Streaming),
  streamingAudioRef p = Some st ->
  Forall (chunk_message (sessionId st)) messages ->
  receive atob p messages
  = setStreaming (Some {| chunks := (chunks st ++ decoded atob messages)%list;
                          sessionId := sessionId st;
                          type_ := type_ st |}) p.
Proof.
  induction messages as [|data messages IH]; intros p st Href Hall.
  - destruct p as [t j r s], st as [cs sid ty]. simpl in *. subst r.
    unfold receive, setStreaming. simpl. by rewrite app_nil_r.
  - apply Forall_cons in Hall as [Hdata Hall].
    rewrite receive_cons, (onmessage_chunk p st) by assumption.
    unfold decoded. simpl. fold (decoded atob messages).
    destruct (atob (toStr (chunk_data data))) as [chunkBytes|].
    + erewrite IH; [|reflexivity|exact Hall]. simpl.
      by rewrite <- app_assoc.
    + by apply IH.
Qed.

Lemma collect_and_play (p : Page) (st : Streaming) (messages : list Message)
    (fin : Message) :
  streamingAudioRef p = Some st ->
  Forall (chunk_message (sessionId st)) messages ->
  end_message (sessionId st) fin ->
  receive atob p (messages ++ [fin])
  = setStreaming None
      (play (FromChunks (concat (chunks st ++ decoded atob messages)) (type_ st)) p).
Proof.
  intros Href Hall Hfin.
  rewrite receive_app, (collect messages p st) by assumption.
  rewrite receive_cons. erewrite onmessage_end; [|reflexivity|exact Hfin].
  reflexivity.
Qed.

End StreamingFacts.

(** X23. The combining loop of [playStreamingAudio] never writes outside the
    array it allocated, and the array it hands to the audio element is the
    chunks laid end to end in the order of the list: one audio element is
    started, on exactly that array. *)
Theorem combined_audio_is_concatenation
  (chunks : list page.Uint8Array) (audioType : string) (p : page.Page) :
  page.combine chunks = Some (concat chunks) /\
  page.started (page.playStreamingAudio chunks audioType p)
  = page.started p ++ [page.FromChunks (concat chunks) audioType].
Proof.
  split; [apply combine_concat|].
  unfold page.playStreamingAudio. by rewrite combine_concat.
Qed.

(** X24. A streamed facial joke is played whole: after an
    'expression_result' message that carries a facial joke and announces
    streaming, the chunk messages of the same session, and the end message,
    one audio element has been started, on the decoded chunks in the order
    they arrived (a chunk that does not decode is skipped), with type
    'facial_joke'; the caption shows the joke and nothing is being collected
    any more. This holds whatever was being collected before. *)
Theorem facial_stream_plays_every_chunk
  (atob : string -> option page.Uint8Array) (p : page.Page)
  (announce : page.Message) (messages : list page.Message) (fin : page.Message) :
  page.type announce = "expression_result"%string ->
  page.truthy (page.facial_joke announce) = true ->
  page.facial_joke_streaming announce = true ->
  Forall (chunk_message (page.session_id announce)) messages ->
  end_message (page.session_id announce) fin ->
  let p' := page.receive atob p (announce :: messages ++ [fin]) in
  page.started p'
  = page.started p
    ++ [page.FromChunks (concat (page.decoded atob messages)) "facial_joke"] /\
  page.streamingAudioRef p' = None /\
  page.jokeResponse p' = page.facial_joke announce.
Proof.
  intros Htype Hjoke Hstreaming Hall Hfin. cbv zeta.
  rewrite receive_cons.
  set (st := {| page.chunks := []; page.sessionId := page.session_id announce;
                page.type_ := "facial_joke"%string |}).
  assert (Hfirst : page.onmessage atob p (Some announce)
                   = page.setStreaming (Some st)
                       (page.setJokeResponse (page.facial_joke announce) p)).
  { unfold page.onmessage. rewrite Htype, Hjoke, Hstreaming. simpl.
    by rewrite andb_false_r. }
  rewrite Hfirst.
  rewrite (collect_and_play atob _ st) by (try reflexivity; assumption).
  repeat split; reflexivity.
Qed.

Lemma facial_stream_plays_every_chunk_witness :
  page.started
    (page.receive bytes_of_text fresh_page
       (facial_announcement "s1"
        :: [message "facial_joke_audio_chunk" "s1" (Some "ab");
            message "facial_joke_audio_chunk" "s1" None;
            message "joke_audio_chunk" "s1" (Some "cd")]
        ++ [message "facial_joke_audio_end" "s1" None]))
  = [page.FromChunks (String.list_byte_of_string "abcd") "facial_joke"].
Proof.
  refine (proj1 (facial_stream_plays_every_chunk bytes_of_text fresh_page
                   (facial_announcement "s1") _ _
                   eq_refl eq_refl eq_refl _ _)).
  - repeat (apply List.Forall_cons;
            [split; [(left; reflexivity) || (right; reflexivity)|reflexivity]|]);
    apply List.Forall_nil.
  - split; [(by left) || (by right)|reflexivity].
Defined.

(** X25. A streamed spoken joke loses its first chunk: a 'joke_response'
    message never starts the collection, streaming flag or not, because the
    earlier branch for that type takes it, and shows the [joke] field. So,
    when nothing is being collected, the first chunk message only creates the
    collector and is itself dropped, and at the end message the audio that is
    started holds the decoded chunks from the second on. *)
Theorem joke_stream_drops_first_chunk
  (atob : string -> option page.Uint8Array) (p : page.Page)
  (announce first : page.Message) (messages : list page.Message)
  (fin : page.Message) (sid : option string) :
  page.streamingAudioRef p = None ->
  page.type announce = "joke_response"%string ->
  chunk_message sid first ->
  Forall (chunk_message sid) messages ->
  end_message sid fin ->
  let p' := page.receive atob p (announce :: first :: messages ++ [fin]) in
  page.streamingAudioRef (page.onmessage atob p (Some announce)) = None /\
  page.jokeResponse (page.onmessage atob p (Some announce)) = page.joke announce /\
  page.started p'
  = page.started p ++ [page.FromChunks (concat (page.decoded atob messages)) "joke"] /\
  page.streamingAudioRef p' = None.
Proof.
  intros Href Htype [Hfirst Hsid] Hall Hfin. cbv zeta.
  assert (Hannounce : page.onmessage atob p (Some announce)
                      = page.setTranscription (page.original_text announce)
                          (page.setJokeResponse (page.joke announce) p)).
  { unfold page.onmessage. by rewrite Htype. }
  rewrite !receive_cons, Hannounce.
  split; [exact Href|]. split; [reflexivity|].
  set (p1 := page.setTranscription _ _).
  set (st := {| page.chunks := []; page.sessionId := sid;
                page.type_ := "joke"%string |}).
  assert (Hcreate : page.onmessage atob p1 (Some first)
                    = page.setStreaming (Some st) p1).
  { unfold page.onmessage. subst p1 st. simpl. rewrite Href, Hsid.
    destruct Hfirst as [-> | ->]; reflexivity. }
  rewrite Hcreate.
  rewrite (collect_and_play atob _ st) by (try reflexivity; assumption).
  split; reflexivity.
Qed.

Lemma joke_stream_drops_first_chunk_witness :
  page.started
    (page.receive bytes_of_text fresh_page
       (message "joke_response" "s1" None
        :: message "joke_audio_chunk" "s1" (Some "ab")
        :: [message "joke_audio_chunk" "s1" (Some "cd");
            message "joke_audio_chunk" "s1" (Some "ef")]
        ++ [message "joke_audio_end" "s1" None]))
  = [page.FromChunks (String.list_byte_of_string "cdef") "joke"].
Proof.
  refine (proj1 (proj2 (proj2
            (joke_stream_drops_first_chunk bytes_of_text fresh_page
               (message "joke_response" "s1" None)
               (message "joke_audio_chunk" "s1" (Some "ab")) _ _ (Some "s1"%string)
               eq_refl eq_refl _ _ _)))).
  - split; [(by left) || (by right)|reflexivity].
  - repeat (apply List.Forall_cons;
            [split; [(left; reflexivity) || (right; reflexivity)|reflexivity]|]);
    apply List.Forall_nil.
  - split; [(by left) || (by right)|reflexivity].
Defined.


